(** * The command queue and the line editor of the Draw terminal

    A shallow embedding of [DrawCommand], [DrawCommandQueue] and of the
    line-editing and dispatching methods of [DrawTerm] (drawxterm.js),
    with the properties of the queue/editor core stated over it.

    The repository holds two copies of the class. The later one answers
    a promise from [termEvaluateCommand], knows the continuation marker
    and the clipboard shortcuts: it is the one the specification
    describes, and it is embedded as [DrawTerm]. The copy under
    src/js/drawxterm.js evaluates synchronously; its methods that differ
    are embedded as [DrawTermSync]. [DrawCommand] and
    [DrawCommandQueue] are the same text in both.

    Conventions of the embedding.
    - A JavaScript string is a [string]; a character of the embedding
      stands for one UTF-16 code unit.
    - A JavaScript number that only ever holds an integer is a [Z].
    - [DrawCommand] objects are mutable and are linked through their
      [_myNext] field: they live in a store ([Heap]) and are designated
      by references; [null] is [None].
    - A method that changes the terminal is a function from the state
      of the terminal to its next state, paired with what it returns.
    - A promise that is settled when its holder receives it has its
      handlers run before any other event; a promise that is still
      pending then (an upload) has them run at a later event, after
      whatever came meanwhile.

    The commands implemented in JavaScript ([_commandJsdownload],
    [_commandJsupload], [uploadUrl]) are embedded on their own, over
    the file system and the network they are given ([Commands]); the
    terminal itself takes them as collaborators. [Session] runs the
    terminal on any sequence of the events it reacts to.
*)

From Stdlib Require Import Ascii String ZArith Lia.
From stdpp Require Import base option list strings pretty.

Set Default Proof Using "Type".

(** ** DrawCommand objects and the store that holds them *)

(** A reference to a [DrawCommand] object: its rank of creation. *)
Abbreviation ref := nat.

(** [class DrawCommand]: the three fields set by the constructor. *)
Record DrawCommand := mkDrawCommand {
  command : string;
  toEcho : bool;
  _myNext : option ref
}.

(** The objects created so far; a reference is an index in this list. *)
Abbreviation Heap := (list DrawCommand).

(** [new DrawCommand (theCmd, theToEcho)]: a fresh object whose [_myNext]
    is [null]. *)
Definition new_DrawCommand (theCmd : string) (theToEcho : bool) (h : Heap)
  : ref * Heap :=
  (length h, h ++ [mkDrawCommand theCmd theToEcho None]).

(** The assignment [theObj._myNext = theNext]. *)
Definition set_myNext (theNext : option ref) (c : DrawCommand) : DrawCommand :=
  mkDrawCommand (command c) (toEcho c) theNext.

(** What a queued command carries for its consumer: text and echo flag. *)
Definition item (c : DrawCommand) : string * bool := (command c, toEcho c).

(** ** class DrawCommandQueue *)

Module DrawCommandQueue.

Record t := mk {
  _myFirst : option ref;
  _myLast : option ref;
  _myLength : Z
}.

(** [constructor()] *)
Definition new : t := mk None None 0.

(** [isEmpty()]: [this._myLength === 0] *)
Definition isEmpty (q : t) : bool := (_myLength q =? 0)%Z.

(** [extent()] *)
Definition extent (q : t) : Z := _myLength q.

(** [add (theCmd)]: the queue object and the store it links into. *)
Definition add (theCmd : ref) (st : Heap * t) : Heap * t :=
  let '(h, q) := st in
  match _myLast q with
  | Some aLast =>
      (alter (set_myNext (Some theCmd)) aLast h,
       mk (_myFirst q) (Some theCmd) (_myLength q + 1))
  | None =>
      (h, mk (Some theCmd) (Some theCmd) 1)
  end.

(** [pop()]: the removed object, or [None] for [null]. A reference
    always designates a created object, so the lookup of [anItem]
    succeeds on every store the program builds. *)
Definition pop (st : Heap * t) : option ref * (Heap * t) :=
  let '(h, q) := st in
  match _myFirst q with
  | None => (None, (h, q))
  | Some anItem =>
      let aNext := h !! anItem ≫= _myNext in
      let aLength := (_myLength q - 1)%Z in
      let aLast := if (aLength =? 0)%Z then None else _myLast q in
      (Some anItem,
       (alter (set_myNext None) anItem h, mk aNext aLast aLength))
  end.

(** *** Reading a queue back from the store *)

(** The objects reached from [a] by following [_myNext], at most [fuel]
    of them. *)
Fixpoint nodes (fuel : nat) (h : Heap) (a : option ref) : list ref :=
  match fuel, a with
  | S fuel', Some x => x :: nodes fuel' h (h !! x ≫= _myNext)
  | _, _ => []
  end.

(** The live nodes: those reachable from the head. A chain without a
    cycle has no more nodes than the store has objects. *)
Definition live (st : Heap * t) : list ref :=
  nodes (length st.1) st.1 (_myFirst st.2).

(** The commands waiting in the queue, head first. *)
Definition pending (st : Heap * t) : list (string * bool) :=
  omap (λ a, item <$> st.1 !! a) (live st).

(** *** Sequences of operations *)

(** The two ways the terminal uses its queue: [add (new DrawCommand
    (theCmd, theToEcho))] and [pop()]. *)
Inductive Op :=
| Add (theCmd : string) (theToEcho : bool)
| Pop.

(** One operation; a successful [pop] appends what it returned to the
    commands obtained so far. *)
Definition step (acc : Heap * t * list (string * bool)) (op : Op)
  : Heap * t * list (string * bool) :=
  let '(st, out) := acc in
  match op with
  | Add theCmd theToEcho =>
      let '(aCmd, h) := new_DrawCommand theCmd theToEcho st.1 in
      (add aCmd (h, st.2), out)
  | Pop =>
      let '(aRes, st') := pop st in
      match aRes with
      | Some anItem =>
          (st', out ++ option_list (item <$> st'.1 !! anItem))
      | None => (st', out)
      end
  end.

Definition run (ops : list Op) : Heap * t * list (string * bool) :=
  foldl step (([], new), []) ops.

(** The commands a sequence of operations adds, in order. *)
Definition added (ops : list Op) : list (string * bool) :=
  omap (λ op, match op with
              | Add theCmd theToEcho => Some (theCmd, theToEcho)
              | Pop => None
              end) ops.

(** *** Representation invariant *)

(** [chain h a l]: following [_myNext] from [a] visits exactly the
    objects [l] and ends on [null]. *)
Fixpoint chain (h : Heap) (a : option ref) (l : list ref) : Prop :=
  match l with
  | [] => a = None
  | x :: l' => a = Some x ∧ ∃ c, h !! x = Some c ∧ chain h (_myNext c) l'
  end.

Record wf (h : Heap) (q : t) (l : list ref) : Prop := {
  wf_chain : chain h (_myFirst q) l;
  wf_nodup : NoDup l;
  wf_last : _myLast q = last l;
  wf_length : _myLength q = Z.of_nat (length l)
}.

(** A store and a queue the class can produce. *)
Definition valid (st : Heap * t) : Prop := ∃ l, wf st.1 st.2 l.

End DrawCommandQueue.


(** ** JavaScript strings *)

Module JsString.

Definition LF : ascii := "010"%char.
Definition CR : ascii := "013"%char.
Definition BS : ascii := "008"%char.
Definition ESC : ascii := "027"%char.
Definition DEL : ascii := "127"%char.
Definition BACKSLASH : ascii := "092"%char.

(** The one-character string [theChar]. *)
Definition char (theChar : ascii) : string := String theChar "".

(** [s.length] *)
Definition length (s : string) : Z := Z.of_nat (String.length s).

(** [s.substring (theStart, theEnd)]: both bounds are brought into
    [0 .. s.length], and exchanged when the first exceeds the second. *)
Definition substring (s : string) (theStart theEnd : Z) : string :=
  let aLen := length s in
  let a := Z.max 0 (Z.min theStart aLen) in
  let b := Z.max 0 (Z.min theEnd aLen) in
  String.substring (Z.to_nat (Z.min a b)) (Z.to_nat (Z.max a b - Z.min a b)) s.

(** [s.substring (theStart)] *)
Definition substringFrom (s : string) (theStart : Z) : string :=
  substring s theStart (length s).

(** [s.startsWith (thePrefix)] *)
Definition startsWith (s thePrefix : string) : bool := String.prefix thePrefix s.

(** [s.endsWith (theSuffix)] *)
Definition endsWith (s theSuffix : string) : bool :=
  let n := String.length s in
  let m := String.length theSuffix in
  (m <=? n)%nat && String.eqb (String.substring (n - m) m s) theSuffix.

(** White space and line terminators, as [trim] understands them, among
    the code units below 256. *)
Definition isWhiteSpace (c : ascii) : bool :=
  let n := nat_of_ascii c in
  ((9 <=? n)%nat && (n <=? 13)%nat) || (n =? 32)%nat || (n =? 160)%nat.

Fixpoint trimStart (s : string) : string :=
  match s with
  | String c s' => if isWhiteSpace c then trimStart s' else s
  | EmptyString => EmptyString
  end.

(** [s.trim()] *)
Definition trim (s : string) : string :=
  String.rev (trimStart (String.rev (trimStart s))).

(** [s.replace (/\n/g, '\n\r')] *)
Fixpoint replaceLF (s : string) : string :=
  match s with
  | String c s' =>
      if Ascii.eqb c LF then String LF (String CR (replaceLF s'))
      else String c (replaceLF s')
  | EmptyString => EmptyString
  end.

(** The text of [new Ctor (theMessage)] when it is concatenated to a
    string, for an error constructor named [theName]. *)
Definition errorToString (theName theMessage : string) : string :=
  if String.eqb theMessage "" then theName
  else theName +:+ ": " +:+ theMessage.

End JsString.

(** ** The collaborators of the terminal *)

(** How a promise is settled. The value a promise is fulfilled with is
    never read by this program. *)
Inductive Promise :=
| Resolved
| Rejected (theErr : string).

(** The methods of [DrawTerm] that the interpreter and the commands
    implemented in JavaScript call back while they run. *)
Inductive Callback :=
| CallPrint (theText : string)
| CallPrintErr (theText : string)
| CallPrintMessage (theText : string) (theGravity : Z)
| CallTerminalWriteLine (theText : string)
| CallTerminalWriteError (theText : string)
| CallTerminalPrintInputLine.

(** What a method that answers a promise gives back to its caller: a
    promise that is settled already, a promise that is still pending,
    or, when the method throws, no promise but the value thrown, as
    text. *)
Inductive Answer :=
| Settled (thePromise : Promise)
| Pending
| Threw (theErr : string).

(** What the terminal consumes without defining it: the interpreter
    compiled to WebAssembly ([eval], [isComplete]), the download and
    upload commands, whose bodies are made of file-system, network and
    page operations, and the JavaScript engine. Each call may print
    through the callbacks above and moves the state [Wasm] of these
    components.
    - [eval] answers [Some] of the value it threw, as text, or [None].
    - [_commandJsdownload] catches what it runs and answers a boolean.
    - [_commandJsupload] answers a promise: one that is rejected
      already when the arguments name no source, a pending one when an
      upload was started (a fetch or a file dialog ends at a later
      event).
    - [InternalError] says whether the engine defines the global
      constructor of that name, which [termEvaluateCommand] calls.
      The file defines none; it is no part of the language, and
      Firefox alone provides it. *)
Class Host := {
  Wasm : Type;
  isComplete : string → Wasm → bool;
  eval : string → Wasm → list Callback * option string * Wasm;
  _commandJsdownload : string → Wasm → list Callback * bool * Wasm;
  _commandJsupload : string → Wasm → list Callback * Answer * Wasm;
  InternalError : bool
}.

(** What was asked from the collaborators and from the page, in order. *)
Inductive HostCall :=
| AskedEval (theCmd : string)
| AskedJsdownload (theArgs : string)
| AskedJsupload (theArgs : string)
| AskedExecCommand (theCommand : string).

(** The functions that the methods of the terminal embedded below hand
    to [setTimeout]: both run a method of the terminal. The commands
    set timeouts of their own ([downloadDataFile] to clean the page,
    [uploadFile] to give up waiting for a file); those belong to the
    collaborators: what they do to the terminal comes with the
    callbacks of a call or with the settlement of an upload. *)
Inductive TimerHandler :=
| Run_termPopCommandFromQueue
| Run_termWasmLoadProgress.

Record Timeout := mkTimeout {
  handler : TimerHandler;
  delay : Z
}.

(** [KeyboardEvent], with the properties the handler reads. *)
Record KeyboardEvent := mkKeyboardEvent {
  keyCode : Z;
  type : string;
  key : string;
  ctrlKey : bool
}.

(** ** class DrawTerm: the revision whose evaluation answers a promise *)

Module DrawTerm.
Import JsString.

Section Methods.
Context `{Host}.

(** The properties of a [DrawTerm] that the editor and the dispatcher
    use. [_myTerm] holds the texts given to [Terminal.write], oldest
    first. Four more fields stand for what the program reaches through
    the object: the store of its [DrawCommand]s, the timeouts of the
    terminal not yet fired, its collaborators with the record of the
    calls made to them, and the number of evaluations whose promise is
    still pending, with the handlers of [_termPopCommandFromQueue]
    waiting on it. *)
Record t := mk {
  _myTerm : option (list string);
  _myTermHello : string;
  _myTermInCounter : Z;
  _myTermLine : string;
  _myTermHistory : list string;
  _myTermHistoryPos : Z;
  _myCmdTimeout : Z;
  _myCmdQueue : DrawCommandQueue.t;
  _myIsWasmLoaded : bool;
  objects : Heap;
  timeouts : list Timeout;
  wasm : Wasm;
  asked : list HostCall;
  awaited : nat
}.

(** The strings ["\n\r"] and ["\x1B[0m"], and ['\b \b']. *)
Definition LFCR : string := String LF (String CR "").
Definition SGR0 : string := String ESC "[0m".
Definition ERASE : string := String BS (String " " (String BS "")).

(** [constructor()], for the collaborators in the state [theWasm]. The
    answer of [isWasmSupported()] is a fact of the browser: without
    WebAssembly the constructor writes its regret and returns; with it,
    it announces the loading and schedules the progress marks. *)
Definition new (isWasmSupported : bool) (theWasm : Wasm) : t :=
  if isWasmSupported then
    mk (Some ["Loading/preparing 'DRAWEXE.wasm'..."]) "Draw" 0 "" [] (-1) 10
       DrawCommandQueue.new false []
       [mkTimeout Run_termWasmLoadProgress 1000] theWasm [] 0%nat
  else
    mk (Some [String ESC "[31;1mBrowser is too old - WebAssembly support is missing!"
              +:+ LFCR
              +:+ "Please check updates or install a modern browser."
              +:+ SGR0 +:+ LFCR])
       "Draw" 0 "" [] (-1) 10 DrawCommandQueue.new false [] [] theWasm [] 0%nat.

(** *** Assignments to one field *)

Definition set_myTerm (v : option (list string)) (s : t) : t :=
  mk v (_myTermHello s) (_myTermInCounter s) (_myTermLine s)
     (_myTermHistory s) (_myTermHistoryPos s) (_myCmdTimeout s)
     (_myCmdQueue s) (_myIsWasmLoaded s) (objects s) (timeouts s) (wasm s)
     (asked s) (awaited s).

Definition set_myTermInCounter (v : Z) (s : t) : t :=
  mk (_myTerm s) (_myTermHello s) v (_myTermLine s)
     (_myTermHistory s) (_myTermHistoryPos s) (_myCmdTimeout s)
     (_myCmdQueue s) (_myIsWasmLoaded s) (objects s) (timeouts s) (wasm s)
     (asked s) (awaited s).

Definition set_myTermLine (v : string) (s : t) : t :=
  mk (_myTerm s) (_myTermHello s) (_myTermInCounter s) v
     (_myTermHistory s) (_myTermHistoryPos s) (_myCmdTimeout s)
     (_myCmdQueue s) (_myIsWasmLoaded s) (objects s) (timeouts s) (wasm s)
     (asked s) (awaited s).

Definition set_myTermHistory (v : list string) (s : t) : t :=
  mk (_myTerm s) (_myTermHello s) (_myTermInCounter s) (_myTermLine s)
     v (_myTermHistoryPos s) (_myCmdTimeout s)
     (_myCmdQueue s) (_myIsWasmLoaded s) (objects s) (timeouts s) (wasm s)
     (asked s) (awaited s).

Definition set_myTermHistoryPos (v : Z) (s : t) : t :=
  mk (_myTerm s) (_myTermHello s) (_myTermInCounter s) (_myTermLine s)
     (_myTermHistory s) v (_myCmdTimeout s)
     (_myCmdQueue s) (_myIsWasmLoaded s) (objects s) (timeouts s) (wasm s)
     (asked s) (awaited s).

(** The queue object and the store change together. *)
Definition set_queue (st : Heap * DrawCommandQueue.t) (s : t) : t :=
  mk (_myTerm s) (_myTermHello s) (_myTermInCounter s) (_myTermLine s)
     (_myTermHistory s) (_myTermHistoryPos s) (_myCmdTimeout s)
     st.2 (_myIsWasmLoaded s) st.1 (timeouts s) (wasm s)
     (asked s) (awaited s).

Definition set_timeouts (v : list Timeout) (s : t) : t :=
  mk (_myTerm s) (_myTermHello s) (_myTermInCounter s) (_myTermLine s)
     (_myTermHistory s) (_myTermHistoryPos s) (_myCmdTimeout s)
     (_myCmdQueue s) (_myIsWasmLoaded s) (objects s) v (wasm s)
     (asked s) (awaited s).

(** A call to a collaborator: its new state, and the call recorded. *)
Definition set_wasm (v : Wasm) (theCall : HostCall) (s : t) : t :=
  mk (_myTerm s) (_myTermHello s) (_myTermInCounter s) (_myTermLine s)
     (_myTermHistory s) (_myTermHistoryPos s) (_myCmdTimeout s)
     (_myCmdQueue s) (_myIsWasmLoaded s) (objects s) (timeouts s) v
     (asked s ++ [theCall]) (awaited s).

(** The collaborators move on their own, while an upload is pending:
    no call is made to them. *)
Definition set_wasm_state (v : Wasm) (s : t) : t :=
  mk (_myTerm s) (_myTermHello s) (_myTermInCounter s) (_myTermLine s)
     (_myTermHistory s) (_myTermHistoryPos s) (_myCmdTimeout s)
     (_myCmdQueue s) (_myIsWasmLoaded s) (objects s) (timeouts s) v
     (asked s) (awaited s).

Definition set_awaited (v : nat) (s : t) : t :=
  mk (_myTerm s) (_myTermHello s) (_myTermInCounter s) (_myTermLine s)
     (_myTermHistory s) (_myTermHistoryPos s) (_myCmdTimeout s)
     (_myCmdQueue s) (_myIsWasmLoaded s) (objects s) (timeouts s) (wasm s)
     (asked s) v.

(** A call to the page alone. *)
Definition record_asked (theCall : HostCall) (s : t) : t :=
  set_wasm (wasm s) theCall s.

(** The queue of the terminal with its store. *)
Definition queue (s : t) : Heap * DrawCommandQueue.t :=
  (objects s, _myCmdQueue s).

(** [setTimeout (theHandler, theDelay)] *)
Definition setTimeout (theHandler : TimerHandler) (theDelay : Z) (s : t) : t :=
  set_timeouts (timeouts s ++ [mkTimeout theHandler theDelay]) s.

(** *** Main interface *)

(** [terminalWrite (theText)] *)
Definition terminalWrite (theText : string) (s : t) : t :=
  match _myTerm s with
  | Some aWritten => set_myTerm (Some (aWritten ++ [theText])) s
  | None => s
  end.

(** [terminalWriteMultiline (theText)] *)
Definition terminalWriteMultiline (theText : string) (s : t) : t :=
  match _myTerm s with
  | Some aWritten => set_myTerm (Some (aWritten ++ [replaceLF theText])) s
  | None => s
  end.

(** [terminalWriteLine (theText)] *)
Definition terminalWriteLine (theText : string) (s : t) : t :=
  terminalWrite (LFCR +:+ theText) s.

(** [terminalWriteTrace (theText)] *)
Definition terminalWriteTrace (theText : string) (s : t) : t :=
  terminalWriteMultiline (LFCR +:+ String ESC "[33m" +:+ theText +:+ SGR0) s.

(** [terminalWriteInfo (theText)] *)
Definition terminalWriteInfo (theText : string) (s : t) : t :=
  terminalWriteMultiline (LFCR +:+ String ESC "[32;1m" +:+ theText +:+ SGR0) s.

(** [terminalWriteWarning (theText)] *)
Definition terminalWriteWarning (theText : string) (s : t) : t :=
  terminalWriteMultiline (LFCR +:+ String ESC "[33;1m" +:+ theText +:+ SGR0) s.

(** [terminalWriteError (theText)] *)
Definition terminalWriteError (theText : string) (s : t) : t :=
  terminalWriteMultiline (LFCR +:+ String ESC "[31;1m" +:+ theText +:+ SGR0) s.

(** [terminalPrintInputLine (theLine)]: the counter is incremented while
    the text of the second write is built. *)
Definition terminalPrintInputLine (theLine : string) (s : t) : t :=
  let s := terminalWrite LFCR s in
  let aCounter := (_myTermInCounter s + 1)%Z in
  let s := set_myTermInCounter aCounter s in
  terminalWrite (String ESC "[32;1m" +:+ _myTermHello s +:+ "["
                 +:+ pretty aCounter +:+ "]>" +:+ SGR0 +:+ " ") s.

(** *** WebAssembly module interface *)

(** [printMessage (theText, theGravity)] *)
Definition printMessage (theText : string) (theGravity : Z) (s : t) : t :=
  if (theGravity =? 0)%Z then terminalWriteTrace theText s
  else if (theGravity =? 1)%Z then terminalWriteInfo theText s
  else if (theGravity =? 2)%Z then terminalWriteWarning theText s
  else if (theGravity =? 3)%Z || (theGravity =? 4)%Z
  then terminalWriteError theText s
  else terminalWriteMultiline theText (terminalWrite LFCR s).

(** [print (theText)]; the browser console is not part of the state. *)
Definition print (theText : string) (s : t) : t := printMessage theText (-1) s.

(** [printErr (theText)] *)
Definition printErr (theText : string) (s : t) : t := printMessage theText (-1) s.

(** The callbacks made during one call to a collaborator. *)
Definition callback (s : t) (c : Callback) : t :=
  match c with
  | CallPrint theText => print theText s
  | CallPrintErr theText => printErr theText s
  | CallPrintMessage theText theGravity => printMessage theText theGravity s
  | CallTerminalWriteLine theText => terminalWriteLine theText s
  | CallTerminalWriteError theText => terminalWriteError theText s
  | CallTerminalPrintInputLine => terminalPrintInputLine "" s
  end.

Definition callbacks (cs : list Callback) (s : t) : t := foldl callback s cs.

(** [this.eval (theCmd)] *)
Definition call_eval (theCmd : string) (s : t) : option string * t :=
  let '(cs, aThrown, w) := eval theCmd (wasm s) in
  (aThrown, callbacks cs (set_wasm w (AskedEval theCmd) s)).

(** [this._commandJsdownload (theArgs)] *)
Definition call_commandJsdownload (theArgs : string) (s : t) : bool * t :=
  let '(cs, aRes, w) := _commandJsdownload theArgs (wasm s) in
  (aRes, callbacks cs (set_wasm w (AskedJsdownload theArgs) s)).

(** [this._commandJsupload (theArgs)] *)
Definition call_commandJsupload (theArgs : string) (s : t) : Answer * t :=
  let '(cs, aRes, w) := _commandJsupload theArgs (wasm s) in
  (aRes, callbacks cs (set_wasm w (AskedJsupload theArgs) s)).

(** The end of the [try] block of [termEvaluateCommand]: [aRes] decides
    between [Promise.resolve (true)] and the rejection. *)
Definition evaluated (aRes : bool) : Promise :=
  if aRes then Resolved
  else Rejected (errorToString "Error" "Command evaluation failed").

(** The [catch] block of [termEvaluateCommand]:
    [return Promise.reject (new InternalError (theErr))]. Where the
    engine defines no [InternalError], evaluating this name throws a
    [ReferenceError] out of the block, and so out of the method. *)
Definition caught (theErr : string) : Answer :=
  if InternalError
  then Settled (Rejected (errorToString "InternalError" theErr))
  else Threw "ReferenceError: InternalError is not defined".

(** What the [try] block does with the answer of [_commandJsupload]:
    a promise is returned as it is; an exception reaches the [catch]
    block. *)
Definition uploaded (anAnswer : Answer) : Answer :=
  match anAnswer with
  | Threw theErr => caught theErr
  | _ => anAnswer
  end.

(** [termEvaluateCommand (theCmd)] *)
Definition termEvaluateCommand (theCmd : string) (s : t) : Answer * t :=
  if String.eqb theCmd "" then (Settled Resolved, s)
  else
    let s := set_myTermHistoryPos (-1) s in
    let s := set_myTermHistory (_myTermHistory s ++ [theCmd]) s in
    if startsWith theCmd "jsdownload " then
      let '(aRes, s) := call_commandJsdownload (trim (substringFrom theCmd 11)) s in
      (Settled (evaluated aRes), s)
    else if startsWith theCmd "jsdown " then
      let '(aRes, s) := call_commandJsdownload (trim (substringFrom theCmd 7)) s in
      (Settled (evaluated aRes), s)
    else if startsWith theCmd "download " then
      let '(aRes, s) := call_commandJsdownload (trim (substringFrom theCmd 9)) s in
      (Settled (evaluated aRes), s)
    else if startsWith theCmd "jsupload " then
      let '(anAnswer, s) := call_commandJsupload (trim (substringFrom theCmd 9)) s in
      (uploaded anAnswer, s)
    else if startsWith theCmd "upload " then
      let '(anAnswer, s) := call_commandJsupload (trim (substringFrom theCmd 7)) s in
      (uploaded anAnswer, s)
    else
      let '(aThrown, s) := call_eval theCmd s in
      match aThrown with
      | Some theErr => (caught theErr, s)
      | None => (Settled (evaluated true), s)
      end.

(** *** Internal methods *)

(** [_termWasmLoadProgress()] *)
Definition _termWasmLoadProgress (s : t) : t :=
  if _myIsWasmLoaded s then s
  else setTimeout Run_termWasmLoadProgress 1000 (terminalWrite "." s).

(** The line without its last character:
    [this._myTermLine.substring (0, this._myTermLine.length - 1)]. *)
Definition chopped (theLine : string) : string :=
  substring theLine 0 (length theLine - 1).

(** The loop [for (; this._myTermLine.length > 0; )] of the key handler.
    Each turn shortens the line by one character, so [fuel] turns are
    all the turns when [fuel] is the length of the line. *)
Fixpoint clearInput (fuel : nat) (s : t) : t :=
  match fuel with
  | O => s
  | S fuel' =>
      if (length (_myTermLine s) >? 0)%Z then
        let s := terminalWrite ERASE s in
        clearInput fuel' (set_myTermLine (chopped (_myTermLine s)) s)
      else s
  end.

(** [_onTermKeyEvent (theEvent)]. The history is read at a position
    that the two branches above it keep within its bounds; the empty
    string stands for [undefined]. *)
Definition _onTermKeyEvent (theEvent : KeyboardEvent) (s : t) : bool * t :=
  let aCode := keyCode theEvent in
  if (aCode =? 38)%Z || (aCode =? 40)%Z then
    let aDir := (if (aCode =? 38)%Z then -1 else 1)%Z in
    if negb (String.eqb (type theEvent) "keydown") then (false, s)
    else
      let s := clearInput (String.length (_myTermLine s)) s in
      let aNbHist := Z.of_nat (List.length (_myTermHistory s)) in
      if (aNbHist <=? 0)%Z then (false, s)
      else
        let aPos :=
          if negb (_myTermHistoryPos s =? -1)%Z
          then Z.max (Z.min (_myTermHistoryPos s + aDir) (aNbHist - 1)) 0
          else (aNbHist - 1)%Z in
        let s := set_myTermHistoryPos aPos s in
        let aHist := default "" (_myTermHistory s !! Z.to_nat aPos) in
        let s := set_myTermLine aHist s in
        (false, terminalWrite aHist s)
  else if (aCode =? 37)%Z || (aCode =? 39)%Z || (aCode =? 46)%Z then (false, s)
  else if (aCode =? 33)%Z || (aCode =? 34)%Z || (aCode =? 35)%Z || (aCode =? 36)%Z
  then (false, s)
  else if String.eqb (key theEvent) "c" && ctrlKey theEvent
  then (false, record_asked (AskedExecCommand "copy") s)
  else if String.eqb (key theEvent) "v" && ctrlKey theEvent then (false, s)
  else (true, s).

(** [_termQueueCommand (theCmd, theToEcho)] *)
Definition _termQueueCommand (theCmd : string) (theToEcho : bool) (s : t) : t :=
  let '(aCmd, h) := new_DrawCommand theCmd theToEcho (objects s) in
  let s := set_queue (DrawCommandQueue.add aCmd (h, _myCmdQueue s)) s in
  if (DrawCommandQueue.extent (_myCmdQueue s) =? 1)%Z
  then setTimeout Run_termPopCommandFromQueue (_myCmdTimeout s) s
  else s.

(** The body of the loop of [_onTermDataInput], for the character
    [aChar]; [aNbNewLines] is the local counter of the method. *)
Definition _onTermDataInput_char (acc : Z * t) (aChar : ascii) : Z * t :=
  let '(aNbNewLines, s) := acc in
  if Ascii.eqb aChar DEL then
    if (length (_myTermLine s) >? 0)%Z then
      let s := if (aNbNewLines =? 0)%Z then terminalWrite ERASE s else s in
      (aNbNewLines, set_myTermLine (chopped (_myTermLine s)) s)
    else (aNbNewLines, s)
  else if Ascii.eqb aChar CR then
    let aCmd := _myTermLine s in
    if endsWith aCmd (char BACKSLASH) then
      let s := set_myTermLine (chopped (_myTermLine s)) s in
      (aNbNewLines,
       if (aNbNewLines =? 0)%Z then terminalWrite (LFCR +:+ "> ") s else s)
    else if negb (isComplete aCmd (wasm s)) then
      let s := set_myTermLine (_myTermLine s +:+ LFCR) s in
      (aNbNewLines,
       if (aNbNewLines =? 0)%Z then terminalWrite (LFCR +:+ "> ") s else s)
    else
      let s := set_myTermLine "" s in
      let s := _termQueueCommand aCmd (negb (aNbNewLines =? 0)%Z) s in
      ((aNbNewLines + 1)%Z, s)
  else
    let s := if (aNbNewLines =? 0)%Z then terminalWrite (char aChar) s else s in
    (aNbNewLines, set_myTermLine (_myTermLine s +:+ char aChar) s).

(** [_onTermDataInput (theEvent)]: the characters of [theEvent] in
    order, [aNbNewLines] starting from 0. *)
Definition _onTermDataInput (theEvent : string) (s : t) : t :=
  (foldl _onTermDataInput_char (0%Z, s) (list_ascii_of_string theEvent)).2.

(** The end shared by both handlers of the promise in
    [_termPopCommandFromQueue]. *)
Definition scheduleNext (s : t) : t :=
  if negb (DrawCommandQueue.isEmpty (_myCmdQueue s))
  then setTimeout Run_termPopCommandFromQueue (_myCmdTimeout s) s
  else s.

(** The function given to [then]. *)
Definition _termPopCommandFromQueue_then (s : t) : t :=
  scheduleNext (terminalPrintInputLine "" s).

(** The function given to [catch]. *)
Definition _termPopCommandFromQueue_catch (theErr : string) (s : t) : t :=
  scheduleNext (terminalPrintInputLine "" (terminalWriteError theErr s)).

(** The handler that the settlement [thePromise] runs. *)
Definition settle (thePromise : Promise) (s : t) : t :=
  match thePromise with
  | Resolved => _termPopCommandFromQueue_then s
  | Rejected theErr => _termPopCommandFromQueue_catch theErr s
  end.

(** What [_termPopCommandFromQueue] does with the command it popped.
    On a promise that is settled already the handler that applies runs
    once the method has returned, before any other event: the model
    runs it at once. On a pending promise the handlers wait. When
    [termEvaluateCommand] throws, no handler was attached: the
    exception leaves the method where it stands. *)
Definition dispatch (aCmd : DrawCommand) (s : t) : t :=
  let s := if toEcho aCmd then terminalWrite (command aCmd) s else s in
  let '(anAnswer, s) := termEvaluateCommand (command aCmd) s in
  match anAnswer with
  | Settled thePromise => settle thePromise s
  | Pending => set_awaited (S (awaited s)) s
  | Threw _ => s
  end.

(** [_termPopCommandFromQueue()]. The object that [pop] returned is in
    the store. *)
Definition _termPopCommandFromQueue (s : t) : t :=
  let '(aRes, st) := DrawCommandQueue.pop (queue s) in
  let s := set_queue st s in
  match aRes with
  | None => s
  | Some anItem =>
      match objects s !! anItem with
      | Some aCmd => dispatch aCmd s
      | None => s
      end
  end.

(** The timeout of rank [i] expires: it leaves the pending ones and its
    function runs. *)
Definition fire (i : nat) (s : t) : t :=
  match timeouts s !! i with
  | None => s
  | Some aTimeout =>
      let s := set_timeouts (delete i (timeouts s)) s in
      match handler aTimeout with
      | Run_termPopCommandFromQueue => _termPopCommandFromQueue s
      | Run_termWasmLoadProgress => _termWasmLoadProgress s
      end
  end.

(** A pending upload goes on, at an event of its own: it prints
    ([cs]) and writes to the file system ([w]); when it settles the
    promise that an evaluation answered ([thePromise]), the handler
    that waited on it runs. Nothing is awaited on a terminal that
    started no upload. *)
Definition uploading (cs : list Callback) (w : Wasm)
    (thePromise : option Promise) (s : t) : t :=
  match awaited s with
  | O => s
  | S aRest =>
      let s := callbacks cs (set_wasm_state w s) in
      match thePromise with
      | Some aPromise => settle aPromise (set_awaited aRest s)
      | None => s
      end
  end.

(** A terminal whose queue and store the program can have built. *)
Definition valid (s : t) : Prop := DrawCommandQueue.valid (queue s).

(** [quiet s s']: from [s] to [s'] nothing changed but what printing and
    the collaborators own (the texts written, the counter of prompts,
    the state of the collaborators and the record of the calls). *)
Definition quiet (s s' : t) : Prop :=
  _myTermLine s' = _myTermLine s
  ∧ _myTermHistory s' = _myTermHistory s
  ∧ _myTermHistoryPos s' = _myTermHistoryPos s
  ∧ _myTermHello s' = _myTermHello s
  ∧ _myCmdTimeout s' = _myCmdTimeout s
  ∧ queue s' = queue s
  ∧ timeouts s' = timeouts s.

End Methods.

Arguments t {_}.

End DrawTerm.

(** ** class DrawTerm: the revision of src/js/drawxterm.js

    This copy of the class evaluates synchronously: a failure is an
    exception, not a rejected promise; it knows no continuation marker
    and no clipboard shortcut, and it styles its messages with
    [terminalWrite]. The fields, the queue, [terminalWrite],
    [terminalPrintInputLine], [_termQueueCommand] and the loop clearing
    the input are the same text in both copies and are shared here; the
    methods below are those that differ. A method that may throw answers
    [Some] of what it threw, as text. *)

Module DrawTermSync.
Import JsString.
Import DrawTerm.

Section Methods.
Context `{Host}.

(** [terminalWriteTrace (theText)] *)
Definition terminalWriteTrace (theText : string) (s : t) : t :=
  terminalWrite (LFCR +:+ String ESC "[33m" +:+ theText +:+ SGR0) s.

(** [terminalWriteInfo (theText)] *)
Definition terminalWriteInfo (theText : string) (s : t) : t :=
  terminalWrite (LFCR +:+ String ESC "[32;1m" +:+ theText +:+ SGR0) s.

(** [terminalWriteWarning (theText)] *)
Definition terminalWriteWarning (theText : string) (s : t) : t :=
  terminalWrite (LFCR +:+ String ESC "[33;1m" +:+ theText +:+ SGR0) s.

(** [terminalWriteError (theText)] *)
Definition terminalWriteError (theText : string) (s : t) : t :=
  terminalWrite (LFCR +:+ String ESC "[31;1m" +:+ theText +:+ SGR0) s.

(** [printMessage (theText, theGravity)] *)
Definition printMessage (theText : string) (theGravity : Z) (s : t) : t :=
  if (theGravity =? 0)%Z then terminalWriteTrace theText s
  else if (theGravity =? 1)%Z then terminalWriteInfo theText s
  else if (theGravity =? 2)%Z then terminalWriteWarning theText s
  else if (theGravity =? 3)%Z || (theGravity =? 4)%Z
  then terminalWriteError theText s
  else terminalWrite theText (terminalWrite LFCR s).

(** [print (theText)] *)
Definition print (theText : string) (s : t) : t := printMessage theText (-1) s.

(** [printErr (theText)] *)
Definition printErr (theText : string) (s : t) : t := printMessage theText (-1) s.

Definition callback (s : t) (c : Callback) : t :=
  match c with
  | CallPrint theText => print theText s
  | CallPrintErr theText => printErr theText s
  | CallPrintMessage theText theGravity => printMessage theText theGravity s
  | CallTerminalWriteLine theText => terminalWriteLine theText s
  | CallTerminalWriteError theText => terminalWriteError theText s
  | CallTerminalPrintInputLine => terminalPrintInputLine "" s
  end.

Definition callbacks (cs : list Callback) (s : t) : t := foldl callback s cs.

(** [this.eval (theCmd)] *)
Definition call_eval (theCmd : string) (s : t) : option string * t :=
  let '(cs, aThrown, w) := eval theCmd (wasm s) in
  (aThrown, callbacks cs (set_wasm w (AskedEval theCmd) s)).

(** [this._commandJsdownload (theArgs)], which answers nothing here. *)
Definition call_commandJsdownload (theArgs : string) (s : t) : t :=
  let '(cs, _, w) := _commandJsdownload theArgs (wasm s) in
  callbacks cs (set_wasm w (AskedJsdownload theArgs) s).

(** [this._commandJsupload (theArgs)], which answers nothing here. *)
Definition call_commandJsupload (theArgs : string) (s : t) : t :=
  let '(cs, _, w) := _commandJsupload theArgs (wasm s) in
  callbacks cs (set_wasm w (AskedJsupload theArgs) s).

(** [termEvaluateCommand (theCmd)] *)
Definition termEvaluateCommand (theCmd : string) (s : t) : option string * t :=
  if String.eqb theCmd "" then (None, s)
  else
    let s := set_myTermHistoryPos (-1) s in
    let s := set_myTermHistory (_myTermHistory s ++ [theCmd]) s in
    if startsWith theCmd "jsdownload " then
      (None, call_commandJsdownload (trim (substringFrom theCmd 11)) s)
    else if startsWith theCmd "jsdown " then
      (None, call_commandJsdownload (trim (substringFrom theCmd 7)) s)
    else if startsWith theCmd "download " then
      (None, call_commandJsdownload (trim (substringFrom theCmd 9)) s)
    else if startsWith theCmd "jsupload " then
      (None, call_commandJsupload (trim (substringFrom theCmd 9)) s)
    else if startsWith theCmd "upload " then
      (None, call_commandJsupload (trim (substringFrom theCmd 7)) s)
    else
      let '(aThrown, s) := call_eval theCmd s in
      match aThrown with
      | Some theErr =>
          let s := terminalWriteError ("Internal error: " +:+ theErr) s in
          (Some theErr, terminalPrintInputLine "" s)
      | None => (None, s)
      end.

(** [_onTermKeyEvent (theEvent)] *)
Definition _onTermKeyEvent (theEvent : KeyboardEvent) (s : t) : bool * t :=
  let aCode := keyCode theEvent in
  if (aCode =? 38)%Z || (aCode =? 40)%Z then
    let aDir := (if (aCode =? 38)%Z then -1 else 1)%Z in
    if negb (String.eqb (type theEvent) "keydown") then (false, s)
    else
      let s := clearInput (String.length (_myTermLine s)) s in
      let aNbHist := Z.of_nat (List.length (_myTermHistory s)) in
      if (aNbHist <=? 0)%Z then (false, s)
      else
        let aPos :=
          if negb (_myTermHistoryPos s =? -1)%Z
          then Z.max (Z.min (_myTermHistoryPos s + aDir) (aNbHist - 1)) 0
          else (aNbHist - 1)%Z in
        let s := set_myTermHistoryPos aPos s in
        let aHist := default "" (_myTermHistory s !! Z.to_nat aPos) in
        let s := set_myTermLine aHist s in
        (false, terminalWrite aHist s)
  else if (aCode =? 37)%Z || (aCode =? 39)%Z || (aCode =? 46)%Z then (false, s)
  else if (aCode =? 33)%Z || (aCode =? 34)%Z || (aCode =? 35)%Z || (aCode =? 36)%Z
  then (false, s)
  else (true, s).

(** The body of the loop of [_onTermDataInput]. *)
Definition _onTermDataInput_char (acc : Z * t) (aChar : ascii) : Z * t :=
  let '(aNbNewLines, s) := acc in
  if Ascii.eqb aChar DEL then
    if (length (_myTermLine s) >? 0)%Z then
      let s := if (aNbNewLines =? 0)%Z then terminalWrite ERASE s else s in
      (aNbNewLines, set_myTermLine (chopped (_myTermLine s)) s)
    else (aNbNewLines, s)
  else if Ascii.eqb aChar CR then
    let aCmd := _myTermLine s in
    if isComplete aCmd (wasm s) then
      let s := set_myTermLine "" s in
      let s := _termQueueCommand aCmd (negb (aNbNewLines =? 0)%Z) s in
      ((aNbNewLines + 1)%Z, s)
    else
      let s := set_myTermLine (_myTermLine s +:+ LFCR) s in
      (aNbNewLines,
       if (aNbNewLines =? 0)%Z then terminalWrite (LFCR +:+ "> ") s else s)
  else
    let s := if (aNbNewLines =? 0)%Z then terminalWrite (char aChar) s else s in
    (aNbNewLines, set_myTermLine (_myTermLine s +:+ char aChar) s).

(** [_onTermDataInput (theEvent)] *)
Definition _onTermDataInput (theEvent : string) (s : t) : t :=
  (foldl _onTermDataInput_char (0%Z, s) (list_ascii_of_string theEvent)).2.

(** What [_termPopCommandFromQueue] does with the command it popped:
    the [try] block, its [catch] that schedules and throws again, and
    the scheduling after them. *)
Definition dispatch (aCmd : DrawCommand) (s : t) : option string * t :=
  let s := if toEcho aCmd then terminalWrite (command aCmd) s else s in
  let '(aThrown, s) := termEvaluateCommand (command aCmd) s in
  match aThrown with
  | Some theErr => (Some theErr, scheduleNext s)
  | None => (None, scheduleNext (terminalPrintInputLine "" s))
  end.

(** [_termPopCommandFromQueue()] *)
Definition _termPopCommandFromQueue (s : t) : option string * t :=
  let '(aRes, st) := DrawCommandQueue.pop (queue s) in
  let s := set_queue st s in
  match aRes with
  | None => (None, s)
  | Some anItem =>
      match objects s !! anItem with
      | Some aCmd => dispatch aCmd s
      | None => (None, s)
      end
  end.

End Methods.

End DrawTermSync.

(** ** A scripted host

    Collaborators simple enough to run the terminal on concrete inputs:
    the interpreter counts the commands it evaluated, prints the command
    back, and throws on the command [bad]; a text is complete when it
    has as many opening as closing braces; the download and upload
    commands fail without an argument, and an upload that was started
    is pending; the engine does not define [InternalError]. *)

Module Scripted.

Fixpoint count (c : ascii) (s : string) : Z :=
  match s with
  | String c' s' => ((if Ascii.eqb c c' then 1 else 0) + count c s')%Z
  | EmptyString => 0%Z
  end.

Definition host : Host := {|
  Wasm := nat;
  isComplete := λ theCmd _, (count "{" theCmd =? count "}" theCmd)%Z;
  eval := λ theCmd w,
    if String.eqb theCmd "bad"
    then ([CallPrintErr "invalid command name"], Some "boom", S w)
    else ([CallPrint theCmd], None, S w);
  _commandJsdownload := λ theArgs w,
    if String.eqb theArgs ""
    then ([CallTerminalWriteError "Syntax error: wrong number of arguments"],
          false, w)
    else ([CallTerminalWriteLine "downloading file..."], true, w);
  _commandJsupload := λ theArgs w,
    if String.eqb theArgs ""
    then ([], Settled (Rejected "SyntaxError: wrong number of arguments"), w)
    else ([], Pending, w);
  InternalError := false
|}.

(** The same collaborators on an engine that defines [InternalError]. *)
Definition firefox : Host := {|
  Wasm := nat;
  isComplete := @isComplete host;
  eval := @eval host;
  _commandJsdownload := @_commandJsdownload host;
  _commandJsupload := @_commandJsupload host;
  InternalError := true
|}.

(** A terminal just constructed on this host. *)
Definition fresh : @DrawTerm.t host := @DrawTerm.new host true 0%nat.

(** The terminal after the two lines [bad] and [pwd] were received in
    one input. *)
Definition received : @DrawTerm.t host :=
  DrawTerm._onTermDataInput
    ("bad" +:+ JsString.char JsString.CR +:+ "pwd"
     +:+ JsString.char JsString.CR) fresh.

(** The same terminal when the drain timeout, the second of its two
    timeouts, expires: [fire 1 received] is the drain step from there. *)
Definition two_queued : @DrawTerm.t host :=
  DrawTerm.set_timeouts (delete 1%nat (DrawTerm.timeouts received)) received.

(** The terminal after the two lines [download ] and [pwd], when the
    drain timeout expires: the download command fails for its missing
    argument. *)
Definition two_queued_download : @DrawTerm.t host :=
  let s := DrawTerm._onTermDataInput
             ("download " +:+ JsString.char JsString.CR +:+ "pwd"
              +:+ JsString.char JsString.CR) fresh in
  DrawTerm.set_timeouts (delete 1%nat (DrawTerm.timeouts s)) s.

(** A terminal just constructed on the engine that defines
    [InternalError]. *)
Definition fresh_firefox : @DrawTerm.t firefox := @DrawTerm.new firefox true 0%nat.

(** The key events of the up and down arrows. *)
Definition ArrowUp : KeyboardEvent := mkKeyboardEvent 38 "keydown" "ArrowUp" false.
Definition ArrowDown : KeyboardEvent := mkKeyboardEvent 40 "keydown" "ArrowDown" false.

End Scripted.

(** ** More JavaScript strings *)

Module JsText.
Import JsString.

(** [s.split (theSep)] for a separator of one character: the texts
    between the separators, in order; one more text than [s] has
    separators. *)
Fixpoint split (theSep : ascii) (s : string) : list string :=
  match s with
  | EmptyString => [""]
  | String c s' =>
      if Ascii.eqb c theSep then "" :: split theSep s'
      else match split theSep s' with
           | aFirst :: aRest => String c aFirst :: aRest
           | [] => [String c ""]
           end
  end.

(** [anArray[anArray.length - 1]], the empty string standing for
    [undefined]. *)
Definition lastItem (anArray : list string) : string := default "" (last anArray).

(** The lower case of one code unit below 256. *)
Definition lowerChar (c : ascii) : ascii :=
  let n := nat_of_ascii c in
  if ((65 <=? n)%nat && (n <=? 90)%nat)
     || ((192 <=? n)%nat && (n <=? 222)%nat && negb (n =? 215)%nat)
  then ascii_of_nat (n + 32)
  else c.

(** [s.toLowerCase()] *)
Fixpoint toLowerCase (s : string) : string :=
  match s with
  | EmptyString => EmptyString
  | String c s' => String (lowerChar c) (toLowerCase s')
  end.

(** How many times the character [c] stands in [s]. *)
Fixpoint occurrences (c : ascii) (s : string) : nat :=
  match s with
  | EmptyString => 0
  | String c' s' => (if Ascii.eqb c' c then 1 else 0) + occurrences c s'
  end.

(** Whether every LF of [s] is followed by a CR. *)
Fixpoint lfHasCr (s : string) : bool :=
  match s with
  | EmptyString => true
  | String c s' =>
      (if Ascii.eqb c LF
       then match s' with
            | String c' _ => Ascii.eqb c' CR
            | EmptyString => false
            end
       else true) && lfHasCr s'
  end.

End JsText.

(** ** The commands implemented in JavaScript

    [_commandJsdownload], [uploadUrl] and [_commandJsupload] of the
    revision whose evaluation answers a promise. What they reach
    outside the class is a parameter: the emulated file system
    ([FS.readFile], [FS.writeFile], [FS.createPreloadedFile],
    [FS.cwd]), [fetch], and [uploadFile], which lives on the page. The
    calls to the printing methods of the class are answered as
    [Callback]s, in their order; the effects on the page and on the
    file system are answered as records, in their order. *)

Module Commands.
Import JsString JsText.

(** [downloadDataFile (theData, theFileName, theType)], as asked. *)
Record Download := mkDownload {
  downloadData : list Byte.byte;
  downloadName : string;
  downloadType : string
}.

(** What [uploadUrl] asks from the file system. *)
Inductive FsCall :=
| WriteFile (thePath : string) (theData : list Byte.byte)
| CreatePreloadedFile (theParent thePath : string) (theData : list Byte.byte).

(** [Response], with the properties read; [arrayBuffer] is the
    settlement of [theResponse.arrayBuffer()]: the bytes of the body,
    or the reason of the rejection. *)
Record Response := mkResponse {
  ok : bool;
  status : Z;
  statusText : string;
  arrayBuffer : list Byte.byte + string
}.

(** The two ways [_commandJsupload] starts an upload. *)
Inductive Upload :=
| UploadFile (theFilePath : string) (theToPreload : bool)
| UploadUrl (theFileUrl theFilePath : string) (theToPreload : bool).

Section Jsdownload.

(** [this.FS.readFile (thePath)]: the data, or what it threw, as text. *)
Variable FS_readFile : string → list Byte.byte + string.

(** [_commandJsdownload (theArgs)] *)
Definition _commandJsdownload (theArgs : string)
  : list Callback * bool * list Download :=
  let anArgs := split " " theArgs in
  let aNbArgs := Z.of_nat (List.length anArgs) in
  if String.eqb theArgs ""
     || (negb (aNbArgs =? 1)%Z && negb (aNbArgs =? 2)%Z)
  then ([CallTerminalWriteError "Syntax error: wrong number of arguments"],
        false, [])
  else
    let aFilePath := default "" (anArgs !! 0%nat) in
    let aFileName :=
      if (aNbArgs >=? 2)%Z then default "" (anArgs !! 1%nat)
      else
        let aPathSplit := split "/" aFilePath in
        if (Z.of_nat (List.length aPathSplit) >? 1)%Z then lastItem aPathSplit
        else aFilePath in
    let aNameLower := toLowerCase aFilePath in
    let aType :=
      if endsWith aNameLower ".png" then "image/png"
      else if endsWith aNameLower ".jpg" || endsWith aNameLower ".jpeg"
           then "image/jpeg"
           else "application/octet-stream" in
    match FS_readFile aFilePath with
    | inl aData =>
        ([CallTerminalWriteLine
            ("downloading file '" +:+ aFileName +:+ "' of size "
             +:+ pretty (Z.of_nat (List.length aData)) +:+ " bytes...")],
         true, [mkDownload aData aFileName aType])
    | inr theError =>
        ([CallTerminalWriteError
            ("Error: file '" +:+ aFilePath +:+ "' cannot be read with "
             +:+ theError)],
         false, [])
    end.

End Jsdownload.

Section Jsupload.

(** [fetch (theUrl)]: the response, or the reason of the failure. *)
Variable fetch : string → Response + string.

(** [this.FS.writeFile (thePath, theData)]: [Some] is what it threw. *)
Variable FS_writeFile : string → list Byte.byte → option string.

(** Whether [this.FS.createPreloadedFile] ends on its success
    function. *)
Variable FS_preloaded : string → list Byte.byte → bool.

(** [this.FS.cwd()] *)
Variable FS_cwd : string.

(** [uploadUrl (theFileUrl, theFilePath, theToPreload)]: what it prints,
    what it asks from the file system, and the promise with its
    settlement. *)
Definition uploadUrl (theFileUrl theFilePath : string) (theToPreload : bool)
  : list Callback * list FsCall * Promise :=
  let aPathSplit := split "/" theFileUrl in
  let aFileName :=
    if (Z.of_nat (List.length aPathSplit) >? 1)%Z then lastItem aPathSplit
    else theFileUrl in
  let aFilePath := if String.eqb theFilePath "" then aFileName else theFilePath in
  match fetch theFileUrl with
  | inr theErr => ([], [], Rejected theErr)
  | inl theResponse =>
      if negb (ok theResponse) then
        ([], [],
         Rejected (errorToString "Error"
                     ("HTTP " +:+ pretty (status theResponse) +:+ " - "
                      +:+ statusText theResponse +:+ " (URL: '"
                      +:+ theFileUrl +:+ "')")))
      else
        match arrayBuffer theResponse with
        | inr theErr => ([], [], Rejected theErr)
        | inl aDataArray =>
            let aLine :=
              CallTerminalWriteLine
                ("uploading file '" +:+ aFileName +:+ "' of size "
                 +:+ pretty (Z.of_nat (List.length aDataArray))
                 +:+ " bytes to '" +:+ aFilePath +:+ "'...") in
            match FS_writeFile aFilePath aDataArray with
            | Some theErr =>
                ([aLine], [WriteFile aFilePath aDataArray], Rejected theErr)
            | None =>
                if theToPreload then
                  let aParent :=
                    if negb (startsWith aFilePath "/") then FS_cwd else "/" in
                  let aCalls := [WriteFile aFilePath aDataArray;
                                 CreatePreloadedFile aParent aFilePath aDataArray] in
                  if FS_preloaded aFilePath aDataArray
                  then ([aLine; CallTerminalPrintInputLine], aCalls, Resolved)
                  else ([aLine], aCalls,
                        Rejected (errorToString "Error"
                                    ("Preload '" +:+ aFilePath +:+ "' failed")))
                else
                  ([aLine; CallTerminalPrintInputLine],
                   [WriteFile aFilePath aDataArray], Resolved)
            end
        end
  end.

(** The first loop of [_commandJsupload]: the sources and their
    destinations. [anArgIter + 2 < anArgs.length] says that two
    arguments follow the current one. *)
Fixpoint sources (anArgs : list string) : list string * list string :=
  match anArgs with
  | [] => ([], [])
  | aParam :: aRest =>
      if String.eqb aParam "" then sources aRest
      else
        match aRest with
        | aFlag :: aFilePath :: aRest' =>
            if String.eqb aFlag "-path"
            then let '(aSrcList, aDstList) := sources aRest' in
                 (aParam :: aSrcList, aFilePath :: aDstList)
            else let '(aSrcList, aDstList) := sources aRest in
                 (aParam :: aSrcList, "" :: aDstList)
        | _ =>
            let '(aSrcList, aDstList) := sources aRest in
            (aParam :: aSrcList, "" :: aDstList)
        end
  end.

(** The second loop: one upload per source, through the file dialog
    for the source [.], from the URL otherwise. A destination that
    [aDstList] lacks would be [undefined]; the two lists have the same
    length. *)
Definition uploads (aSrcList aDstList : list string) : list Upload :=
  imap (λ aFileIter aFileUrl,
          let aFilePath := default "" (aDstList !! aFileIter) in
          if String.eqb aFileUrl "." then UploadFile aFilePath true
          else UploadUrl aFileUrl aFilePath true) aSrcList.

(** The reasons of the rejected promises, joined as [aFailList] is. *)
Fixpoint failList (thePromises : list Promise) (aFailList : string) : string :=
  match thePromises with
  | [] => aFailList
  | Resolved :: aRest => failList aRest aFailList
  | Rejected theReason :: aRest =>
      let aFailList :=
        if negb (JsString.length aFailList =? 0)%Z
        then aFailList +:+ String CR (String LF "")
        else aFailList in
      failList aRest (aFailList +:+ theReason)
  end.

(** How many promises are rejected: [nbFails]. *)
Definition nbFails (thePromises : list Promise) : Z :=
  Z.of_nat (List.length
              (List.filter (λ p, match p with Rejected _ => true | _ => false end)
                           thePromises)).

(** The first rejected promise in the order of the list. *)
Fixpoint firstRejected (thePromises : list Promise) : Promise :=
  match thePromises with
  | [] => Resolved
  | Resolved :: aRest => firstRejected aRest
  | Rejected theReason :: _ => Rejected theReason
  end.

(** [Promise.all]: fulfilled when every promise is, and rejected
    otherwise with the reason of the promise that was rejected first
    in time, the one of rank [theEarliest]. A rank that designates no
    rejected promise stands for promises rejected together, whose
    handlers run in the order of the list. *)
Definition promiseAll (theEarliest : nat) (thePromises : list Promise) : Promise :=
  match firstRejected thePromises, thePromises !! theEarliest with
  | Resolved, _ => Resolved
  | _, Some (Rejected theReason) => Rejected theReason
  | aFirst, _ => aFirst
  end.

(** The end of [_commandJsupload], once its promises are settled;
    [hasAllSettled] says that [Promise.allSettled] is a function. *)
Definition settled (theEarliest : nat) (hasAllSettled : bool)
    (aPromises : list Promise) : Promise :=
  match aPromises with
  | [aPromise] => aPromise
  | _ =>
      if hasAllSettled then
        if (nbFails aPromises =? 0)%Z then Resolved
        else Rejected (errorToString "Error" (failList aPromises ""))
      else promiseAll theEarliest aPromises
  end.

(** [_commandJsupload (theArgs)]: the uploads it starts, in order, and
    how its promise is settled in the end, [theSettlement] giving the
    settlement of each upload by its rank and [theEarliest] the rank
    of the upload rejected first. *)
Definition _commandJsupload (theEarliest : nat) (hasAllSettled : bool)
    (theSettlement : nat → Upload → Promise) (theArgs : string)
  : list Upload * Promise :=
  let anArgs := split " " theArgs in
  let '(aSrcList, aDstList) := sources anArgs in
  if (Z.of_nat (List.length aSrcList) =? 0)%Z
  then ([], Rejected (errorToString "SyntaxError" "wrong number of arguments"))
  else
    let aStarted := uploads aSrcList aDstList in
    (aStarted, settled theEarliest hasAllSettled (imap theSettlement aStarted)).

End Jsupload.

End Commands.

(** ** The session: the events of the terminal in any order *)

Module Session.
Import JsString JsText DrawTerm.

Section Events.
Context `{Host}.

Definition set_myIsWasmLoaded (v : bool) (s : t) : t :=
  mk (_myTerm s) (_myTermHello s) (_myTermInCounter s) (_myTermLine s)
     (_myTermHistory s) (_myTermHistoryPos s) (_myCmdTimeout s)
     (_myCmdQueue s) v (objects s) (timeouts s) (wasm s)
     (asked s) (awaited s).

(** ["\n\t\t: "] *)
Definition ITEM : string :=
  String LF (String "009" (String "009" ": ")).

(** The two commands that [_onWasmCreated] gives to the interpreter. *)
Definition HELP_JSDOWNLOAD : string :=
  "help jsdownload "
  +:+ "{jsdownload filePath [fileName]"
  +:+ ITEM +:+ "Download file from emulated file system"
  +:+ ITEM +:+ "  filePath file path within emulated file system to download;"
  +:+ ITEM +:+ "  fileName file name to download.}"
  +:+ " {JavaScript commands}".

Definition HELP_JSUPLOAD : string :=
  "help jsupload "
  +:+ "{jsupload fileUrl1 [-path filePath1] [fileUrl2 [-path filePath2]] ..."
  +:+ ITEM +:+ "Upload files to emulated file system"
  +:+ ITEM +:+ "  fileUrl  URL on server or . to show open file dialog;"
  +:+ ITEM +:+ "  filePath file path within emulated file system to create.}"
  +:+ " {JavaScript commands}".

(** [_onWasmCreated (theModule)]. An exception of the interpreter ends
    the method where it is thrown; its caller drops it. *)
Definition _onWasmCreated (s : t) : t :=
  let s := set_myIsWasmLoaded true s in
  let s := terminalWrite LFCR s in
  let '(aThrown, s) := call_eval HELP_JSDOWNLOAD s in
  match aThrown with
  | Some _ => s
  | None =>
      let '(aThrown, s) := call_eval HELP_JSUPLOAD s in
      match aThrown with
      | Some _ => s
      | None => terminalPrintInputLine "" s
      end
  end.

(** What the terminal reacts to: the data and the key events of the
    terminal widget, a timeout that expires, the creation of the
    WebAssembly module, and a pending upload that goes on or settles.
    The constructor registers the two handlers of the widget only
    where WebAssembly is supported; the methods can be called on any
    terminal. *)
Inductive Event :=
| Data (theEvent : string)
| Key (theEvent : KeyboardEvent)
| Expired (i : nat)
| WasmCreated
| Uploading (cs : list Callback) (w : Wasm) (thePromise : option Promise).

Definition handle (s : t) (e : Event) : t :=
  match e with
  | Data theEvent => _onTermDataInput theEvent s
  | Key theEvent => (_onTermKeyEvent theEvent s).2
  | Expired i => fire i s
  | WasmCreated => _onWasmCreated s
  | Uploading cs w thePromise => uploading cs w thePromise s
  end.

Definition run (es : list Event) (s : t) : t := foldl handle s es.

(** The timeouts that stand for a drain step. *)
Definition isDrain (aTimeout : Timeout) : bool :=
  match handler aTimeout with
  | Run_termPopCommandFromQueue => true
  | Run_termWasmLoadProgress => false
  end.

Definition drains (s : t) : nat :=
  List.length (List.filter isDrain (timeouts s)).

(** The timeouts that stand for a progress mark. *)
Definition marks (s : t) : nat :=
  List.length (List.filter (λ aTimeout, negb (isDrain aTimeout)) (timeouts s)).

(** The commands in the order of their evaluation, past and to come:
    the history, then the commands waiting in the queue; the empty
    command, which the history never records, is left out. *)
Definition agenda (s : t) : list string :=
  _myTermHistory s
  ++ List.filter (λ theCmd, negb (String.eqb theCmd ""))
       ((DrawCommandQueue.pending (queue s)).*1).

End Events.

End Session.

(** ** A scripted file system and server

    An emulated file system that holds one file, and a server that
    knows one URL, simple enough to run the commands on concrete
    arguments. *)

Module ScriptedFiles.
Import Commands.

Definition readFile (thePath : string) : list Byte.byte + string :=
  if String.eqb thePath "/tmp/Shot.PNG"
  then inl [Byte.x89; Byte.x50; Byte.x4e; Byte.x47]
  else inr "ErrnoError: FS error".

Definition fetch (theUrl : string) : Response + string :=
  if String.eqb theUrl "models/box.brep"
  then inl (mkResponse true 200 "OK" (inl [Byte.x61; Byte.x62]))
  else inl (mkResponse false 404 "Not Found" (inl [])).

Definition writeFile (thePath : string) (theData : list Byte.byte)
  : option string := None.

Definition preloaded (thePath : string) (theData : list Byte.byte) : bool :=
  true.

(** The settlement of the uploads on this server; the dialog of
    [uploadFile] is cancelled. *)
Definition settlement (i : nat) (anUpload : Upload) : Promise :=
  match anUpload with
  | UploadUrl theFileUrl theFilePath theToPreload =>
      (uploadUrl fetch writeFile preloaded "/" theFileUrl theFilePath
         theToPreload).2
  | UploadFile _ _ => Rejected "Error: no file chosen"
  end.

End ScriptedFiles.

(** * Properties of the queue *)

Section QueueFacts.
Import DrawCommandQueue.

(** The commands carried by the objects [l] of the store [h]. *)
Local Abbreviation items h l :=
  (omap (λ a, item <$> (h : Heap) !! a) (l : list ref)).

Lemma item_set_myNext n c : item (set_myNext n c) = item c.
Proof. reflexivity. Qed.

Lemma chain_bound h a l : chain h a l → Forall (λ x, x < length h) l.
Proof.
  revert a. induction l as [|x l IH]; intros a Hc; [constructor|].
  destruct Hc as (_ & c & Hx & Hc). constructor; [|by eapply IH].
  by eapply lookup_lt_Some.
Qed.

Lemma chain_alloc h a l c : chain h a l → chain (h ++ [c]) a l.
Proof.
  revert a. induction l as [|x l IH]; intros a; [done|].
  intros (-> & c' & Hx & Hc). split; [done|].
  exists c'. split; [by apply lookup_app_l_Some | by apply IH].
Qed.

Lemma chain_alter_other f x h a l :
  x ∉ l → chain h a l → chain (alter f x h) a l.
Proof.
  revert a. induction l as [|y l IH]; intros a Hx; [done|].
  apply not_elem_of_cons in Hx as [Hne Hx].
  intros (-> & c & Hy & Hc). split; [done|].
  exists c. split; [|by apply IH].
  by rewrite list_lookup_alter_ne.
Qed.

(** Linking the object [x], which ends on [null], behind the last
    object of a chain. *)
Lemma chain_link h a l aLast x c :
  chain h a (l ++ [aLast]) → NoDup (l ++ [aLast]) → x ∉ l ++ [aLast] →
  h !! x = Some c → _myNext c = None →
  chain (alter (set_myNext (Some x)) aLast h) a (l ++ [aLast; x]).
Proof.
  revert a. induction l as [|y l IH]; intros a Hc Hnd Hx Hhx Hnext.
  - destruct Hc as (-> & c' & Hl & _). split; [done|].
    apply not_elem_of_cons in Hx as [Hne _].
    exists (set_myNext (Some x) c'). split.
    { by rewrite list_lookup_alter_eq, Hl. }
    split; [done|]. exists c. split; [|done].
    by rewrite list_lookup_alter_ne.
  - simpl in *. destruct Hc as (-> & c' & Hy & Hc).
    apply NoDup_cons in Hnd as [Hy' Hnd].
    apply not_elem_of_cons in Hx as [Hne Hx].
    split; [done|]. exists c'. split.
    + rewrite list_lookup_alter_ne; [done|].
      intros ->. apply Hy'. apply elem_of_app. right. by apply list_elem_of_singleton.
    + by apply IH.
Qed.

Lemma chain_nodes fuel h a l :
  chain h a l → length l ≤ fuel → nodes fuel h a = l.
Proof.
  revert a fuel. induction l as [|x l IH]; intros a fuel Hc Hlen.
  - simpl in Hc. subst a. by destruct fuel.
  - destruct Hc as (-> & c & Hx & Hc). simpl in Hlen.
    destruct fuel as [|fuel]; [lia|]. simpl. rewrite Hx. simpl.
    f_equal. apply IH; [done | lia].
Qed.

Lemma NoDup_bound (l : list nat) n :
  NoDup l → Forall (λ x, x < n) l → length l ≤ n.
Proof.
  intros Hnd Hall.
  transitivity (length (seq 0 n)); [|by rewrite length_seq].
  apply submseteq_length, NoDup_submseteq; [done|].
  intros x Hx. apply elem_of_seq.
  rewrite Forall_forall in Hall. specialize (Hall x Hx). lia.
Qed.

Lemma wf_live h q l : wf h q l → live (h, q) = l.
Proof.
  intros [Hc Hnd _ _]. apply chain_nodes; [done|].
  apply NoDup_bound; [done | by eapply chain_bound].
Qed.

Lemma wf_pending h q l : wf h q l → pending (h, q) = items h l.
Proof. intros Hwf. unfold pending. by rewrite (wf_live _ _ _ Hwf). Qed.

Lemma items_alloc h l c :
  Forall (λ x, x < length h) l → items (h ++ [c]) l = items h l.
Proof.
  induction 1 as [|x l Hx _ IH]; [done|].
  csimpl. rewrite IH. by rewrite lookup_app_l.
Qed.

Lemma items_alter n x h l : items (alter (set_myNext n) x h) l = items h l.
Proof.
  induction l as [|y l IH]; [done|]. csimpl. rewrite IH.
  destruct (decide (x = y)) as [->|Hne].
  - rewrite list_lookup_alter_eq. by destruct (h !! y).
  - by rewrite list_lookup_alter_ne.
Qed.

(** The constructor builds a valid queue, on any store. *)
Lemma wf_new h : wf h new [].
Proof. by constructor; [|constructor| |]. Qed.

(** [add] of a fresh object extends the chain at its end. *)
Lemma wf_add h q l theCmd theToEcho :
  wf h q l →
  let st := add (length h) (h ++ [mkDrawCommand theCmd theToEcho None], q) in
  wf st.1 st.2 (l ++ [length h])
  ∧ items st.1 (l ++ [length h]) = items h l ++ [(theCmd, theToEcho)].
Proof.
  intros [Hc Hnd Hlast Hlen].
  pose proof (chain_bound _ _ _ Hc) as Hb.
  assert (length h ∉ l) as Hfresh.
  { intros Hin. rewrite Forall_forall in Hb. specialize (Hb _ Hin). lia. }
  assert ((h ++ [mkDrawCommand theCmd theToEcho None]) !! length h
          = Some (mkDrawCommand theCmd theToEcho None)) as Hnew.
  { by rewrite list_lookup_middle. }
  unfold add. destruct (_myLast q) as [aLast|] eqn:HL.
  - symmetry in Hlast. apply last_Some in Hlast as [l' ->].
    simpl. split.
    + constructor; simpl.
      * rewrite <-app_assoc. simpl.
        eapply chain_link; [by apply chain_alloc|done|done|exact Hnew|done].
      * apply NoDup_app. split; [done|]. split; [|apply NoDup_singleton].
        intros x Hx Hx'. apply list_elem_of_singleton in Hx'. by subst.
      * by rewrite last_snoc.
      * rewrite !length_app in *. simpl in *. lia.
    + rewrite omap_app, items_alter, items_alloc by done. f_equal.
      simpl. rewrite list_lookup_alter_ne, Hnew; [done|].
      intros ->. apply Hfresh. apply elem_of_app. right. by apply list_elem_of_singleton.
  - symmetry in Hlast. apply last_None in Hlast as ->.
    simpl in *. split.
    + constructor; simpl.
      * split; [done|]. eexists. split; [exact Hnew|done].
      * apply NoDup_singleton.
      * done.
      * done.
    + by rewrite Hnew.
Qed.

(** [pop] on a valid non-empty queue unlinks the head. *)
Lemma wf_pop h q x l :
  wf h q (x :: l) →
  ∃ h' q' c, pop (h, q) = (Some x, (h', q'))
    ∧ wf h' q' l
    ∧ items h' l = items h l
    ∧ h !! x = Some c
    ∧ h' !! x = Some (set_myNext None c).
Proof.
  intros [Hc Hnd Hlast Hlen].
  destruct Hc as (Hfirst & c & Hx & Hc).
  apply NoDup_cons in Hnd as [Hx' Hnd].
  unfold pop. rewrite Hfirst. do 2 eexists. exists c.
  split; [reflexivity|].
  rewrite Hx. simpl. split_and!.
  - constructor; simpl.
    + by apply chain_alter_other.
    + done.
    + simpl in Hlen. destruct l as [|y l].
      * simpl in Hlen. by replace (_myLength q - 1 =? 0)%Z with true by lia.
      * simpl in Hlen. replace (_myLength q - 1 =? 0)%Z with false by lia.
        rewrite Hlast. by rewrite last_cons_cons.
    + simpl in Hlen. lia.
  - apply items_alter.
  - done.
  - by rewrite list_lookup_alter_eq, Hx.
Qed.

(** [pop] on a valid empty queue. *)
Lemma wf_pop_empty h q : wf h q [] → pop (h, q) = (None, (h, q)).
Proof. intros [Hc _ _ _]. simpl in Hc. unfold pop. by rewrite Hc. Qed.

Lemma wf_isEmpty h q l : wf h q l → isEmpty q = true ↔ l = [].
Proof.
  intros [_ _ _ Hlen]. unfold isEmpty. rewrite Hlen.
  destruct l; simpl; split; intros; try done; lia.
Qed.

#[local] Arguments add : simpl never.
#[local] Arguments pop : simpl never.

(** What holds after any sequence of operations: the queue is valid,
    and the commands obtained followed by those still in the queue are
    the commands added. *)

Lemma run_invariant ops :
  ∃ l, wf (run ops).1.1 (run ops).1.2 l
    ∧ (run ops).2 ++ items (run ops).1.1 l = added ops.
Proof.
  induction ops as [|op ops IH] using rev_ind.
  { exists []. split; [apply wf_new | done]. }
  destruct IH as (l & Hwf & Heq).
  unfold run in *. rewrite foldl_snoc. unfold added in *. rewrite omap_app.
  destruct (foldl step ([], new, []) ops) as [[h q] out]. simpl in Hwf, Heq.
  destruct op as [theCmd theToEcho|]; simpl.
  - destruct (wf_add _ _ _ theCmd theToEcho Hwf) as [Hwf' Hitems].
    exists (l ++ [length h]). split; [done|].
    rewrite Hitems, app_assoc. by rewrite Heq.
  - rewrite app_nil_r. destruct l as [|x l].
    + rewrite (wf_pop_empty _ _ Hwf). simpl. by exists [].
    + destruct (wf_pop _ _ _ _ Hwf) as (h' & q' & c & -> & Hwf' & Hitems & Hx & Hx').
      simpl. exists l. split; [done|].
      rewrite Hitems, Hx', <-app_assoc. simpl in *. by rewrite Hx in Heq.
Qed.

Lemma items_length h (l : list ref) :
  Forall (λ x, x < length h) l → length (items h l) = length l.
Proof.
  induction 1 as [|x l Hx _ IH]; [done|]. csimpl.
  apply lookup_lt_is_Some_2 in Hx as [c ->]. simpl. by rewrite IH.
Qed.

Lemma run_valid ops : valid (run ops).1.
Proof. destruct (run_invariant ops) as (l & Hwf & _). by exists l. Qed.

(** C1. For every sequence of [add] and [pop] from the empty queue, the
    commands returned by the successful pops, followed by the commands
    still waiting, are the commands added, in the order of their
    addition; once the queue is empty again the pops have returned
    exactly the commands added, in that order. *)
Theorem fifo_order (ops : list Op) :
  (run ops).2 ++ pending (run ops).1 = added ops
  ∧ (isEmpty (run ops).1.2 = true → (run ops).2 = added ops).
Proof.
  destruct (run_invariant ops) as (l & Hwf & Heq).
  destruct (run ops) as [[h q] out]. simpl in *.
  rewrite (wf_pending _ _ _ Hwf). split; [done|].
  intros Hempty. apply (wf_isEmpty _ _ _ Hwf) in Hempty. subst l.
  simpl in Heq. by rewrite app_nil_r in Heq.
Qed.

Lemma fifo_order_witness :
  let ops := [Add "a" false; Add "b" true; Pop; Add "c" true; Pop; Pop] in
  (run ops).2 = [("a", false); ("b", true); ("c", true)]
  ∧ (run ops).2 = added ops.
Proof.
  split; [reflexivity|]. by apply (fifo_order _).
Defined.

(** C7. On an empty queue, [pop()] answers [null] and changes neither
    the queue ([_myFirst], [_myLast], [_myLength]) nor the store. The
    function is total: there is no error to raise. *)
Theorem pop_empty (st : Heap * t) :
  valid st → isEmpty st.2 = true → pop st = (None, st).
Proof.
  destruct st as [h q]. intros [l Hwf] Hempty. simpl in *.
  apply (wf_isEmpty _ _ _ Hwf) in Hempty. subst l.
  by apply wf_pop_empty.
Qed.

Lemma pop_empty_witness :
  let st := (run [Add "a" false; Pop]).1 in
  isEmpty st.2 = true ∧ pop st = (None, st).
Proof.
  split; [reflexivity|].
  apply pop_empty; [apply run_valid | reflexivity].
Defined.

(** C8. After every sequence of [add] and [pop] from the empty queue,
    [_myLength] is the number of objects reachable from [_myFirst], and
    [isEmpty()] holds exactly when as many commands were returned by
    pops as were added. *)
Theorem length_counts_live (ops : list Op) :
  _myLength (run ops).1.2 = Z.of_nat (length (live (run ops).1))
  ∧ (isEmpty (run ops).1.2 = true
     ↔ length (added ops) = length (run ops).2).
Proof.
  destruct (run_invariant ops) as (l & Hwf & Heq).
  destruct (run ops) as [[h q] out]. simpl in *.
  rewrite (wf_live _ _ _ Hwf). split; [by destruct Hwf|].
  rewrite (wf_isEmpty _ _ _ Hwf), <-Heq, length_app.
  rewrite items_length by (destruct Hwf; by eapply chain_bound).
  destruct l; simpl; split; intros; try done; lia.
Qed.

(** The queue links the objects it is given: it counts on each of them
    being in the queue at most once, as [new DrawCommand] at the only
    call of [add] ensures. Adding the object 0 twice and then the
    object 1 leaves, after two pops, a queue without head whose length
    is still 1. *)
Remark add_needs_fresh_objects :
  let h := [mkDrawCommand "a" false None; mkDrawCommand "b" false None] in
  let st := (pop (pop (add 1 (add 0 (add 0 (h, new))))).2).2 in
  _myFirst st.2 = None ∧ _myLength st.2 = 1%Z ∧ (pop st).1 = None.
Proof. by vm_compute. Qed.

End QueueFacts.

(** * Properties of the strings *)

Section StringFacts.
Import JsString.

Lemma length_snoc s c : String.length (s +:+ char c) = S (String.length s).
Proof. induction s as [|a s IH]; simpl; [done | by rewrite IH]. Qed.

Lemma substring_snoc s c :
  String.substring 0 (String.length s) (s +:+ char c) = s.
Proof. induction s as [|a s IH]; simpl; [done | by rewrite IH]. Qed.

(** Removing the last character of a line that has one. *)
Lemma chopped_snoc s c : DrawTerm.chopped (s +:+ char c) = s.
Proof.
  unfold DrawTerm.chopped, substring, length. rewrite length_snoc.
  replace (Z.max 0 (Z.min 0 (Z.of_nat (S (String.length s))))) with 0%Z by lia.
  replace (Z.max 0 (Z.min (Z.of_nat (S (String.length s)) - 1)
                          (Z.of_nat (S (String.length s)))))
    with (Z.of_nat (String.length s)) by lia.
  replace (Z.min 0 (Z.of_nat (String.length s))) with 0%Z by lia.
  replace (Z.max 0 (Z.of_nat (String.length s)) - 0)%Z
    with (Z.of_nat (String.length s)) by lia.
  rewrite Nat2Z.id. apply substring_snoc.
Qed.

Lemma chopped_empty : DrawTerm.chopped "" = "".
Proof. reflexivity. Qed.

(** A line ends with the character [c] exactly when it is some text
    followed by [c]. *)
Lemma endsWith_char s c :
  endsWith s (char c) = true ↔ ∃ s', s = s' +:+ char c.
Proof.
  unfold endsWith. simpl String.length. split.
  - induction s as [|a s IH]; [done|].
    simpl String.length. rewrite Nat.sub_succ, Nat.sub_0_r.
    destruct s as [|b s].
    + simpl. destruct (Ascii.eqb_spec a c) as [->|]; [|done].
      intros _. by exists "".
    + intros Heq. destruct IH as [s' Hs'].
      { simpl String.length in *. rewrite Nat.sub_succ, Nat.sub_0_r. exact Heq. }
      exists (String a s'). simpl. by rewrite Hs'.
  - intros [s' ->]. rewrite length_snoc. simpl.
    apply String.eqb_eq. rewrite Nat.sub_0_r.
    clear. induction s' as [|a s' IH]; simpl; [done | exact IH].
Qed.

End StringFacts.

(** * Properties of the editor and of the dispatcher *)

Section EditorFacts.
Context `{Host}.
Import JsString DrawTerm.

#[local] Arguments DrawCommandQueue.add : simpl never.
#[local] Arguments DrawCommandQueue.pop : simpl never.

(** ** What printing leaves alone *)

Lemma quiet_refl (s : t) : quiet s s.
Proof. by repeat split. Qed.

Lemma quiet_trans (s1 s2 s3 : t) : quiet s1 s2 → quiet s2 s3 → quiet s1 s3.
Proof.
  unfold quiet. intros (?&?&?&?&?&?&?) (?&?&?&?&?&?&?).
  repeat split; congruence.
Qed.

Lemma quiet_terminalWrite theText (s : t) : quiet s (terminalWrite theText s).
Proof. unfold terminalWrite. destruct (_myTerm s); by repeat split. Qed.

Lemma quiet_terminalWriteMultiline theText (s : t) :
  quiet s (terminalWriteMultiline theText s).
Proof. unfold terminalWriteMultiline. destruct (_myTerm s); by repeat split. Qed.

Lemma quiet_terminalWriteError theText (s : t) :
  quiet s (terminalWriteError theText s).
Proof. apply quiet_terminalWriteMultiline. Qed.

Lemma quiet_terminalPrintInputLine theLine (s : t) :
  quiet s (terminalPrintInputLine theLine s).
Proof.
  unfold terminalPrintInputLine.
  eapply quiet_trans; [apply (quiet_terminalWrite LFCR)|].
  eapply quiet_trans; [|apply quiet_terminalWrite]. by repeat split.
Qed.

Lemma quiet_printMessage theText theGravity (s : t) :
  quiet s (printMessage theText theGravity s).
Proof.
  unfold printMessage, terminalWriteTrace, terminalWriteInfo,
    terminalWriteWarning, terminalWriteError.
  repeat case_match; try apply quiet_terminalWriteMultiline.
  eapply quiet_trans; [apply quiet_terminalWrite|].
  apply quiet_terminalWriteMultiline.
Qed.

Lemma quiet_callback (s : t) c : quiet s (callback s c).
Proof.
  destruct c; simpl.
  - apply quiet_printMessage.
  - apply quiet_printMessage.
  - apply quiet_printMessage.
  - apply quiet_terminalWrite.
  - apply quiet_terminalWriteError.
  - apply quiet_terminalPrintInputLine.
Qed.

Lemma quiet_callbacks cs (s : t) : quiet s (callbacks cs s).
Proof.
  revert s. induction cs as [|c cs IH]; intros s; [apply quiet_refl|].
  simpl. eapply quiet_trans; [apply quiet_callback | apply IH].
Qed.

Lemma quiet_set_wasm w theCall (s : t) : quiet s (set_wasm w theCall s).
Proof. by repeat split. Qed.

Lemma quiet_call_eval theCmd (s : t) : quiet s (call_eval theCmd s).2.
Proof.
  unfold call_eval. destruct (eval _ _) as [[cs aThrown] w]. simpl.
  eapply quiet_trans; [apply quiet_set_wasm | apply quiet_callbacks].
Qed.

Lemma quiet_call_commandJsdownload theArgs (s : t) :
  quiet s (call_commandJsdownload theArgs s).2.
Proof.
  unfold call_commandJsdownload.
  destruct (_commandJsdownload _ _) as [[cs aRes] w]. simpl.
  eapply quiet_trans; [apply quiet_set_wasm | apply quiet_callbacks].
Qed.

Lemma quiet_call_commandJsupload theArgs (s : t) :
  quiet s (call_commandJsupload theArgs s).2.
Proof.
  unfold call_commandJsupload.
  destruct (_commandJsupload _ _) as [[cs aRes] w]. simpl.
  eapply quiet_trans; [apply quiet_set_wasm | apply quiet_callbacks].
Qed.

(** Evaluating a command that is not empty records it in the history
    and resets the cursor; the line, the queue and the timeouts stay. *)
Lemma termEvaluateCommand_records theCmd (s : t) :
  theCmd ≠ "" →
  let s' := (termEvaluateCommand theCmd s).2 in
  _myTermHistory s' = _myTermHistory s ++ [theCmd]
  ∧ _myTermHistoryPos s' = (-1)%Z
  ∧ _myTermLine s' = _myTermLine s
  ∧ _myCmdTimeout s' = _myCmdTimeout s
  ∧ queue s' = queue s
  ∧ timeouts s' = timeouts s.
Proof.
  intros Hne. unfold termEvaluateCommand.
  apply String.eqb_neq in Hne. rewrite Hne.
  set (s0 := set_myTermHistory _ _).
  assert (∀ s', quiet s0 s' →
    _myTermHistory s' = _myTermHistory s ++ [theCmd]
    ∧ _myTermHistoryPos s' = (-1)%Z
    ∧ _myTermLine s' = _myTermLine s
    ∧ _myCmdTimeout s' = _myCmdTimeout s
    ∧ queue s' = queue s
    ∧ timeouts s' = timeouts s) as Hq.
  { intros s' (?&?&?&?&?&?&?). subst s0. unfold queue in *. simpl in *.
    repeat split; congruence. }
  repeat case_match; simpl; apply Hq;
    match goal with
    | Heq : call_eval ?c ?x = _ |- _ =>
        pose proof (quiet_call_eval c x) as Hk; by rewrite Heq in Hk
    | Heq : call_commandJsdownload ?c ?x = _ |- _ =>
        pose proof (quiet_call_commandJsdownload c x) as Hk; by rewrite Heq in Hk
    | Heq : call_commandJsupload ?c ?x = _ |- _ =>
        pose proof (quiet_call_commandJsupload c x) as Hk; by rewrite Heq in Hk
    end.
Qed.

Lemma termEvaluateCommand_frame theCmd (s : t) :
  let s' := (termEvaluateCommand theCmd s).2 in
  _myTermLine s' = _myTermLine s
  ∧ _myCmdTimeout s' = _myCmdTimeout s
  ∧ queue s' = queue s
  ∧ timeouts s' = timeouts s.
Proof.
  destruct (decide (theCmd = "")) as [->|Hne]; [done|].
  destruct (termEvaluateCommand_records theCmd s Hne) as (_&_&?&?&?&?).
  done.
Qed.

Lemma termEvaluateCommand_hello theCmd (s : t) :
  _myTermHello (termEvaluateCommand theCmd s).2 = _myTermHello s.
Proof.
  unfold termEvaluateCommand. set (s0 := set_myTermHistory _ _).
  assert (∀ s', quiet s0 s' → _myTermHello s' = _myTermHello s) as Hq.
  { by intros s' (_&_&_&->&_). }
  repeat case_match; simpl; try done; apply Hq;
    match goal with
    | Heq : call_eval ?c ?x = _ |- _ =>
        pose proof (quiet_call_eval c x) as Hk; by rewrite Heq in Hk
    | Heq : call_commandJsdownload ?c ?x = _ |- _ =>
        pose proof (quiet_call_commandJsdownload c x) as Hk; by rewrite Heq in Hk
    | Heq : call_commandJsupload ?c ?x = _ |- _ =>
        pose proof (quiet_call_commandJsupload c x) as Hk; by rewrite Heq in Hk
    end.
Qed.

(** ** The evaluation of a command *)

(** C9. Evaluating the empty command answers a fulfilled promise at
    once and leaves the whole terminal as it was: nothing is appended to
    the history, the history cursor is not reset, and no collaborator
    (the interpreter least of all) is called. *)
Theorem termEvaluateCommand_empty (s : t) :
  termEvaluateCommand "" s = (Settled Resolved, s)
  ∧ _myTermHistory (termEvaluateCommand "" s).2 = _myTermHistory s
  ∧ _myTermHistoryPos (termEvaluateCommand "" s).2 = _myTermHistoryPos s
  ∧ asked (termEvaluateCommand "" s).2 = asked s.
Proof. by repeat split. Qed.

(** ** The characters received from the terminal *)

(** A deletion character on an empty line is ignored. *)
Lemma typed_delete_on_empty (aNbNewLines : Z) (s : t) :
  _myTermLine s = "" →
  _onTermDataInput_char (aNbNewLines, s) DEL = (aNbNewLines, s).
Proof.
  intros Hline. unfold _onTermDataInput_char. simpl.
  unfold JsString.length. by rewrite Hline.
Qed.

(** C10. A deletion character received while the line is empty changes
    nothing: neither the line nor the texts written, nor any other part
    of the state, nor the count of completed lines of the input being
    processed. This holds wherever the character stands in the input,
    and so for the input made of this character alone. *)
Theorem delete_on_empty_line (aNbNewLines : Z) (s : t) :
  _myTermLine s = "" →
  _onTermDataInput_char (aNbNewLines, s) DEL = (aNbNewLines, s)
  ∧ _onTermDataInput (char DEL) s = s.
Proof.
  intros Hline. split; [by apply typed_delete_on_empty|].
  unfold _onTermDataInput. simpl list_ascii_of_string. cbn [foldl].
  by rewrite typed_delete_on_empty.
Qed.

(** C3. When the line ends with a backslash, a carriage return does not
    complete it: no command is created or queued and no drain is
    scheduled; the backslash is removed from the line, the rest of the
    line is kept, and the input goes on (the count of completed lines is
    unchanged, and the continuation prompt is written when no line of
    this input was completed before). *)
Theorem backslash_continues_line (aNbNewLines : Z) (s : t) :
  endsWith (_myTermLine s) (char BACKSLASH) = true →
  let r := _onTermDataInput_char (aNbNewLines, s) CR in
  r.1 = aNbNewLines
  ∧ _myTermLine s = _myTermLine r.2 +:+ char BACKSLASH
  ∧ queue r.2 = queue s
  ∧ timeouts r.2 = timeouts s
  ∧ r.2 = (if (aNbNewLines =? 0)%Z
           then terminalWrite (LFCR +:+ "> ")
                  (set_myTermLine (chopped (_myTermLine s)) s)
           else set_myTermLine (chopped (_myTermLine s)) s).
Proof.
  intros Hends. unfold _onTermDataInput_char. simpl.
  rewrite Hends. simpl.
  apply endsWith_char in Hends as [aRest Hline].
  split; [done|].
  destruct (aNbNewLines =? 0)%Z.
  - pose proof (quiet_terminalWrite (LFCR +:+ "> ")
                 (set_myTermLine (chopped (_myTermLine s)) s))
      as (Hl & _ & _ & _ & _ & Hq & Ht).
    rewrite Hl, Hq, Ht. simpl. rewrite Hline at 2.
    by rewrite chopped_snoc.
  - simpl. rewrite Hline at 2. by rewrite chopped_snoc.
Qed.

(** ** Queueing a command *)

Lemma termQueueCommand_spec theCmd theToEcho (s : t) l :
  DrawCommandQueue.wf (objects s) (_myCmdQueue s) l →
  let s' := _termQueueCommand theCmd theToEcho s in
  DrawCommandQueue.wf (objects s') (_myCmdQueue s') (l ++ [List.length (objects s)])
  ∧ DrawCommandQueue.pending (queue s')
    = DrawCommandQueue.pending (queue s) ++ [(theCmd, theToEcho)]
  ∧ timeouts s'
    = timeouts s ++ (if DrawCommandQueue.isEmpty (_myCmdQueue s)
                     then [mkTimeout Run_termPopCommandFromQueue (_myCmdTimeout s)]
                     else [])
  ∧ _myTermLine s' = _myTermLine s
  ∧ _myTerm s' = _myTerm s
  ∧ wasm s' = wasm s.
Proof.
  intros Hwf.
  destruct (wf_add _ _ _ theCmd theToEcho Hwf) as [Hwf' Hitems].
  unfold _termQueueCommand, new_DrawCommand.
  set (st := DrawCommandQueue.add _ _) in *.
  assert (DrawCommandQueue.extent st.2 = Z.of_nat (S (List.length l))) as Hext.
  { unfold DrawCommandQueue.extent. rewrite (DrawCommandQueue.wf_length _ _ _ Hwf').
    rewrite length_app. simpl. f_equal. lia. }
  assert (DrawCommandQueue.isEmpty (_myCmdQueue s) = bool_decide (l = [])) as Hempty.
  { pose proof (wf_isEmpty _ _ _ Hwf) as Hiff.
    destruct (DrawCommandQueue.isEmpty (_myCmdQueue s)).
    - symmetry. apply bool_decide_eq_true. by apply Hiff.
    - symmetry. apply bool_decide_eq_false. intros Hl. by apply Hiff in Hl. }
  assert (DrawCommandQueue.pending (objects (set_queue st s), _myCmdQueue (set_queue st s))
          = DrawCommandQueue.pending (queue s) ++ [(theCmd, theToEcho)]) as Hpend.
  { simpl. unfold queue. rewrite (wf_pending _ _ _ Hwf).
    destruct st as [h' q']. by rewrite (wf_pending _ _ _ Hwf'). }
  assert ((Z.of_nat (S (List.length l)) =? 1)%Z = bool_decide (l = [])) as Hone.
  { destruct l; [done|]. rewrite bool_decide_eq_false_2 by done.
    apply Z.eqb_neq. simpl List.length. lia. }
  cbn zeta. change (_myCmdQueue (set_queue st s)) with st.2.
  rewrite Hext, Hone, Hempty.
  case_bool_decide; cbn -[DrawCommandQueue.pending queue];
    rewrite ?app_nil_r; by split_and!.
Qed.

(** C6. Queueing a command schedules a drain exactly when the queue was
    empty just before, that is, exactly when the queue holds one command
    just after; on a queue that was not empty no timeout is added. In
    both cases the command is queued last. *)
Theorem drain_scheduled_iff_queue_was_empty theCmd theToEcho (s : t) :
  valid s →
  let s' := _termQueueCommand theCmd theToEcho s in
  timeouts s'
  = timeouts s ++ (if DrawCommandQueue.isEmpty (_myCmdQueue s)
                   then [mkTimeout Run_termPopCommandFromQueue (_myCmdTimeout s)]
                   else [])
  ∧ (DrawCommandQueue.isEmpty (_myCmdQueue s) = true
     ↔ DrawCommandQueue.extent (_myCmdQueue s') = 1%Z)
  ∧ DrawCommandQueue.pending (queue s')
    = DrawCommandQueue.pending (queue s) ++ [(theCmd, theToEcho)]
  ∧ valid s'.
Proof.
  intros [l Hwf]. simpl in Hwf.
  destruct (termQueueCommand_spec theCmd theToEcho s l Hwf)
    as (Hwf' & Hpend & Htime & _).
  split; [done|]. split; [|split; [done | by eexists]].
  rewrite (wf_isEmpty _ _ _ Hwf). unfold DrawCommandQueue.extent.
  rewrite (DrawCommandQueue.wf_length _ _ _ Hwf'), length_app. simpl.
  destruct l; simpl; split; intros; try done; lia.
Qed.

(** ** A complete line *)

Lemma append_empty_r (s : string) : s +:+ "" = s.
Proof. induction s as [|a s IH]; [done|]. unfold String.append in *. simpl. by rewrite IH. Qed.

Lemma append_assoc (s1 s2 s3 : string) : (s1 +:+ s2) +:+ s3 = s1 +:+ (s2 +:+ s3).
Proof.
  induction s1 as [|a s1 IH]; [done|].
  unfold String.append in *. simpl. by rewrite IH.
Qed.

(** A character that is neither the deletion nor the carriage return is
    appended to the line, and written when no line of this input was
    completed before. *)
Lemma typed_char (aNbNewLines : Z) (s : t) (c : ascii) :
  c ≠ DEL → c ≠ CR →
  _onTermDataInput_char (aNbNewLines, s) c
  = (aNbNewLines,
     set_myTermLine (_myTermLine s +:+ char c)
       (if (aNbNewLines =? 0)%Z then terminalWrite (char c) s else s)).
Proof.
  intros Hdel Hcr. unfold _onTermDataInput_char.
  apply Ascii.eqb_neq in Hdel, Hcr. rewrite Hdel, Hcr.
  destruct (aNbNewLines =? 0)%Z; [|done].
  by destruct (quiet_terminalWrite (char c) s) as [-> _].
Qed.

(** The same for a text made of such characters. *)
Lemma typed_text (aNbNewLines : Z) (s : t) (cs : list ascii) :
  Forall (λ c, c ≠ DEL ∧ c ≠ CR) cs →
  foldl _onTermDataInput_char (aNbNewLines, s) cs
  = (aNbNewLines,
     set_myTermLine (_myTermLine s +:+ string_of_list_ascii cs)
       (set_myTerm
          (if (aNbNewLines =? 0)%Z
           then (λ aWritten, aWritten ++ (char <$> cs)) <$> _myTerm s
           else _myTerm s) s)).
Proof.
  intros Hcs. revert s. induction Hcs as [|c cs [Hdel Hcr] _ IH]; intros s.
  - simpl. rewrite append_empty_r. f_equal.
    destruct s as [tm ? ? ? ? ? ? ? ? ? ? ? ?]. unfold set_myTermLine, set_myTerm.
    simpl. f_equal. destruct (aNbNewLines =? 0)%Z; [|done].
    destruct tm; simpl; [|done]. by rewrite app_nil_r.
  - cbn [foldl]. rewrite (typed_char _ _ _ Hdel Hcr), IH. f_equal.
    destruct s as [tm ? ? ? ? ? ? ? ? ? ? ? ?].
    unfold set_myTermLine, set_myTerm, terminalWrite. simpl.
    rewrite append_assoc.
    destruct (aNbNewLines =? 0)%Z; [|done].
    destruct tm; simpl; [|done]. by rewrite <-app_assoc.
Qed.

(** A carriage return on a line that is complete and carries no
    continuation marker queues the line and empties it. *)
Lemma typed_return (aNbNewLines : Z) (s : t) :
  endsWith (_myTermLine s) (char BACKSLASH) = false →
  isComplete (_myTermLine s) (wasm s) = true →
  _onTermDataInput_char (aNbNewLines, s) CR
  = ((aNbNewLines + 1)%Z,
     _termQueueCommand (_myTermLine s) (negb (aNbNewLines =? 0)%Z)
       (set_myTermLine "" s)).
Proof.
  intros Hends Hcomplete. unfold _onTermDataInput_char.
  change (Ascii.eqb CR DEL) with false. change (Ascii.eqb CR CR) with true.
  cbn iota. cbn zeta. by rewrite Hends, Hcomplete.
Qed.

(** A text typed from an empty line and closed by a carriage return is
    queued once, not to be echoed, when it is complete and carries no
    continuation marker. *)
Lemma typed_line_is_queued (s : t) (cs : list ascii) :
  valid s →
  _myTermLine s = "" →
  Forall (λ c, c ≠ DEL ∧ c ≠ CR) cs →
  endsWith (string_of_list_ascii cs) (char BACKSLASH) = false →
  isComplete (string_of_list_ascii cs) (wasm s) = true →
  let s' := (foldl _onTermDataInput_char (0%Z, s) (cs ++ [CR])).2 in
  _myTermLine s' = ""
  ∧ DrawCommandQueue.pending (queue s')
    = DrawCommandQueue.pending (queue s) ++ [(string_of_list_ascii cs, false)]
  ∧ valid s'.
Proof.
  intros [l Hwf] Hline Hcs Hends Hcomplete.
  rewrite foldl_app, typed_text by done.
  rewrite Hline. cbn [foldl].
  rewrite typed_return by done.
  match goal with
  | |- context [_termQueueCommand ?c ?e ?x] =>
      destruct (termQueueCommand_spec c e x l Hwf)
        as (Hwf' & Hpend & _ & Hl & _)
  end.
  cbn zeta. split_and!; [done | done | by eexists].
Qed.

(** C5. From an empty line, the input [echo] followed by a carriage
    return, when [isComplete ("echo")] holds, queues exactly one
    command, with the text [echo] and the echo flag false, behind the
    commands already waiting, and leaves the line empty. *)
Theorem echo_line_is_queued (s : t) :
  valid s →
  _myTermLine s = "" →
  isComplete "echo" (wasm s) = true →
  let s' := _onTermDataInput ("echo" +:+ char CR) s in
  _myTermLine s' = ""
  ∧ DrawCommandQueue.pending (queue s')
    = DrawCommandQueue.pending (queue s) ++ [("echo", false)]
  ∧ valid s'.
Proof.
  intros Hvalid Hline Hcomplete. unfold _onTermDataInput.
  change (list_ascii_of_string ("echo" +:+ char CR))
    with (["e"; "c"; "h"; "o"]%char ++ [CR]).
  apply (typed_line_is_queued s ["e"; "c"; "h"; "o"]%char);
    [done | done | repeat constructor; done | done | done].
Qed.

(** ** The drain *)

(** One drain step on a queue that is not empty: the head leaves the
    queue and is dispatched. *)
Lemma termPopCommandFromQueue_step (s : t) theCmd theToEcho rest :
  valid s →
  DrawCommandQueue.pending (queue s) = (theCmd, theToEcho) :: rest →
  let s0 := set_queue (DrawCommandQueue.pop (queue s)).2 s in
  _termPopCommandFromQueue s = dispatch (mkDrawCommand theCmd theToEcho None) s0
  ∧ DrawCommandQueue.pending (queue s0) = rest
  ∧ valid s0
  ∧ DrawCommandQueue.isEmpty (_myCmdQueue s0) = bool_decide (rest = []).
Proof.
  intros [l Hwf] Hpend. unfold queue in *. simpl in Hwf.
  rewrite (wf_pending _ _ _ Hwf) in Hpend.
  destruct l as [|x l]; [done|].
  destruct (wf_pop _ _ _ _ Hwf) as (h' & q' & c & Hpop & Hwf' & Hitems & Hx & Hx').
  unfold _termPopCommandFromQueue, queue. rewrite Hpop. cbn zeta. simpl.
  rewrite Hx'. csimpl in Hpend. rewrite Hx in Hpend. simpl in Hpend.
  injection Hpend as Hcmd Hecho Hrest.
  destruct c as [aText aFlag aNext]. simpl in Hcmd, Hecho. subst aText aFlag.
  split_and!.
  - done.
  - unfold queue. simpl. by rewrite (wf_pending _ _ _ Hwf'), Hitems.
  - by exists l.
  - rewrite <-Hrest, <-Hitems.
    pose proof (wf_isEmpty _ _ _ Hwf') as Hiff.
    pose proof (items_length h' l
      (chain_bound _ _ _ (DrawCommandQueue.wf_chain _ _ _ Hwf'))) as Hlen.
    destruct (DrawCommandQueue.isEmpty q').
    + symmetry. apply bool_decide_eq_true.
      destruct Hiff as [Hl _]. by rewrite (Hl eq_refl).
    + symmetry. apply bool_decide_eq_false. intros Hnil.
      rewrite Hnil in Hlen. destruct l; [|done].
      destruct Hiff as [_ Hl]. by specialize (Hl eq_refl).
Qed.

(** One drain step whose evaluation answers a settled promise: the
    head is popped, echoed if it asks for it, evaluated; a rejection is written
    in the error style; a new prompt is printed; and the next step is
    scheduled exactly when a command is left in the queue. *)
Lemma drain_step (s s1 : t) theCmd theToEcho rest aPromise :
  valid s →
  DrawCommandQueue.pending (queue s) = (theCmd, theToEcho) :: rest →
  termEvaluateCommand theCmd
    (let s0 := set_queue (DrawCommandQueue.pop (queue s)).2 s in
     if theToEcho then terminalWrite theCmd s0 else s0)
  = (Settled aPromise, s1) →
  _termPopCommandFromQueue s
  = (if bool_decide (rest = []) then id
     else setTimeout Run_termPopCommandFromQueue (_myCmdTimeout s))
      (terminalPrintInputLine ""
         (match aPromise with
          | Resolved => s1
          | Rejected theErr => terminalWriteError theErr s1
          end))
  ∧ queue s1 = queue (set_queue (DrawCommandQueue.pop (queue s)).2 s)
  ∧ timeouts s1 = timeouts s
  ∧ _myTermHello s1 = _myTermHello s.
Proof.
  intros Hvalid Hpend Heval.
  destruct (termPopCommandFromQueue_step s _ _ _ Hvalid Hpend)
    as (Hstep & _ & _ & Hempty0).
  cbn zeta in Heval, Hempty0. set (s0 := set_queue _ s) in *.
  set (s0' := if theToEcho then terminalWrite theCmd s0 else s0) in *.
  assert (quiet s0 s0') as (_ & _ & _ & Hhello0 & Htmo0 & Hqueue0 & Htime0).
  { subst s0'. destruct theToEcho; [apply quiet_terminalWrite | apply quiet_refl]. }
  pose proof (termEvaluateCommand_frame theCmd s0') as Hframe.
  pose proof (termEvaluateCommand_hello theCmd s0') as Hhello1.
  rewrite Heval in Hframe, Hhello1. cbn zeta in Hframe. simpl in Hframe, Hhello1.
  destruct Hframe as (_ & Htmo1 & Hqueue1 & Htime1).
  set (s2 := match aPromise with
             | Resolved => s1
             | Rejected theErr => terminalWriteError theErr s1
             end).
  assert (quiet s1 (terminalPrintInputLine "" s2))
    as (_ & _ & _ & _ & Htmo3 & Hqueue3 & _).
  { eapply quiet_trans; [|apply quiet_terminalPrintInputLine].
    subst s2. destruct aPromise; [apply quiet_refl | apply quiet_terminalWriteError]. }
  assert (_myCmdQueue (terminalPrintInputLine "" s2) = _myCmdQueue s0) as Hq3.
  { assert (queue (terminalPrintInputLine "" s2) = queue s0) as Hq by congruence.
    unfold queue in Hq. by injection Hq. }
  assert (_myCmdTimeout (terminalPrintInputLine "" s2) = _myCmdTimeout s) as Htmo
    by (rewrite Htmo3, Htmo1, Htmo0; done).
  split_and!.
  - rewrite Hstep. unfold dispatch. simpl command. simpl toEcho. fold s0'.
    rewrite Heval.
    assert (∀ s3, s3 = terminalPrintInputLine "" s2 →
              scheduleNext s3
              = (if bool_decide (rest = []) then id
                 else setTimeout Run_termPopCommandFromQueue (_myCmdTimeout s)) s3)
      as Hsched.
    { intros s3 ->. unfold scheduleNext. rewrite Hq3, Hempty0, Htmo.
      by case_bool_decide. }
    subst s2. destruct aPromise; by apply Hsched.
  - congruence.
  - rewrite Htime1, Htime0. done.
  - rewrite Hhello1, Hhello0. done.
Qed.

(** X30. With at least two commands queued, a drain step whose
    evaluation answers a rejected promise (a download that failed, an
    upload refused for its arguments, an exception of the interpreter
    where the engine defines [InternalError]) runs the handler given
    to [catch]: the error is written in the error style, a new prompt
    is printed, and, the queue being not empty, the next drain step is
    scheduled. The second command is still the head of the queue, and
    the timeout just scheduled, when it fires, dequeues it and
    dispatches it, which evaluates it. *)
Theorem rejected_command_does_not_stop_drain
    (s s1 : t) theCmd1 theToEcho1 theCmd2 theToEcho2 rest theErr :
  valid s →
  DrawCommandQueue.pending (queue s)
  = (theCmd1, theToEcho1) :: (theCmd2, theToEcho2) :: rest →
  termEvaluateCommand theCmd1
    (let s0 := set_queue (DrawCommandQueue.pop (queue s)).2 s in
     if theToEcho1 then terminalWrite theCmd1 s0 else s0)
  = (Settled (Rejected theErr), s1) →
  let s' := _termPopCommandFromQueue s in
  s' = setTimeout Run_termPopCommandFromQueue (_myCmdTimeout s)
         (terminalPrintInputLine "" (terminalWriteError theErr s1))
  ∧ _myTerm s'
    = (λ aWritten, aWritten ++
         [replaceLF (LFCR +:+ String ESC "[31;1m" +:+ theErr +:+ SGR0);
          LFCR;
          String ESC "[32;1m" +:+ _myTermHello s +:+ "["
            +:+ pretty (_myTermInCounter s1 + 1)%Z +:+ "]>" +:+ SGR0 +:+ " "])
      <$> _myTerm s1
  ∧ timeouts s'
    = timeouts s ++ [mkTimeout Run_termPopCommandFromQueue (_myCmdTimeout s)]
  ∧ DrawCommandQueue.pending (queue s') = (theCmd2, theToEcho2) :: rest
  ∧ valid s'
  ∧ ∃ s2, fire (List.length (timeouts s)) s'
          = dispatch (mkDrawCommand theCmd2 theToEcho2 None) s2
        ∧ DrawCommandQueue.pending (queue s2) = rest
        ∧ timeouts s2 = timeouts s.
Proof.
  intros Hvalid Hpend Heval.
  destruct (termPopCommandFromQueue_step s _ _ _ Hvalid Hpend)
    as (_ & Hpend0 & Hvalid0 & _).
  destruct (drain_step s s1 _ _ _ _ Hvalid Hpend Heval)
    as (Hs' & Hqueue1 & Htime1 & Hhello1).
  rewrite bool_decide_eq_false_2 in Hs' by done.
  cbn zeta in Hpend0, Hvalid0, Hqueue1. set (s0 := set_queue _ s) in *.
  set (s3 := terminalPrintInputLine "" (terminalWriteError theErr s1)) in *.
  assert (quiet s1 s3) as (_ & _ & _ & _ & _ & Hqueue3 & Htime3).
  { eapply quiet_trans;
      [apply quiet_terminalWriteError | apply quiet_terminalPrintInputLine]. }
  assert (timeouts s3 = timeouts s) as Htime by congruence.
  cbn zeta. rewrite Hs'.
  assert (queue (setTimeout Run_termPopCommandFromQueue (_myCmdTimeout s) s3)
          = queue s0) as Hqueue'.
  { change (queue (setTimeout _ _ s3)) with (queue s3). congruence. }
  split_and!.
  - done.
  - simpl. subst s3. unfold terminalPrintInputLine, terminalWriteError,
      terminalWriteMultiline, terminalWrite. rewrite <-Hhello1.
    destruct (_myTerm s1) as [aWritten|] eqn:Hterm; simpl;
      repeat (rewrite Hterm; simpl); [|done].
    by rewrite <-!app_assoc.
  - simpl. by rewrite Htime.
  - by rewrite Hqueue'.
  - unfold valid. by rewrite Hqueue'.
  - set (s4 := setTimeout _ _ s3) in *.
    assert (timeouts s4 !! List.length (timeouts s)
            = Some (mkTimeout Run_termPopCommandFromQueue (_myCmdTimeout s))) as Hfire.
    { subst s4. simpl. rewrite Htime. by apply list_lookup_middle. }
    assert (delete (List.length (timeouts s)) (timeouts s4) = timeouts s) as Hdel.
    { subst s4. simpl. rewrite Htime.
      rewrite (delete_middle (timeouts s) []). apply app_nil_r. }
    unfold fire. rewrite Hfire, Hdel. simpl handler. cbn iota.
    set (s5 := set_timeouts (timeouts s) s4).
    assert (queue s5 = queue s0) as Hqueue5 by (subst s5; exact Hqueue').
    assert (valid s5) as Hvalid5 by (unfold valid; by rewrite Hqueue5).
    assert (DrawCommandQueue.pending (queue s5) = (theCmd2, theToEcho2) :: rest)
      as Hpend5 by (by rewrite Hqueue5).
    destruct (termPopCommandFromQueue_step s5 _ _ _ Hvalid5 Hpend5)
      as (Hstep5 & Hpend6 & _).
    eexists. split; [exact Hstep5|]. split; [exact Hpend6 | done].
Qed.

(** ** The history *)

(** C2, as the code has it. From the history [a], [b] (accepted in this
    order), an empty line and no cursor, ArrowUp, ArrowUp, ArrowDown
    (keydown events) give the lines [b], then [a], then [b]: the first
    ArrowUp selects the most recent entry, the second reaches the oldest
    one, at the lower bound 0 of the cursor, and ArrowDown returns to
    the most recent. *)
Theorem history_up_up_down (s : t) (theUp theDown : KeyboardEvent) :
  _myTermHistory s = ["a"; "b"] →
  _myTermLine s = "" →
  _myTermHistoryPos s = (-1)%Z →
  keyCode theUp = 38%Z → type theUp = "keydown" →
  keyCode theDown = 40%Z → type theDown = "keydown" →
  let s1 := (_onTermKeyEvent theUp s).2 in
  let s2 := (_onTermKeyEvent theUp s1).2 in
  let s3 := (_onTermKeyEvent theDown s2).2 in
  (_myTermLine s1, _myTermLine s2, _myTermLine s3) = ("b", "a", "b")
  ∧ (_myTermHistoryPos s1, _myTermHistoryPos s2, _myTermHistoryPos s3)
    = (1, 0, 1)%Z.
Proof.
  intros Hhist Hline Hpos Hup1 Hup2 Hdown1 Hdown2.
  destruct s as [tm ? ? ? ? ? ? ? ? ? ? ? ?].
  destruct theUp as [? ? ? ?], theDown as [? ? ? ?].
  simpl in *. subst. by destruct tm.
Qed.

(** A string that is not empty has a last character. *)
Lemma string_snoc (s : string) :
  s ≠ "" → ∃ s' c, s = s' +:+ char c.
Proof.
  induction s as [|a s IH]; [done|]. intros _.
  destruct s as [|b s].
  - by exists "", a.
  - destruct IH as (s' & c & Hs'); [done|].
    exists (String a s'), c. unfold String.append in *. simpl. by rewrite <-Hs'.
Qed.

(** The loop that clears the input erases as many characters as the
    line has and leaves it empty. *)
Lemma clearInput_spec (s : t) :
  clearInput (String.length (_myTermLine s)) s
  = set_myTermLine ""
      (set_myTerm
         ((λ aWritten,
             aWritten ++ replicate (String.length (_myTermLine s)) ERASE)
          <$> _myTerm s) s).
Proof.
  remember (String.length (_myTermLine s)) as n eqn:Hn.
  revert s Hn. induction n as [|n IH]; intros s Hn.
  - destruct s as [tm ? ? aLine ? ? ? ? ? ? ? ? ?]. simpl in *.
    destruct aLine; [|done]. unfold set_myTermLine, set_myTerm. simpl.
    f_equal. destruct tm; simpl; [|done]. by rewrite app_nil_r.
  - destruct (string_snoc (_myTermLine s)) as (aRest & c & Hline).
    { intros Hempty. by rewrite Hempty in Hn. }
    assert (String.length aRest = n) as Hrest.
    { rewrite Hline, length_snoc in Hn. lia. }
    cbn [clearInput]. unfold JsString.length. rewrite <-Hn.
    assert ((Z.of_nat (S n) >? 0)%Z = true) as -> by (apply Z.gtb_lt; lia).
    destruct (quiet_terminalWrite ERASE s) as (Hl & _). rewrite Hl, Hline.
    rewrite chopped_snoc.
    rewrite (IH (set_myTermLine aRest (terminalWrite ERASE s))) by done.
    destruct s as [tm ? ? aLine ? ? ? ? ? ? ? ? ?].
    unfold set_myTermLine, set_myTerm, terminalWrite. simpl.
    destruct tm; simpl; [|done].
    by rewrite <-app_assoc.
Qed.

(** An arrow pressed on a history that is not empty leaves the cursor
    within the history and shows the entry under it: the history is
    never read out of its bounds. *)
Lemma arrow_selects_history (theEvent : KeyboardEvent) (s : t) :
  keyCode theEvent = 38%Z ∨ keyCode theEvent = 40%Z →
  type theEvent = "keydown" →
  _myTermHistory s ≠ [] →
  let s' := (_onTermKeyEvent theEvent s).2 in
  (0 ≤ _myTermHistoryPos s' < Z.of_nat (List.length (_myTermHistory s)))%Z
  ∧ _myTermHistory s' = _myTermHistory s
  ∧ _myTermHistory s !! Z.to_nat (_myTermHistoryPos s') = Some (_myTermLine s').
Proof.
  intros Hcode Htype Hhist. unfold _onTermKeyEvent.
  assert ((keyCode theEvent =? 38)%Z || (keyCode theEvent =? 40)%Z = true) as ->.
  { destruct Hcode as [-> | ->]; done. }
  rewrite Htype. cbn [String.eqb Ascii.eqb Bool.eqb negb]. cbn iota. cbn zeta.
  rewrite clearInput_spec.
  set (s0 := set_myTermLine "" _).
  change (_myTermHistory s0) with (_myTermHistory s).
  change (_myTermHistoryPos s0) with (_myTermHistoryPos s).
  assert (0 < Z.of_nat (List.length (_myTermHistory s)))%Z as Hlen.
  { destruct (_myTermHistory s); [done|]. simpl List.length. lia. }
  assert ((Z.of_nat (List.length (_myTermHistory s)) <=? 0)%Z = false) as ->
    by (apply Z.leb_gt; lia).
  set (aPos := if negb (_myTermHistoryPos s =? -1)%Z then _ else _).
  assert (0 ≤ aPos < Z.of_nat (List.length (_myTermHistory s)))%Z as Hpos.
  { subst aPos. destruct (negb _); lia. }
  destruct (lookup_lt_is_Some_2 (_myTermHistory s) (Z.to_nat aPos)) as [aHist Ha];
    [lia|].
  set (s1 := set_myTermHistoryPos aPos s0).
  change (_myTermHistory s1) with (_myTermHistory s). rewrite Ha.
  cbn [default snd from_option id].
  destruct (quiet_terminalWrite aHist (set_myTermLine aHist s1))
    as (-> & -> & -> & _).
  change (_myTermHistoryPos (set_myTermLine aHist s1)) with aPos.
  split_and!; try done; lia.
Qed.

(** ** Validity is kept *)

Lemma valid_new b w : valid (new b w).
Proof. exists []. destruct b; apply wf_new. Qed.

Lemma valid_same_queue (s s' : t) : queue s' = queue s → valid s → valid s'.
Proof. unfold valid. by intros ->. Qed.

Lemma valid_quiet (s s' : t) : quiet s s' → valid s → valid s'.
Proof. intros (_&_&_&_&_&Hq&_). by apply valid_same_queue. Qed.

Lemma valid_termQueueCommand theCmd theToEcho (s : t) :
  valid s → valid (_termQueueCommand theCmd theToEcho s).
Proof.
  intros [l Hwf].
  destruct (termQueueCommand_spec theCmd theToEcho s l Hwf) as (Hwf' & _).
  by eexists.
Qed.

Lemma valid_set_myTermLine v (s : t) : valid s → valid (set_myTermLine v s).
Proof. by apply valid_same_queue. Qed.

Lemma valid_set_timeouts v (s : t) : valid s → valid (set_timeouts v s).
Proof. by apply valid_same_queue. Qed.

Lemma valid_onTermDataInput_char n (s : t) c :
  valid s → valid (_onTermDataInput_char (n, s) c).2.
Proof.
  intros Hvalid. unfold _onTermDataInput_char.
  repeat case_match; simpl;
    try apply valid_termQueueCommand;
    repeat first
      [ exact Hvalid
      | eapply valid_quiet; [apply quiet_terminalWrite|]
      | apply valid_set_myTermLine ].
Qed.

(** Every input leaves a valid terminal valid. *)
Lemma valid_onTermDataInput theEvent (s : t) :
  valid s → valid (_onTermDataInput theEvent s).
Proof.
  unfold _onTermDataInput. generalize 0%Z as n. revert s.
  induction (list_ascii_of_string theEvent) as [|c cs IH]; intros s n Hvalid;
    [done|].
  cbn [foldl].
  destruct (_onTermDataInput_char (n, s) c) as [n' s'] eqn:Hstep.
  apply IH. pose proof (valid_onTermDataInput_char n s c Hvalid) as Hv.
  by rewrite Hstep in Hv.
Qed.

Lemma valid_termPopCommandFromQueue (s : t) :
  valid s → valid (_termPopCommandFromQueue s).
Proof.
  intros [l Hwf]. unfold _termPopCommandFromQueue, queue in *. simpl in Hwf.
  destruct l as [|x l].
  - rewrite (wf_pop_empty _ _ Hwf). by exists [].
  - destruct (wf_pop _ _ _ _ Hwf) as (h' & q' & c & -> & Hwf' & _ & _ & Hx').
    cbn zeta. simpl. rewrite Hx'. unfold dispatch.
    set (s0 := set_queue (h', q') s).
    assert (valid s0) as Hvalid0 by (by exists l).
    set (s1 := if toEcho _ then _ else s0).
    assert (valid s1) as Hvalid1.
    { subst s1. destruct (toEcho _); [|done].
      eapply valid_quiet; [apply quiet_terminalWrite | done]. }
    pose proof (termEvaluateCommand_frame (command (set_myNext None c)) s1)
      as (_ & _ & Hqueue & _).
    destruct (termEvaluateCommand _ s1) as [aPromise s2]. simpl in Hqueue.
    assert (valid s2) as Hvalid2 by (by eapply valid_same_queue).
    assert (∀ s3, valid s3 → valid (scheduleNext s3)) as Hsched.
    { intros s3 Hv. unfold scheduleNext. by destruct (negb _). }
    destruct aPromise as [[|theErr]| |theErr].
    + apply Hsched. eapply valid_quiet; [apply quiet_terminalPrintInputLine|done].
    + apply Hsched. eapply valid_quiet; [apply quiet_terminalPrintInputLine|].
      eapply valid_quiet; [apply quiet_terminalWriteError|done].
    + by apply (valid_same_queue s2).
    + done.
Qed.

End EditorFacts.


(** * The revision of src/js/drawxterm.js *)

Section SyncFacts.
Context `{Host}.
Import JsString DrawTerm.

#[local] Arguments DrawCommandQueue.add : simpl never.
#[local] Arguments DrawCommandQueue.pop : simpl never.

(** The two revisions handle a character alike, except a carriage
    return on a line that ends with a backslash. *)
Lemma sync_onTermDataInput_char (aNbNewLines : Z) (s : t) (c : ascii) :
  c ≠ CR ∨ endsWith (_myTermLine s) (char BACKSLASH) = false →
  DrawTermSync._onTermDataInput_char (aNbNewLines, s) c
  = _onTermDataInput_char (aNbNewLines, s) c.
Proof.
  intros Hc. unfold DrawTermSync._onTermDataInput_char, _onTermDataInput_char.
  destruct (Ascii.eqb c DEL); [done|].
  destruct (Ascii.eqb_spec c CR) as [->|Hne]; [|done].
  destruct Hc as [Hc|Hc]; [done|]. rewrite Hc.
  by destruct (isComplete _ _).
Qed.

(** In this revision a line that ends with a backslash is completed like
    any other: queued with its backslash when [isComplete] holds,
    continued past a line break otherwise. *)
Lemma sync_backslash_is_no_marker (aNbNewLines : Z) (s : t) :
  DrawTermSync._onTermDataInput_char (aNbNewLines, s) CR
  = if isComplete (_myTermLine s) (wasm s)
    then ((aNbNewLines + 1)%Z,
          _termQueueCommand (_myTermLine s) (negb (aNbNewLines =? 0)%Z)
            (set_myTermLine "" s))
    else (aNbNewLines,
          let s := set_myTermLine (_myTermLine s +:+ LFCR) s in
          if (aNbNewLines =? 0)%Z then terminalWrite (LFCR +:+ "> ") s else s).
Proof. reflexivity. Qed.

(** X28. So the continuation marker has no effect in this revision. On
    a valid terminal, a carriage return on a complete line is answered
    by queueing the line as it stands, a final backslash included, and
    by emptying it. *)
Lemma sync_backslash_line_is_queued (aNbNewLines : Z) (s : t) :
  isComplete (_myTermLine s) (wasm s) = true →
  valid s →
  let r := DrawTermSync._onTermDataInput_char (aNbNewLines, s) CR in
  r.1 = (aNbNewLines + 1)%Z
  ∧ _myTermLine r.2 = ""
  ∧ DrawCommandQueue.pending (queue r.2)
    = DrawCommandQueue.pending (queue s)
      ++ [(_myTermLine s, negb (aNbNewLines =? 0)%Z)].
Proof.
  intros Hcomplete [l Hwf]. rewrite sync_backslash_is_no_marker, Hcomplete.
  destruct (termQueueCommand_spec (_myTermLine s) (negb (aNbNewLines =? 0)%Z)
              (set_myTermLine "" s) l Hwf) as (_ & Hpend & _ & Hline & _).
  cbn zeta. by split_and!.
Qed.

(** A text without carriage return is received alike. *)
Lemma sync_typed_text (aNbNewLines : Z) (s : t) (cs : list ascii) :
  Forall (λ c, c ≠ CR) cs →
  foldl DrawTermSync._onTermDataInput_char (aNbNewLines, s) cs
  = foldl _onTermDataInput_char (aNbNewLines, s) cs.
Proof.
  intros Hcs. revert aNbNewLines s.
  induction Hcs as [|c cs Hc _ IH]; intros n s; [done|].
  cbn [foldl]. rewrite sync_onTermDataInput_char by (by left).
  destruct (_onTermDataInput_char (n, s) c) as [n' s']. apply IH.
Qed.

(** The line [echo] is queued in this revision as in the other. *)
Lemma sync_echo_line_is_queued (s : t) :
  valid s →
  _myTermLine s = "" →
  isComplete "echo" (wasm s) = true →
  let s' := DrawTermSync._onTermDataInput ("echo" +:+ char CR) s in
  _myTermLine s' = ""
  ∧ DrawCommandQueue.pending (queue s')
    = DrawCommandQueue.pending (queue s) ++ [("echo", false)]
  ∧ valid s'.
Proof.
  intros Hvalid Hline Hcomplete.
  assert (DrawTermSync._onTermDataInput ("echo" +:+ char CR) s
          = (foldl _onTermDataInput_char (0%Z, s)
               (["e"; "c"; "h"; "o"]%char ++ [CR])).2) as ->.
  { unfold DrawTermSync._onTermDataInput.
    change (list_ascii_of_string ("echo" +:+ char CR))
      with (["e"; "c"; "h"; "o"]%char ++ [CR]).
    rewrite !foldl_app. f_equal.
    rewrite sync_typed_text by (repeat constructor; done).
    rewrite typed_text by (repeat constructor; done).
    rewrite Hline. cbn [foldl].
    apply sync_onTermDataInput_char. by right. }
  apply (typed_line_is_queued s ["e"; "c"; "h"; "o"]%char);
    [done | done | repeat constructor; done | done | done].
Qed.

(** The deletion character on an empty line is ignored in this
    revision too. *)
Lemma sync_delete_on_empty_line (aNbNewLines : Z) (s : t) :
  _myTermLine s = "" →
  DrawTermSync._onTermDataInput_char (aNbNewLines, s) DEL = (aNbNewLines, s).
Proof.
  intros Hline. rewrite sync_onTermDataInput_char by (by left).
  by apply typed_delete_on_empty.
Qed.

(** The arrows are handled by the same text in both revisions. *)
Lemma sync_onTermKeyEvent_arrows (theEvent : KeyboardEvent) (s : t) :
  keyCode theEvent = 38%Z ∨ keyCode theEvent = 40%Z →
  DrawTermSync._onTermKeyEvent theEvent s = _onTermKeyEvent theEvent s.
Proof.
  intros Hcode. unfold DrawTermSync._onTermKeyEvent, _onTermKeyEvent.
  by destruct Hcode as [-> | ->].
Qed.

(** The empty command in this revision: the method returns at once,
    without throwing, and nothing changes. *)
Lemma sync_termEvaluateCommand_empty (s : t) :
  DrawTermSync.termEvaluateCommand "" s = (None, s).
Proof. reflexivity. Qed.

(** ** The drain in this revision *)

Lemma sync_quiet_terminalWriteError theText (s : t) :
  quiet s (DrawTermSync.terminalWriteError theText s).
Proof. apply quiet_terminalWrite. Qed.

Lemma sync_quiet_printMessage theText theGravity (s : t) :
  quiet s (DrawTermSync.printMessage theText theGravity s).
Proof.
  unfold DrawTermSync.printMessage, DrawTermSync.terminalWriteTrace,
    DrawTermSync.terminalWriteInfo, DrawTermSync.terminalWriteWarning,
    DrawTermSync.terminalWriteError.
  repeat case_match; try apply quiet_terminalWrite.
  eapply quiet_trans; apply quiet_terminalWrite.
Qed.

Lemma sync_quiet_callbacks cs (s : t) : quiet s (DrawTermSync.callbacks cs s).
Proof.
  revert s. induction cs as [|c cs IH]; intros s; [apply quiet_refl|].
  simpl. eapply quiet_trans; [|apply IH].
  destruct c; simpl.
  - apply sync_quiet_printMessage.
  - apply sync_quiet_printMessage.
  - apply sync_quiet_printMessage.
  - apply quiet_terminalWrite.
  - apply sync_quiet_terminalWriteError.
  - apply quiet_terminalPrintInputLine.
Qed.

Lemma sync_quiet_call_eval theCmd (s : t) :
  quiet s (DrawTermSync.call_eval theCmd s).2.
Proof.
  unfold DrawTermSync.call_eval.
  destruct (eval _ _) as [[cs aThrown] w]. simpl.
  eapply quiet_trans; [apply quiet_set_wasm | apply sync_quiet_callbacks].
Qed.

(** A command that throws in this revision was given to the interpreter;
    the method wrote the error and a new prompt before throwing again. *)
Lemma sync_termEvaluateCommand_throws theCmd theErr (s s1 : t) :
  DrawTermSync.termEvaluateCommand theCmd s = (Some theErr, s1) →
  ∃ s0, quiet (set_myTermHistory (_myTermHistory s ++ [theCmd])
                 (set_myTermHistoryPos (-1) s)) s0
      ∧ s1 = terminalPrintInputLine ""
               (DrawTermSync.terminalWriteError
                  ("Internal error: " +:+ theErr) s0).
Proof.
  unfold DrawTermSync.termEvaluateCommand.
  repeat case_match; try done.
  intros [= <- <-]. eexists. split; [|reflexivity].
  match goal with
  | Heq : DrawTermSync.call_eval ?c ?x = _ |- _ =>
      pose proof (sync_quiet_call_eval c x) as Hk; by rewrite Heq in Hk
  end.
Qed.

Lemma sync_termPopCommandFromQueue_step (s : t) theCmd theToEcho rest :
  valid s →
  DrawCommandQueue.pending (queue s) = (theCmd, theToEcho) :: rest →
  DrawTermSync._termPopCommandFromQueue s
  = DrawTermSync.dispatch (mkDrawCommand theCmd theToEcho None)
      (set_queue (DrawCommandQueue.pop (queue s)).2 s).
Proof.
  intros [l Hwf] Hpend. unfold queue in *. simpl in Hwf.
  rewrite (wf_pending _ _ _ Hwf) in Hpend.
  destruct l as [|x l]; [done|].
  destruct (wf_pop _ _ _ _ Hwf) as (h' & q' & c & Hpop & _ & _ & Hx & Hx').
  unfold DrawTermSync._termPopCommandFromQueue, queue. rewrite Hpop.
  cbn zeta. simpl. rewrite Hx'. csimpl in Hpend. rewrite Hx in Hpend.
  simpl in Hpend. injection Hpend as Hcmd Hecho Hrest.
  destruct c as [aText aFlag aNext]. simpl in Hcmd, Hecho. by subst aText aFlag.
Qed.

(** X29. A failing command in this revision. The exception of the
    interpreter is caught twice and thrown again each time:
    [termEvaluateCommand] writes it in the error style and prints a new
    prompt, [_termPopCommandFromQueue] schedules the next drain step,
    the queue being not empty; the second command stays at the head of
    the queue. *)
Lemma sync_failed_command_does_not_stop_drain
    (s s1 : t) theCmd1 theToEcho1 theCmd2 theToEcho2 rest theErr :
  valid s →
  DrawCommandQueue.pending (queue s)
  = (theCmd1, theToEcho1) :: (theCmd2, theToEcho2) :: rest →
  DrawTermSync.termEvaluateCommand theCmd1
    (let s0 := set_queue (DrawCommandQueue.pop (queue s)).2 s in
     if theToEcho1 then terminalWrite theCmd1 s0 else s0)
  = (Some theErr, s1) →
  DrawTermSync._termPopCommandFromQueue s
  = (Some theErr,
     setTimeout Run_termPopCommandFromQueue (_myCmdTimeout s) s1)
  ∧ (∃ s0, s1 = terminalPrintInputLine ""
                  (DrawTermSync.terminalWriteError
                     ("Internal error: " +:+ theErr) s0))
  ∧ timeouts (DrawTermSync._termPopCommandFromQueue s).2
    = timeouts s ++ [mkTimeout Run_termPopCommandFromQueue (_myCmdTimeout s)]
  ∧ DrawCommandQueue.pending (queue (DrawTermSync._termPopCommandFromQueue s).2)
    = (theCmd2, theToEcho2) :: rest.
Proof.
  intros Hvalid Hpend Heval.
  destruct (termPopCommandFromQueue_step s _ _ _ Hvalid Hpend)
    as (_ & Hpend0 & _ & Hempty0).
  pose proof (sync_termPopCommandFromQueue_step s _ _ _ Hvalid Hpend) as Hstep.
  cbn zeta in Heval, Hpend0, Hempty0. set (s0 := set_queue _ s) in *.
  destruct (sync_termEvaluateCommand_throws _ _ _ _ Heval) as (s2 & Hq2 & Hs1).
  assert (_myCmdTimeout s1 = _myCmdTimeout s0 ∧ queue s1 = queue s0
          ∧ timeouts s1 = timeouts s0) as (Htmo & Hqueue & Htime).
  { assert (quiet s0 (if theToEcho1 then terminalWrite theCmd1 s0 else s0))
      as (_ & _ & _ & _ & Ha & Hb & Hc).
    { destruct theToEcho1; [apply quiet_terminalWrite | apply quiet_refl]. }
    destruct Hq2 as (_ & _ & _ & _ & Ha2 & Hb2 & Hc2).
    assert (quiet s2 s1) as (_ & _ & _ & _ & Ha1 & Hb1 & Hc1).
    { rewrite Hs1. eapply quiet_trans;
        [apply sync_quiet_terminalWriteError | apply quiet_terminalPrintInputLine]. }
    unfold queue in *. simpl in Ha2, Hb2, Hc2.
    split_and!; congruence. }
  assert (_myCmdQueue s1 = _myCmdQueue s0) as Hq1.
  { unfold queue in Hqueue. by injection Hqueue. }
  assert (DrawTermSync._termPopCommandFromQueue s
          = (Some theErr,
             setTimeout Run_termPopCommandFromQueue (_myCmdTimeout s) s1)) as Hs'.
  { rewrite Hstep. unfold DrawTermSync.dispatch. simpl command. simpl toEcho.
    rewrite Heval. unfold scheduleNext.
    rewrite Hq1, Hempty0, Htmo. by rewrite bool_decide_eq_false_2. }
  rewrite Hs'. split_and!.
  - done.
  - by exists s2.
  - simpl. by rewrite Htime.
  - change (queue (Some theErr, setTimeout Run_termPopCommandFromQueue
                                  (_myCmdTimeout s) s1).2) with (queue s1).
    by rewrite Hqueue.
Qed.

End SyncFacts.

(** * The terminal run on the scripted host *)

Section Runs.
Import JsString DrawTerm.
#[local] Existing Instance Scripted.host.

Lemma delete_on_empty_line_witness :
  _myTermLine Scripted.fresh = ""
  ∧ _onTermDataInput_char (1%Z, Scripted.fresh) DEL = (1%Z, Scripted.fresh).
Proof.
  split; [reflexivity|].
  apply (delete_on_empty_line 1 Scripted.fresh). reflexivity.
Defined.

Lemma backslash_continues_line_witness :
  endsWith (_myTermLine (set_myTermLine ("vinit " +:+ char BACKSLASH)
                           Scripted.fresh)) (char BACKSLASH) = true
  ∧ _myTermLine
      (_onTermDataInput_char
         (0%Z, set_myTermLine ("vinit " +:+ char BACKSLASH) Scripted.fresh)
         CR).2 +:+ char BACKSLASH
    = "vinit " +:+ char BACKSLASH
  ∧ queue
      (_onTermDataInput_char
         (0%Z, set_myTermLine ("vinit " +:+ char BACKSLASH) Scripted.fresh)
         CR).2
    = queue Scripted.fresh.
Proof.
  split; [reflexivity|].
  destruct (backslash_continues_line 0
              (set_myTermLine ("vinit " +:+ char BACKSLASH) Scripted.fresh)
              eq_refl) as (_ & Hline & Hqueue & _).
  split; [symmetry; exact Hline | exact Hqueue].
Defined.

(** The same line in the revision of src/js/drawxterm.js: it ends with a
    backslash and is complete, and the carriage return queues it,
    backslash included, and empties the line. *)
Example sync_backslash_line_is_queued_run :
  DrawCommandQueue.pending
    (queue
       (DrawTermSync._onTermDataInput_char
          (0%Z, set_myTermLine ("vinit " +:+ char BACKSLASH) Scripted.fresh)
          CR).2)
  = [("vinit " +:+ char BACKSLASH, false)]
  ∧ _myTermLine
      (DrawTermSync._onTermDataInput_char
         (0%Z, set_myTermLine ("vinit " +:+ char BACKSLASH) Scripted.fresh)
         CR).2 = "".
Proof. by vm_compute. Qed.

Lemma echo_line_is_queued_witness :
  _myTermLine (_onTermDataInput ("echo" +:+ char CR) Scripted.fresh) = ""
  ∧ DrawCommandQueue.pending
      (queue (_onTermDataInput ("echo" +:+ char CR) Scripted.fresh))
    = [("echo", false)].
Proof.
  destruct (echo_line_is_queued Scripted.fresh
              (valid_new _ _) eq_refl eq_refl) as (Hline & Hpend & _).
  split; [exact Hline | exact Hpend].
Defined.

Lemma drain_scheduled_iff_queue_was_empty_witness :
  timeouts (_termQueueCommand "pwd" false Scripted.fresh)
  = [mkTimeout Run_termWasmLoadProgress 1000;
     mkTimeout Run_termPopCommandFromQueue 10]
  ∧ timeouts (_termQueueCommand "ls" true
                (_termQueueCommand "pwd" false Scripted.fresh))
    = [mkTimeout Run_termWasmLoadProgress 1000;
       mkTimeout Run_termPopCommandFromQueue 10].
Proof.
  split.
  - exact (proj1 (drain_scheduled_iff_queue_was_empty "pwd" false
                    Scripted.fresh (valid_new _ _))).
  - exact (proj1 (drain_scheduled_iff_queue_was_empty "ls" true
                    (_termQueueCommand "pwd" false Scripted.fresh)
                    (valid_termQueueCommand _ _ _ (valid_new _ _)))).
Defined.

Lemma history_up_up_down_witness :
  (_myTermLine
     (_onTermKeyEvent Scripted.ArrowUp
        (set_myTermHistory ["a"; "b"] Scripted.fresh)).2,
   _myTermLine
     (_onTermKeyEvent Scripted.ArrowUp
        (_onTermKeyEvent Scripted.ArrowUp
           (set_myTermHistory ["a"; "b"] Scripted.fresh)).2).2,
   _myTermLine
     (_onTermKeyEvent Scripted.ArrowDown
        (_onTermKeyEvent Scripted.ArrowUp
           (_onTermKeyEvent Scripted.ArrowUp
              (set_myTermHistory ["a"; "b"] Scripted.fresh)).2).2).2)
  = ("b", "a", "b").
Proof.
  exact (proj1 (history_up_up_down
                  (set_myTermHistory ["a"; "b"] Scripted.fresh)
                  Scripted.ArrowUp Scripted.ArrowDown
                  eq_refl eq_refl eq_refl eq_refl eq_refl eq_refl eq_refl)).
Defined.

(** C2, as the specification words it, fails: the three lines are not
    [a], [b], [a]. *)
Lemma history_up_up_down_is_not_a_b_a :
  (_myTermLine
     (_onTermKeyEvent Scripted.ArrowUp
        (set_myTermHistory ["a"; "b"] Scripted.fresh)).2,
   _myTermLine
     (_onTermKeyEvent Scripted.ArrowUp
        (_onTermKeyEvent Scripted.ArrowUp
           (set_myTermHistory ["a"; "b"] Scripted.fresh)).2).2,
   _myTermLine
     (_onTermKeyEvent Scripted.ArrowDown
        (_onTermKeyEvent Scripted.ArrowUp
           (_onTermKeyEvent Scripted.ArrowUp
              (set_myTermHistory ["a"; "b"] Scripted.fresh)).2).2).2)
  ≠ ("a", "b", "a").
Proof. vm_compute. discriminate. Qed.

Lemma rejected_command_does_not_stop_drain_witness :
  DrawCommandQueue.pending (queue Scripted.two_queued_download)
  = [("download ", false); ("pwd", true)]
  ∧ timeouts (_termPopCommandFromQueue Scripted.two_queued_download)
    = [mkTimeout Run_termWasmLoadProgress 1000;
       mkTimeout Run_termPopCommandFromQueue 10]
  ∧ DrawCommandQueue.pending
      (queue (_termPopCommandFromQueue Scripted.two_queued_download))
    = [("pwd", true)].
Proof.
  assert (valid Scripted.two_queued_download) as Hvalid.
  { apply valid_set_timeouts, valid_onTermDataInput, valid_new. }
  assert (DrawCommandQueue.pending (queue Scripted.two_queued_download)
          = [("download ", false); ("pwd", true)]) as Hpend
    by (vm_compute; reflexivity).
  assert (termEvaluateCommand "download "
            (let s0 := set_queue
                         (DrawCommandQueue.pop
                            (queue Scripted.two_queued_download)).2
                         Scripted.two_queued_download in
             if false then terminalWrite "download " s0 else s0)
          = (Settled (Rejected "Error: Command evaluation failed"),
             (termEvaluateCommand "download "
                (set_queue
                   (DrawCommandQueue.pop (queue Scripted.two_queued_download)).2
                   Scripted.two_queued_download)).2)) as Heval
    by (vm_compute; reflexivity).
  split; [exact Hpend|].
  destruct (rejected_command_does_not_stop_drain _ _ _ _ _ _ _ _
              Hvalid Hpend Heval) as (_ & _ & Htime & Hpend' & _).
  split; [exact Htime | exact Hpend'].
Defined.

End Runs.

(** * Further properties of the line editor *)

Section InputFacts.
Context `{Host}.
Import JsString DrawTerm.

#[local] Arguments DrawCommandQueue.add : simpl never.
#[local] Arguments DrawCommandQueue.pop : simpl never.

Lemma string_of_list_ascii_app (cs1 cs2 : list ascii) :
  string_of_list_ascii (cs1 ++ cs2)
  = string_of_list_ascii cs1 +:+ string_of_list_ascii cs2.
Proof.
  induction cs1 as [|c cs1 IH]; [done|].
  unfold String.append in *. simpl. by rewrite IH.
Qed.

(** Queueing writes nothing and leaves the line and the collaborators. *)
Lemma termQueueCommand_frame theCmd theToEcho (s : t) :
  let s' := _termQueueCommand theCmd theToEcho s in
  _myTerm s' = _myTerm s
  ∧ _myTermLine s' = _myTermLine s
  ∧ _myTermHistory s' = _myTermHistory s
  ∧ _myTermHistoryPos s' = _myTermHistoryPos s
  ∧ _myTermInCounter s' = _myTermInCounter s
  ∧ wasm s' = wasm s
  ∧ asked s' = asked s.
Proof.
  unfold _termQueueCommand, new_DrawCommand. cbn zeta.
  by destruct (DrawCommandQueue.extent _ =? 1)%Z.
Qed.

(** X1. A text that holds neither a deletion character nor a carriage
    return is appended to the line as it is, and each of its characters
    is written to the terminal, one write per character, in order;
    nothing else changes: no command is queued, no timeout is set. *)
Theorem typed_text_is_appended (s : t) (theText : string) :
  Forall (λ c, c ≠ DEL ∧ c ≠ CR) (list_ascii_of_string theText) →
  _onTermDataInput theText s
  = set_myTermLine (_myTermLine s +:+ theText)
      (set_myTerm
         ((λ aWritten, aWritten ++ (char <$> list_ascii_of_string theText))
          <$> _myTerm s) s).
Proof.
  intros Htext. unfold _onTermDataInput.
  rewrite typed_text by done. simpl.
  by rewrite string_of_list_ascii_of_string.
Qed.

(** As many deletion characters as the line has characters after
    [theBase], while no line of the input is completed yet: they are
    erased on the terminal one by one and the line is [theBase] again. *)
Lemma deleted_text (s : t) (theBase : string) (cs : list ascii) :
  _myTermLine s = theBase +:+ string_of_list_ascii cs →
  foldl _onTermDataInput_char (0%Z, s) (replicate (List.length cs) DEL)
  = (0%Z,
     set_myTermLine theBase
       (set_myTerm
          ((λ aWritten, aWritten ++ replicate (List.length cs) ERASE)
           <$> _myTerm s) s)).
Proof.
  revert s. induction cs as [|c cs IH] using rev_ind; intros s Hline.
  - simpl in *. rewrite append_empty_r in Hline. f_equal.
    destruct s as [tm ? ? aLine ? ? ? ? ? ? ? ? ?]. simpl in *. subst aLine.
    unfold set_myTermLine, set_myTerm. simpl. f_equal.
    destruct tm; simpl; [|done]. by rewrite app_nil_r.
  - rewrite length_app. simpl List.length.
    replace (List.length cs + 1)%nat with (S (List.length cs)) by lia.
    cbn [replicate foldl].
    rewrite string_of_list_ascii_app, <-append_assoc in Hline.
    change (string_of_list_ascii [c]) with (char c) in Hline.
    assert (_onTermDataInput_char (0%Z, s) DEL
            = (0%Z, set_myTermLine (theBase +:+ string_of_list_ascii cs)
                      (terminalWrite ERASE s))) as ->.
    { unfold _onTermDataInput_char. simpl.
      destruct (quiet_terminalWrite ERASE s) as (Hl & _). rewrite Hl, Hline.
      unfold JsString.length. rewrite length_snoc.
      assert ((Z.of_nat (S (String.length (theBase +:+ string_of_list_ascii cs)))
               >? 0)%Z = true) as -> by (apply Z.gtb_lt; lia).
      by rewrite chopped_snoc. }
    rewrite (IH (set_myTermLine (theBase +:+ string_of_list_ascii cs)
                   (terminalWrite ERASE s))) by done.
    f_equal. destruct s as [tm ? ? aLine ? ? ? ? ? ? ? ? ?].
    unfold set_myTermLine, set_myTerm, terminalWrite. simpl.
    destruct tm; simpl; [|done].
    by rewrite <-app_assoc.
Qed.

(** X2. Typing and deleting undo each other: a text without deletion
    character or carriage return, followed by as many deletion
    characters as it has characters, leaves the line as it was. The
    terminal received the characters and then as many erasures; nothing
    else changed. *)
Theorem typed_then_deleted (s : t) (theText : string) :
  Forall (λ c, c ≠ DEL ∧ c ≠ CR) (list_ascii_of_string theText) →
  _onTermDataInput
    (theText +:+ string_of_list_ascii (replicate (String.length theText) DEL)) s
  = set_myTermLine (_myTermLine s)
      (set_myTerm
         ((λ aWritten,
             aWritten ++ (char <$> list_ascii_of_string theText)
             ++ replicate (String.length theText) ERASE)
          <$> _myTerm s) s).
Proof.
  intros Htext. unfold _onTermDataInput.
  assert (list_ascii_of_string
            (theText +:+ string_of_list_ascii (replicate (String.length theText) DEL))
          = list_ascii_of_string theText
            ++ replicate (List.length (list_ascii_of_string theText)) DEL) as ->.
  { rewrite <-(string_of_list_ascii_of_string theText) at 1.
    rewrite <-string_of_list_ascii_app, list_ascii_of_string_of_list_ascii.
    f_equal. f_equal. clear. induction theText; simpl; by f_equal. }
  rewrite foldl_app, typed_text by done. cbn [Z.eqb].
  rewrite (deleted_text _ (_myTermLine s)) by done.
  assert (List.length (list_ascii_of_string theText) = String.length theText) as ->.
  { clear. induction theText; simpl; by f_equal. }
  cbn [snd]. destruct s as [tm ? ? aLine ? ? ? ? ? ? ? ? ?].
  unfold set_myTermLine, set_myTerm. simpl. f_equal.
  destruct tm; simpl; [|done]. by rewrite <-app_assoc.
Qed.

(** X3. A carriage return on a line that carries no continuation marker
    and that the interpreter finds incomplete does not complete it: the
    line break is appended to the line as the two characters LF CR, no
    command is queued, no timeout is set, and the continuation prompt is
    written when no line of this input was completed before. *)
Theorem incomplete_line_continues (aNbNewLines : Z) (s : t) :
  endsWith (_myTermLine s) (char BACKSLASH) = false →
  isComplete (_myTermLine s) (wasm s) = false →
  let r := _onTermDataInput_char (aNbNewLines, s) CR in
  r.1 = aNbNewLines
  ∧ _myTermLine r.2 = _myTermLine s +:+ LFCR
  ∧ queue r.2 = queue s
  ∧ timeouts r.2 = timeouts s
  ∧ _myTerm r.2
    = (if (aNbNewLines =? 0)%Z
       then (λ aWritten, aWritten ++ [LFCR +:+ "> "]) <$> _myTerm s
       else _myTerm s).
Proof.
  intros Hends Hcomplete. unfold _onTermDataInput_char.
  change (Ascii.eqb CR DEL) with false. change (Ascii.eqb CR CR) with true.
  cbn iota. cbn zeta. rewrite Hends, Hcomplete. cbn [negb].
  destruct (aNbNewLines =? 0)%Z; cbn [fst snd]; [|done].
  unfold terminalWrite. cbn [_myTerm set_myTermLine].
  destruct (_myTerm s) eqn:Hterm; split_and!; try done;
    simpl; by rewrite Hterm.
Qed.

(** A line typed on an empty line and closed by a carriage return, when
    [aNbNewLines] lines of the input were completed before. *)
Lemma typed_line_queued_at (aNbNewLines : Z) (s : t) (cs : list ascii) l :
  DrawCommandQueue.wf (objects s) (_myCmdQueue s) l →
  _myTermLine s = "" →
  Forall (λ c, c ≠ DEL ∧ c ≠ CR) cs →
  endsWith (string_of_list_ascii cs) (char BACKSLASH) = false →
  isComplete (string_of_list_ascii cs) (wasm s) = true →
  ∃ s', foldl _onTermDataInput_char (aNbNewLines, s) (cs ++ [CR])
        = ((aNbNewLines + 1)%Z, s')
      ∧ DrawCommandQueue.wf (objects s') (_myCmdQueue s')
          (l ++ [List.length (objects s)])
      ∧ _myTermLine s' = ""
      ∧ wasm s' = wasm s
      ∧ DrawCommandQueue.pending (queue s')
        = DrawCommandQueue.pending (queue s)
          ++ [(string_of_list_ascii cs, negb (aNbNewLines =? 0)%Z)]
      ∧ timeouts s'
        = timeouts s
          ++ (if DrawCommandQueue.isEmpty (_myCmdQueue s)
              then [mkTimeout Run_termPopCommandFromQueue (_myCmdTimeout s)]
              else [])
      ∧ _myTerm s'
        = (if (aNbNewLines =? 0)%Z
           then (λ aWritten, aWritten ++ (char <$> cs)) <$> _myTerm s
           else _myTerm s).
Proof.
  intros Hwf Hline Hcs Hends Hcomplete.
  rewrite foldl_app, typed_text by done.
  rewrite Hline. cbn [foldl].
  rewrite typed_return by done.
  match goal with
  | |- context [_termQueueCommand ?c ?e ?x] =>
      destruct (termQueueCommand_spec c e x l Hwf)
        as (Hwf' & Hpend & Htime & Hl & Hterm & Hwasm)
  end.
  eexists. split; [reflexivity|]. by split_and!.
Qed.

(** The echo flags of the lines of one input: false for a line that is
    the first to be completed, true for the others. *)
Lemma flags_of_lines (aNbNewLines : Z) (theLines : list (list ascii)) :
  (0 ≤ aNbNewLines)%Z →
  ∀ (s : t) l,
  DrawCommandQueue.wf (objects s) (_myCmdQueue s) l →
  _myTermLine s = "" →
  Forall (λ cs, Forall (λ c, c ≠ DEL ∧ c ≠ CR) cs
                ∧ endsWith (string_of_list_ascii cs) (char BACKSLASH) = false
                ∧ isComplete (string_of_list_ascii cs) (wasm s) = true)
         theLines →
  ∃ s' l', foldl _onTermDataInput_char (aNbNewLines, s)
             (concat ((λ cs, cs ++ [CR]) <$> theLines))
           = ((aNbNewLines + Z.of_nat (List.length theLines))%Z, s')
      ∧ DrawCommandQueue.wf (objects s') (_myCmdQueue s') l'
      ∧ _myTermLine s' = ""
      ∧ DrawCommandQueue.pending (queue s')
        = DrawCommandQueue.pending (queue s)
          ++ match theLines with
             | [] => []
             | cs :: theRest =>
                 (string_of_list_ascii cs, negb (aNbNewLines =? 0)%Z)
                 :: ((λ cs', (string_of_list_ascii cs', true)) <$> theRest)
             end
      ∧ timeouts s'
        = timeouts s
          ++ (if DrawCommandQueue.isEmpty (_myCmdQueue s)
                 && negb (bool_decide (theLines = []))
              then [mkTimeout Run_termPopCommandFromQueue (_myCmdTimeout s)]
              else [])
      ∧ _myCmdTimeout s' = _myCmdTimeout s
      ∧ _myTerm s'
        = match theLines with
          | [] => _myTerm s
          | cs :: _ =>
              if (aNbNewLines =? 0)%Z
              then (λ aWritten, aWritten ++ (char <$> cs)) <$> _myTerm s
              else _myTerm s
          end.
Proof.
  intros Hn s l Hwf Hline Hlines. revert aNbNewLines Hn s l Hwf Hline Hlines.
  induction theLines as [|cs theLines IH]; intros n Hn s l Hwf Hline Hlines.
  - exists s, l. simpl. rewrite Z.add_0_r, !app_nil_r, andb_false_r.
    by rewrite app_nil_r.
  - apply Forall_cons in Hlines as [(Hcs & Hends & Hcomplete) Hlines].
    destruct (typed_line_queued_at n s cs l Hwf Hline Hcs Hends Hcomplete)
      as (s1 & Hstep & Hwf1 & Hline1 & Hwasm1 & Hpend1 & Htime1 & Hterm1).
    cbn [fmap list_fmap concat]. rewrite foldl_app, Hstep.
    assert (_myCmdTimeout s1 = _myCmdTimeout s) as Htmo1.
    { rewrite foldl_app, typed_text in Hstep by done.
      cbn [foldl] in Hstep. rewrite typed_return in Hstep.
      - injection Hstep as <-. unfold _termQueueCommand, new_DrawCommand.
        cbn zeta. by destruct (DrawCommandQueue.extent _ =? 1)%Z.
      - cbn [_myTermLine set_myTermLine]. by rewrite Hline.
      - cbn [_myTermLine set_myTermLine wasm set_myTerm]. by rewrite Hline. }
    destruct (IH (n + 1)%Z ltac:(lia) s1 _ Hwf1 Hline1) as
      (s' & l' & Hrun & Hwf' & Hline' & Hpend' & Htime' & Htmo' & Hterm').
    { rewrite Hwasm1. exact Hlines. }
    exists s', l'. split_and!.
    + rewrite Hrun. f_equal. simpl List.length. lia.
    + done.
    + done.
    + rewrite Hpend', Hpend1, <-app_assoc. f_equal.
      destruct theLines as [|cs' theLines]; [done|].
      cbn [fmap list_fmap app]. f_equal. f_equal. f_equal.
      apply negb_true_iff, Z.eqb_neq. lia.
    + rewrite Htime', Htime1, <-app_assoc. f_equal.
      assert (DrawCommandQueue.isEmpty (_myCmdQueue s1) = false) as ->.
      { pose proof (wf_isEmpty _ _ _ Hwf1) as Hiff.
        destruct (DrawCommandQueue.isEmpty (_myCmdQueue s1)); [|done].
        destruct Hiff as [Hnil _]. specialize (Hnil eq_refl).
        by destruct l. }
      rewrite Htmo1. cbn [andb]. rewrite app_nil_r.
      rewrite bool_decide_eq_false_2 by done. by rewrite andb_true_r.
    + by rewrite Htmo', Htmo1.
    + rewrite Hterm'. destruct theLines as [|cs' theLines]; [done|].
      assert ((n + 1 =? 0)%Z = false) as -> by (apply Z.eqb_neq; lia).
      done.
Qed.

(** X4. An input made of several lines, each closed by a carriage
    return, each complete and without continuation marker, received on
    an empty line: the lines are queued in their order behind the
    commands already waiting, the first with the echo flag false and
    the others with the echo flag true; only the characters of the
    first line are written at this time; one drain is scheduled if the
    queue was empty, none otherwise; the line is empty at the end. *)
Theorem lines_are_queued_in_order (s : t) (theLines : list string) :
  valid s →
  _myTermLine s = "" →
  Forall (λ theLine,
            Forall (λ c, c ≠ DEL ∧ c ≠ CR) (list_ascii_of_string theLine)
            ∧ endsWith theLine (char BACKSLASH) = false
            ∧ isComplete theLine (wasm s) = true) theLines →
  let s' := _onTermDataInput
              (string_of_list_ascii
                 (concat ((λ theLine, list_ascii_of_string theLine ++ [CR])
                          <$> theLines))) s in
  _myTermLine s' = ""
  ∧ valid s'
  ∧ DrawCommandQueue.pending (queue s')
    = DrawCommandQueue.pending (queue s)
      ++ match theLines with
         | [] => []
         | theFirst :: theRest =>
             (theFirst, false) :: ((λ theLine, (theLine, true)) <$> theRest)
         end
  ∧ timeouts s'
    = timeouts s
      ++ (if DrawCommandQueue.isEmpty (_myCmdQueue s)
             && negb (bool_decide (theLines = []))
          then [mkTimeout Run_termPopCommandFromQueue (_myCmdTimeout s)]
          else [])
  ∧ _myTerm s'
    = match theLines with
      | [] => _myTerm s
      | theFirst :: _ =>
          (λ aWritten, aWritten ++ (char <$> list_ascii_of_string theFirst))
          <$> _myTerm s
      end.
Proof.
  intros [l Hwf] Hline Hlines. unfold _onTermDataInput.
  rewrite list_ascii_of_string_of_list_ascii.
  destruct (flags_of_lines 0 (list_ascii_of_string <$> theLines) ltac:(lia) s l Hwf Hline)
    as (s' & l' & Hrun & Hwf' & Hline' & Hpend' & Htime' & _ & Hterm').
  { apply Forall_fmap. eapply Forall_impl; [exact Hlines|].
    intros theLine (? & ? & ?). cbn. by rewrite string_of_list_ascii_of_string. }
  rewrite <-list_fmap_compose in Hrun. cbn zeta.
  unfold compose in Hrun. rewrite Hrun. cbn [snd].
  split_and!.
  - done.
  - by exists l'.
  - rewrite Hpend'. f_equal. destruct theLines as [|theFirst theRest]; [done|].
    cbn [fmap list_fmap]. rewrite string_of_list_ascii_of_string. f_equal.
    rewrite <-list_fmap_compose. apply list_fmap_ext. intros ? theLine _.
    cbn. by rewrite string_of_list_ascii_of_string.
  - rewrite Htime'. f_equal. destruct theLines; done.
  - rewrite Hterm'. destruct theLines; done.
Qed.

(** X5. Once a line of the input has been completed, the rest of this
    input is not written to the terminal: whatever the character, the
    texts written stay as they were. *)
Theorem no_echo_after_first_line (aNbNewLines : Z) (s : t) (c : ascii) :
  aNbNewLines ≠ 0%Z →
  _myTerm (_onTermDataInput_char (aNbNewLines, s) c).2 = _myTerm s.
Proof.
  intros Hn. apply Z.eqb_neq in Hn. unfold _onTermDataInput_char.
  rewrite Hn. repeat case_match; cbn [snd]; try done.
  by destruct (termQueueCommand_frame (_myTermLine s) (negb false)
                 (set_myTermLine "" s)) as (-> & _).
Qed.

End InputFacts.

(** * Further properties of the history *)

Section HistoryFacts.
Context `{Host}.
Import JsString DrawTerm.

(** The position an arrow moves the cursor to, in a history of
    [theNbHist] entries. *)
Local Abbreviation moved theCode thePos theNbHist :=
  (if negb (thePos =? -1)%Z
   then Z.max (Z.min (thePos + (if (theCode =? 38)%Z then -1 else 1))
                     (theNbHist - 1)) 0
   else (theNbHist - 1)%Z).

(** An arrow pressed on a history that is not empty, as a whole. *)
Lemma arrow_spec (theEvent : KeyboardEvent) (s : t) :
  keyCode theEvent = 38%Z ∨ keyCode theEvent = 40%Z →
  type theEvent = "keydown" →
  _myTermHistory s ≠ [] →
  let aPos := moved (keyCode theEvent) (_myTermHistoryPos s)
                (Z.of_nat (List.length (_myTermHistory s))) in
  ∃ aHist,
    _myTermHistory s !! Z.to_nat aPos = Some aHist
    ∧ (0 ≤ aPos < Z.of_nat (List.length (_myTermHistory s)))%Z
    ∧ _onTermKeyEvent theEvent s
      = (false,
         set_myTermLine aHist
           (set_myTermHistoryPos aPos
              (set_myTerm
                 ((λ aWritten,
                     aWritten
                     ++ replicate (String.length (_myTermLine s)) ERASE
                     ++ [aHist]) <$> _myTerm s) s))).
Proof.
  intros Hcode Htype Hhist. cbn zeta. unfold _onTermKeyEvent.
  assert ((keyCode theEvent =? 38)%Z || (keyCode theEvent =? 40)%Z = true) as ->.
  { destruct Hcode as [-> | ->]; done. }
  rewrite Htype. cbn [String.eqb Ascii.eqb Bool.eqb negb]. cbn iota. cbn zeta.
  rewrite clearInput_spec.
  set (s0 := set_myTermLine "" _).
  change (_myTermHistory s0) with (_myTermHistory s).
  change (_myTermHistoryPos s0) with (_myTermHistoryPos s).
  assert (0 < Z.of_nat (List.length (_myTermHistory s)))%Z as Hlen.
  { destruct (_myTermHistory s); [done|]. simpl List.length. lia. }
  assert ((Z.of_nat (List.length (_myTermHistory s)) <=? 0)%Z = false) as ->
    by (apply Z.leb_gt; lia).
  set (aPos := if negb (_myTermHistoryPos s =? -1)%Z then _ else _).
  assert (0 ≤ aPos < Z.of_nat (List.length (_myTermHistory s)))%Z as Hpos.
  { subst aPos. destruct (negb _); lia. }
  destruct (lookup_lt_is_Some_2 (_myTermHistory s) (Z.to_nat aPos)) as [aHist Ha];
    [lia|].
  exists aHist. split; [done|]. split; [done|].
  change (_myTermHistory (set_myTermHistoryPos aPos s0)) with (_myTermHistory s).
  rewrite Ha. cbn [default from_option id]. f_equal.
  subst s0. destruct s as [tm ? ? aLine ? ? ? ? ? ? ? ? ?].
  unfold terminalWrite, set_myTermLine, set_myTermHistoryPos, set_myTerm. simpl.
  destruct tm; simpl; [|done]. by rewrite <-app_assoc.
Qed.

(** X6. An arrow pressed (keydown) on a history that is not empty.
    From no cursor, either arrow selects the most recent entry;
    otherwise ArrowUp moves the cursor one entry back and ArrowDown one
    entry forward, without leaving the history. The line becomes the
    entry under the cursor; the terminal receives one erasure per
    character of the former line and then the entry; the history is
    unchanged and the key is not passed on. *)
Theorem arrow_recalls_entry (theEvent : KeyboardEvent) (s : t) :
  keyCode theEvent = 38%Z ∨ keyCode theEvent = 40%Z →
  type theEvent = "keydown" →
  _myTermHistory s ≠ [] →
  let r := _onTermKeyEvent theEvent s in
  let aNbHist := Z.of_nat (List.length (_myTermHistory s)) in
  r.1 = false
  ∧ _myTermHistoryPos r.2
    = (if (_myTermHistoryPos s =? -1)%Z then aNbHist - 1
       else if (keyCode theEvent =? 38)%Z
            then Z.max (Z.min (_myTermHistoryPos s - 1) (aNbHist - 1)) 0
            else Z.max (Z.min (_myTermHistoryPos s + 1) (aNbHist - 1)) 0)%Z
  ∧ (0 ≤ _myTermHistoryPos r.2 < aNbHist)%Z
  ∧ _myTermHistory s !! Z.to_nat (_myTermHistoryPos r.2) = Some (_myTermLine r.2)
  ∧ _myTermHistory r.2 = _myTermHistory s
  ∧ _myTerm r.2
    = (λ aWritten,
         aWritten ++ replicate (String.length (_myTermLine s)) ERASE
         ++ [_myTermLine r.2]) <$> _myTerm s.
Proof.
  intros Hcode Htype Hhist.
  destruct (arrow_spec theEvent s Hcode Htype Hhist) as (aHist & Ha & Hpos & ->).
  cbn zeta. cbn [fst snd _myTermHistoryPos _myTermLine _myTermHistory _myTerm
                 set_myTermLine set_myTermHistoryPos set_myTerm].
  split_and!; try done; try lia.
  destruct (_myTermHistoryPos s =? -1)%Z; [done|].
  by destruct (keyCode theEvent =? 38)%Z.
Qed.

(** An arrow pressed on an empty history, as a whole. *)
Lemma arrow_empty_spec (theEvent : KeyboardEvent) (s : t) :
  keyCode theEvent = 38%Z ∨ keyCode theEvent = 40%Z →
  type theEvent = "keydown" →
  _myTermHistory s = [] →
  _onTermKeyEvent theEvent s
  = (false,
     set_myTermLine ""
       (set_myTerm
          ((λ aWritten,
              aWritten ++ replicate (String.length (_myTermLine s)) ERASE)
           <$> _myTerm s) s)).
Proof.
  intros Hcode Htype Hhist. unfold _onTermKeyEvent.
  assert ((keyCode theEvent =? 38)%Z || (keyCode theEvent =? 40)%Z = true) as ->.
  { destruct Hcode as [-> | ->]; done. }
  rewrite Htype. cbn [String.eqb Ascii.eqb Bool.eqb negb]. cbn iota. cbn zeta.
  rewrite clearInput_spec.
  cbn [_myTermHistory set_myTermLine set_myTerm]. by rewrite Hhist.
Qed.

(** What no key event changes, and what only the arrows change. *)
Lemma onTermKeyEvent_frame (theEvent : KeyboardEvent) (s : t) :
  let r := _onTermKeyEvent theEvent s in
  queue r.2 = queue s
  ∧ timeouts r.2 = timeouts s
  ∧ _myTermHistory r.2 = _myTermHistory s
  ∧ _myTermInCounter r.2 = _myTermInCounter s
  ∧ wasm r.2 = wasm s
  ∧ _myIsWasmLoaded r.2 = _myIsWasmLoaded s
  ∧ awaited r.2 = awaited s
  ∧ (keyCode theEvent ≠ 38%Z → keyCode theEvent ≠ 40%Z →
     _myTermLine r.2 = _myTermLine s
     ∧ _myTermHistoryPos r.2 = _myTermHistoryPos s
     ∧ _myTerm r.2 = _myTerm s).
Proof.
  cbn zeta.
  destruct (decide (keyCode theEvent = 38%Z ∨ keyCode theEvent = 40%Z))
    as [Hcode|Hcode].
  - destruct (String.eqb_spec (type theEvent) "keydown") as [Htype|Htype].
    + destruct (decide (_myTermHistory s = [])) as [Hhist|Hhist].
      * rewrite arrow_empty_spec by done.
        split_and!; try done; intros; destruct Hcode; done.
      * destruct (arrow_spec theEvent s Hcode Htype Hhist) as (? & _ & _ & ->).
        split_and!; try done; intros; destruct Hcode; done.
    + unfold _onTermKeyEvent.
      assert ((keyCode theEvent =? 38)%Z || (keyCode theEvent =? 40)%Z = true) as ->.
      { destruct Hcode as [-> | ->]; done. }
      apply String.eqb_neq in Htype. rewrite Htype.
      split_and!; try done; intros; destruct Hcode; done.
  - unfold _onTermKeyEvent.
    assert ((keyCode theEvent =? 38)%Z || (keyCode theEvent =? 40)%Z = false) as ->.
    { apply orb_false_iff. split; apply Z.eqb_neq; intros ?; apply Hcode; auto. }
    repeat case_match; by split_and!.
Qed.

(** X7. An arrow pressed (keydown) while the history is empty erases
    the line, on the terminal and in the editor, and selects nothing:
    the cursor stays where it was, no entry is written, and the key is
    not passed on. *)
Theorem arrow_on_empty_history (theEvent : KeyboardEvent) (s : t) :
  keyCode theEvent = 38%Z ∨ keyCode theEvent = 40%Z →
  type theEvent = "keydown" →
  _myTermHistory s = [] →
  let r := _onTermKeyEvent theEvent s in
  r.1 = false
  ∧ _myTermLine r.2 = ""
  ∧ _myTermHistoryPos r.2 = _myTermHistoryPos s
  ∧ _myTermHistory r.2 = []
  ∧ _myTerm r.2
    = (λ aWritten, aWritten ++ replicate (String.length (_myTermLine s)) ERASE)
      <$> _myTerm s.
Proof.
  intros Hcode Htype Hhist. cbn zeta.
  by rewrite (arrow_empty_spec theEvent s Hcode Htype Hhist).
Qed.

(** X8. The key handler never touches the queue, the timeouts, the
    history, the counter of prompts or the collaborators, whatever the
    event; and an event that is not an arrow changes neither the line,
    nor the cursor, nor the texts written. *)
Theorem key_event_frame (theEvent : KeyboardEvent) (s : t) :
  let r := _onTermKeyEvent theEvent s in
  queue r.2 = queue s
  ∧ timeouts r.2 = timeouts s
  ∧ _myTermHistory r.2 = _myTermHistory s
  ∧ _myTermInCounter r.2 = _myTermInCounter s
  ∧ wasm r.2 = wasm s
  ∧ (keyCode theEvent ≠ 38%Z → keyCode theEvent ≠ 40%Z →
     _myTermLine r.2 = _myTermLine s
     ∧ _myTermHistoryPos r.2 = _myTermHistoryPos s
     ∧ _myTerm r.2 = _myTerm s).
Proof.
  destruct (onTermKeyEvent_frame theEvent s) as (? & ? & ? & ? & ? & _ & _ & ?).
  by split_and!.
Qed.

(** X9. A command that was evaluated is the one the arrows recall: after
    the evaluation of a command that is not empty, whether it succeeded
    or not, an arrow pressed (keydown) puts this command on the line. *)
Theorem evaluated_command_is_recalled
    (theCmd : string) (theEvent : KeyboardEvent) (s : t) :
  theCmd ≠ "" →
  keyCode theEvent = 38%Z ∨ keyCode theEvent = 40%Z →
  type theEvent = "keydown" →
  _myTermLine (_onTermKeyEvent theEvent (termEvaluateCommand theCmd s).2).2
  = theCmd.
Proof.
  intros Hcmd Hcode Htype.
  destruct (termEvaluateCommand_records theCmd s Hcmd) as (Hhist & Hpos & _).
  cbn zeta in Hhist, Hpos. set (s1 := (termEvaluateCommand theCmd s).2) in *.
  destruct (arrow_spec theEvent s1 Hcode Htype) as (aHist & Ha & _ & ->).
  { rewrite Hhist. by destruct (_myTermHistory s). }
  cbn [snd _myTermLine set_myTermLine].
  rewrite Hpos, Hhist in Ha. change (-1 =? -1)%Z with true in Ha.
  cbn [negb] in Ha.
  rewrite length_app in Ha. simpl List.length in Ha.
  replace (Z.to_nat (Z.of_nat (List.length (_myTermHistory s) + 1) - 1))
    with (List.length (_myTermHistory s)) in Ha by lia.
  rewrite (list_lookup_middle _ [] theCmd _ eq_refl) in Ha. by injection Ha.
Qed.

End HistoryFacts.

(** * Properties of the printing methods *)

Section PrintFacts.
Context `{Host}.
Import JsString JsText DrawTerm.

Lemma lfHasCr_replaceLF (s : string) : lfHasCr (replaceLF s) = true.
Proof.
  induction s as [|c s IH]; [done|].
  simpl. destruct (Ascii.eqb c LF) eqn:Hc; simpl.
  - by rewrite IH.
  - rewrite Hc. done.
Qed.

Local Abbreviation written_since s s' theTexts :=
  (_myTerm s' = (λ aWritten, aWritten ++ theTexts) <$> _myTerm s).

Lemma written_terminalWrite theText (s : t) :
  written_since s (terminalWrite theText s) [theText].
Proof. unfold terminalWrite. by destruct (_myTerm s) eqn:Hterm; simpl. Qed.

Lemma written_terminalWriteMultiline theText (s : t) :
  written_since s (terminalWriteMultiline theText s) [replaceLF theText].
Proof. unfold terminalWriteMultiline. by destruct (_myTerm s) eqn:Hterm; simpl. Qed.

Lemma written_trans (s1 s2 s3 : t) l1 l2 :
  written_since s1 s2 l1 → written_since s2 s3 l2 →
  written_since s1 s3 (l1 ++ l2).
Proof.
  intros H1 H2. rewrite H2, H1.
  destruct (_myTerm s1); simpl; [|done]. by rewrite app_assoc.
Qed.

(** X10. Whatever text the interpreter prints, and with whatever
    gravity, the terminal receives it with a carriage return after
    each of its line feeds: [printMessage] writes one text in the four
    styled cases and two in the plain one, and in each text written
    every LF is followed by CR. *)
Theorem printed_line_feeds_return (theText : string) (theGravity : Z) (s : t) :
  ∃ theTexts,
    _myTerm (printMessage theText theGravity s)
    = (λ aWritten, aWritten ++ theTexts) <$> _myTerm s
    ∧ Forall (λ aText, lfHasCr aText = true) theTexts
    ∧ List.length theTexts
      = (if bool_decide (0 ≤ theGravity ≤ 4)%Z then 1 else 2).
Proof.
  unfold printMessage.
  destruct (theGravity =? 0)%Z eqn:H0;
    [|destruct (theGravity =? 1)%Z eqn:H1;
      [|destruct (theGravity =? 2)%Z eqn:H2;
        [|destruct ((theGravity =? 3)%Z || (theGravity =? 4)%Z) eqn:H3]]].
  1-4: eexists [_]; split_and!;
    [ apply written_terminalWriteMultiline
    | repeat constructor; apply lfHasCr_replaceLF
    | rewrite bool_decide_eq_true_2; [done|];
      try apply orb_true_iff in H3; lia ].
  exists [LFCR; replaceLF theText]. split_and!.
  - apply (written_trans s (terminalWrite LFCR s) _ [LFCR] [replaceLF theText]).
    + apply written_terminalWrite.
    + apply written_terminalWriteMultiline.
  - repeat constructor. apply lfHasCr_replaceLF.
  - rewrite bool_decide_eq_false_2; [done|].
    apply orb_false_iff in H3. lia.
Qed.

End PrintFacts.

(** * Properties of the commands implemented in JavaScript *)

Section CommandFacts.
Import JsString JsText Commands.

Lemma append_cons c (s1 s2 : string) : String c s1 +:+ s2 = String c (s1 +:+ s2).
Proof. done. Qed.

Lemma split_length sep (s : string) :
  List.length (split sep s) = S (occurrences sep s).
Proof.
  induction s as [|c s IH]; [done|]. simpl.
  destruct (Ascii.eqb c sep); simpl; [by rewrite IH|].
  destruct (split sep s); simpl in *; lia.
Qed.

Lemma split_cons sep (s : string) : ∃ aFirst aRest, split sep s = aFirst :: aRest.
Proof.
  pose proof (split_length sep s) as Hlen.
  destruct (split sep s) as [|aFirst aRest]; [done|]. by eexists _, _.
Qed.

(** No piece holds the separator. *)
Lemma split_pieces sep (s : string) :
  Forall (λ aPiece, occurrences sep aPiece = 0) (split sep s).
Proof.
  induction s as [|c s IH]; simpl; [by repeat constructor|].
  destruct (Ascii.eqb c sep) eqn:Hc; [by constructor|].
  destruct (split sep s) as [|aFirst aRest]; simpl.
  - repeat constructor. simpl. by rewrite Hc.
  - inversion IH; subst. constructor; [|done]. simpl. by rewrite Hc.
Qed.

(** The last piece ends the string, after a separator if there is
    one. *)
Lemma split_last sep (s : string) :
  occurrences sep (lastItem (split sep s)) = 0
  ∧ (if decide (occurrences sep s = 0) then lastItem (split sep s) = s
     else ∃ aDir, s = aDir +:+ String sep (lastItem (split sep s))).
Proof.
  split.
  { pose proof (split_pieces sep s) as Hall.
    destruct (split_cons sep s) as (a & l & Heq). rewrite Heq in *.
    unfold lastItem. destruct (last (a :: l)) as [x|] eqn:Hlast; [|done].
    simpl. apply last_Some_elem_of in Hlast.
    by eapply (proj1 (Forall_forall _ _)) in Hall. }
  induction s as [|c s IH]; [done|].
  simpl. destruct (Ascii.eqb c sep) eqn:Hc.
  - apply Ascii.eqb_eq in Hc. subst c.
    destruct (decide (1 + _ = 0)) as [Hz|_]; [lia|].
    destruct (split_cons sep s) as (a & l & Heq). rewrite Heq in *.
    unfold lastItem in *.
    change (last ("" :: a :: l)) with (last (a :: l)).
    destruct (decide (occurrences sep s = 0)) as [Hz|Hnz].
    + exists "". by rewrite IH.
    + destruct IH as [aDir IH]. exists (String sep aDir).
      by rewrite append_cons, <-IH.
  - destruct (split_cons sep s) as (a & l & Heq). rewrite Heq in *.
    unfold lastItem in *. simpl (0 + _).
    destruct (decide (occurrences sep s = 0)) as [Hz|Hnz].
    + pose proof (split_length sep s) as Hlen. rewrite Heq, Hz in Hlen.
      destruct l; [|done]. simpl in *. by rewrite IH.
    + destruct IH as [aDir IH]. exists (String c aDir).
      pose proof (split_length sep s) as Hlen. rewrite Heq in Hlen.
      destruct l as [|b l]; [simpl in Hlen; lia|].
      change (last (String c a :: b :: l)) with (last (b :: l)).
      change (last (a :: b :: l)) with (last (b :: l)) in IH.
      by rewrite append_cons, <-IH.
Qed.

Lemma split_single sep (s : string) : occurrences sep s = 0 → split sep s = [s].
Proof.
  intros Hz. pose proof (split_length sep s) as Hlen.
  destruct (split_last sep s) as [_ Hlast]. rewrite Hz in *.
  destruct (split sep s) as [|a [|b l]]; try done.
  destruct (decide _); [|done]. unfold lastItem in Hlast. simpl in Hlast.
  by rewrite Hlast.
Qed.

Lemma length_append (s1 s2 : string) :
  String.length (s1 +:+ s2) = String.length s1 + String.length s2.
Proof. induction s1 as [|c s1 IH]; [done|]. rewrite append_cons. simpl. by rewrite IH. Qed.

Lemma substring_append_r (s1 s2 : string) n m :
  String.substring (String.length s1 + n) m (s1 +:+ s2) = String.substring n m s2.
Proof. induction s1 as [|c s1 IH]; [done|]. rewrite append_cons. exact IH. Qed.

(** Whether a text ends with a suffix is decided by its end. *)
Lemma endsWith_append (s1 s2 theSuffix : string) :
  String.length theSuffix ≤ String.length s2 →
  endsWith (s1 +:+ s2) theSuffix = endsWith s2 theSuffix.
Proof.
  intros Hle. unfold endsWith. rewrite length_append.
  replace (String.length s1 + String.length s2 - String.length theSuffix)
    with (String.length s1 + (String.length s2 - String.length theSuffix)) by lia.
  rewrite substring_append_r.
  destruct (Nat.leb_spec (String.length theSuffix) (String.length s2)); [|lia].
  destruct (Nat.leb_spec (String.length theSuffix)
              (String.length s1 + String.length s2)); [done|lia].
Qed.

Lemma toLowerCase_append (s1 s2 : string) :
  toLowerCase (s1 +:+ s2) = toLowerCase s1 +:+ toLowerCase s2.
Proof.
  induction s1 as [|c s1 IH]; [done|].
  rewrite append_cons. simpl. by rewrite IH.
Qed.

Lemma toLowerCase_length (s : string) :
  String.length (toLowerCase s) = String.length s.
Proof. induction s as [|c s IH]; [done|]. simpl. by rewrite IH. Qed.

(** ** jsdownload *)

(** X11. [_commandJsdownload] refuses its arguments, with the syntax
    error written in the error style, the answer [false] and nothing
    downloaded, exactly when they are empty or hold two spaces or more,
    whatever the file system holds. So two words separated by two
    spaces are refused, where one space is accepted. *)
Theorem jsdownload_wrong_arguments
    (FS_readFile : string → list Byte.byte + string) (theArgs : string) :
  _commandJsdownload FS_readFile theArgs
  = ([CallTerminalWriteError "Syntax error: wrong number of arguments"],
     false, [])
  ↔ theArgs = "" ∨ 2 ≤ occurrences " " theArgs.
Proof.
  unfold _commandJsdownload. rewrite split_length.
  destruct (String.eqb_spec theArgs "") as [->|Hne]; [by split; [left|]|].
  cbn [orb].
  destruct (Z.eqb_spec (Z.of_nat (S (occurrences " " theArgs))) 1) as [H1|H1];
    [|destruct (Z.eqb_spec (Z.of_nat (S (occurrences " " theArgs))) 2) as [H2|H2]];
    cbn [negb andb].
  3: { split; [intros _; right; lia | done]. }
  all: split; [|intros [?|?]; [done|lia]].
  all: destruct (FS_readFile _); intros Heq; [done|].
  all: exfalso; injection Heq as Heq; discriminate Heq.
Qed.

(** X12. With arguments that are accepted, [_commandJsdownload] reads
    the file named by the first word, and answers [true] exactly when
    the file system gave its data: then one file is offered for
    download, with the data as it was read; when reading failed nothing
    is offered, and the path and the failure are written in the error
    style. *)
Theorem jsdownload_offers_what_it_read
    (FS_readFile : string → list Byte.byte + string) (theArgs : string) :
  theArgs ≠ "" → occurrences " " theArgs ≤ 1 →
  let aFilePath := default "" (head (split " " theArgs)) in
  let '(aPrinted, aRes, aDownloads) := _commandJsdownload FS_readFile theArgs in
  match FS_readFile aFilePath with
  | inl aData => aRes = true ∧ downloadData <$> aDownloads = [aData]
  | inr theError =>
      aRes = false ∧ aDownloads = []
      ∧ aPrinted = [CallTerminalWriteError
                      ("Error: file '" +:+ aFilePath +:+ "' cannot be read with "
                       +:+ theError)]
  end.
Proof.
  intros Hne Hocc. unfold _commandJsdownload. rewrite split_length.
  apply String.eqb_neq in Hne. rewrite Hne. cbn [orb].
  destruct (split_cons " " theArgs) as (a & l & ->).
  change (default "" (head (a :: l))) with a.
  change (default "" ((a :: l) !! 0)) with a.
  replace (negb (Z.of_nat (S (occurrences " " theArgs)) =? 1)%Z
           && negb (Z.of_nat (S (occurrences " " theArgs)) =? 2)%Z)
    with false.
  2: { symmetry. apply andb_false_iff. rewrite !negb_false_iff, !Z.eqb_eq. lia. }
  cbn zeta. by destruct (FS_readFile a).
Qed.

(** X13. Without a second word, the file is offered under the last
    component of its path: a name without [/], which is the path itself
    or what follows its last [/]. *)
Theorem jsdownload_default_name
    (FS_readFile : string → list Byte.byte + string)
    (theFilePath : string) (aData : list Byte.byte) :
  theFilePath ≠ "" → occurrences " " theFilePath = 0 →
  FS_readFile theFilePath = inl aData →
  ∃ aFileName aType,
    (_commandJsdownload FS_readFile theFilePath).2
    = [mkDownload aData aFileName aType]
    ∧ occurrences "/" aFileName = 0
    ∧ (theFilePath = aFileName
       ∨ ∃ aDir, theFilePath = aDir +:+ "/" +:+ aFileName).
Proof.
  intros Hne Hocc Hread. unfold _commandJsdownload.
  rewrite (split_single _ _ Hocc).
  apply String.eqb_neq in Hne. rewrite Hne. simpl. rewrite Hread. simpl.
  destruct (split_last "/" theFilePath) as [Hnone Hlast].
  rewrite split_length.
  destruct (decide (occurrences "/" theFilePath = 0)) as [Hz|Hnz].
  - rewrite Hz. simpl. eexists _, _. split; [done|]. split; [done|by left].
  - replace (Z.of_nat (S (occurrences "/" theFilePath)) >? 1)%Z with true
      by (symmetry; apply Z.gtb_lt; lia).
    eexists _, _. split; [done|]. split; [done|]. right. exact Hlast.
Qed.

(** X14. The type of the download follows the extension of the path in
    the file system, whatever the case of its letters, and not the name
    the file is offered under: [.png] gives [image/png], [.jpg] and
    [.jpeg] give [image/jpeg]. *)
Theorem jsdownload_type_by_extension
    (FS_readFile : string → list Byte.byte + string)
    (theArgs aStem anExt : string) (aRest : list string)
    (aData : list Byte.byte) :
  split " " theArgs = (aStem +:+ anExt) :: aRest →
  List.length aRest ≤ 1 →
  FS_readFile (aStem +:+ anExt) = inl aData →
  toLowerCase anExt ∈ [".png"; ".jpg"; ".jpeg"] →
  downloadType <$> (_commandJsdownload FS_readFile theArgs).2
  = [if decide (toLowerCase anExt = ".png") then "image/png" else "image/jpeg"].
Proof.
  intros Hsplit Hlen Hread Hext. unfold _commandJsdownload.
  assert (theArgs ≠ "") as Hne.
  { intros ->. injection Hsplit as Hempty _.
    destruct aStem; [|done]. destruct anExt; [|done].
    simpl in Hext.
    repeat (apply elem_of_cons in Hext as [Hext|Hext]; [done|]).
    by apply elem_of_nil in Hext. }
  apply String.eqb_neq in Hne. rewrite Hne, Hsplit. cbn [orb].
  replace (negb (Z.of_nat (List.length ((aStem +:+ anExt) :: aRest)) =? 1)%Z
           && negb (Z.of_nat (List.length ((aStem +:+ anExt) :: aRest)) =? 2)%Z)
    with false.
  2: { symmetry. apply andb_false_iff. rewrite !negb_false_iff, !Z.eqb_eq.
       simpl List.length. lia. }
  simpl (default "" (_ !! 0)). rewrite Hread. simpl snd.
  rewrite toLowerCase_append.
  assert (∀ theSuffix, String.length theSuffix ≤ String.length (toLowerCase anExt) →
            endsWith (toLowerCase aStem +:+ toLowerCase anExt) theSuffix
            = endsWith (toLowerCase anExt) theSuffix) as Hends
    by (intros; by apply endsWith_append).
  apply elem_of_cons in Hext as [Hext|Hext];
    [|apply elem_of_cons in Hext as [Hext|Hext];
      [|apply list_elem_of_singleton in Hext]];
    rewrite !Hends by (rewrite Hext; simpl; lia);
    rewrite Hext; done.
Qed.

(** ** jsupload *)

Lemma sources_length (anArgs : list string) :
  List.length (sources anArgs).1 = List.length (sources anArgs).2.
Proof.
  remember (List.length anArgs) as n eqn:Hn. revert anArgs Hn.
  induction n as [n IH] using lt_wf_ind. intros anArgs ->.
  destruct anArgs as [|aParam aRest]; [done|]. simpl.
  destruct (String.eqb aParam ""); [eapply IH; [|done]; simpl; lia|].
  destruct aRest as [|aFlag [|aFilePath aRest']].
  - done.
  - specialize (IH _ (Nat.lt_succ_diag_r _) [aFlag] eq_refl).
    destruct (sources [aFlag]). simpl in *. by f_equal.
  - destruct (String.eqb aFlag "-path").
    + assert (List.length aRest' < List.length (aParam :: aFlag :: aFilePath :: aRest'))
        as Hlt by (simpl; lia).
      specialize (IH _ Hlt aRest' eq_refl).
      destruct (sources aRest'). simpl in *. by f_equal.
    + specialize (IH _ (Nat.lt_succ_diag_r _) (aFlag :: aFilePath :: aRest') eq_refl).
      destruct (sources (aFlag :: aFilePath :: aRest')). simpl in *. by f_equal.
Qed.

(** The sources are the arguments that are not empty, but for the
    flags and the paths that were taken with a source. *)
Lemma sources_nil (anArgs : list string) :
  (sources anArgs).1 = [] ↔ Forall (λ aParam, aParam = "") anArgs.
Proof.
  induction anArgs as [|aParam aRest IH]; [done|]. simpl.
  destruct (String.eqb_spec aParam "") as [->|Hne].
  - rewrite IH. split; [by constructor|by inversion 1].
  - split; [|by inversion 1]. intros Hnil. exfalso.
    destruct aRest as [|aFlag [|aFilePath aRest']]; [done| |].
    + by destruct (sources [aFlag]).
    + destruct (String.eqb aFlag "-path");
        [by destruct (sources aRest')
        |by destruct (sources (aFlag :: aFilePath :: aRest'))].
Qed.

Lemma uploads_length (aSrcList aDstList : list string) :
  List.length (uploads aSrcList aDstList) = List.length aSrcList.
Proof. apply length_imap. Qed.

Lemma split_blank (s : string) :
  Forall (λ aParam, aParam = "") (split " " s)
  ↔ Forall (λ c, c = " "%char) (list_ascii_of_string s).
Proof.
  induction s as [|c s IH]; simpl; [split; by repeat constructor|].
  destruct (Ascii.eqb_spec c " ") as [->|Hne].
  - split; intros Hall; constructor; try done; apply IH; by inversion Hall.
  - split; [|by inversion 1].
    destruct (split " " s); by inversion 1.
Qed.

(** X15. [_commandJsupload] answers the rejection of a syntax error,
    and starts no upload, exactly when its arguments hold nothing but
    spaces. *)
Theorem jsupload_without_source
    (theEarliest : nat) (hasAllSettled : bool)
    (theSettlement : nat → Upload → Promise)
    (theArgs : string) :
  _commandJsupload theEarliest hasAllSettled theSettlement theArgs
  = ([], Rejected "SyntaxError: wrong number of arguments")
  ↔ Forall (λ c, c = " "%char) (list_ascii_of_string theArgs).
Proof.
  rewrite <-split_blank, <-sources_nil. unfold _commandJsupload.
  pose proof (uploads_length (sources (split " " theArgs)).1
                (sources (split " " theArgs)).2) as Hlen.
  destruct (sources (split " " theArgs)) as [aSrcList aDstList].
  simpl in *. destruct aSrcList as [|aFileUrl aSrcList]; [done|].
  simpl (Z.of_nat _ =? 0)%Z. cbn iota. split; [|done].
  intros Heq. apply (f_equal fst) in Heq. simpl fst in Heq.
  by rewrite Heq in Hlen.
Qed.

Lemma sources_pairs (thePairs : list (string * string)) :
  Forall (λ aPair, aPair.1 ≠ "") thePairs →
  sources (flat_map (λ aPair, [aPair.1; "-path"; aPair.2]) thePairs)
  = (thePairs.*1, thePairs.*2).
Proof.
  induction 1 as [|[aFileUrl aFilePath] thePairs Hne _ IH]; [done|].
  simpl in *. apply String.eqb_neq in Hne. by rewrite Hne, IH.
Qed.

Lemma sources_plain (anArgs : list string) :
  "-path" ∉ anArgs →
  sources anArgs
  = (List.filter (λ aParam, negb (String.eqb aParam "")) anArgs,
     replicate
       (List.length (List.filter (λ aParam, negb (String.eqb aParam "")) anArgs))
       "").
Proof.
  induction anArgs as [|aParam aRest IH]; [done|].
  intros Hnot. apply not_elem_of_cons in Hnot as [Hne Hnot].
  specialize (IH Hnot). simpl. destruct (String.eqb aParam ""); [done|].
  simpl. destruct aRest as [|aFlag [|aFilePath aRest']]; [done| |].
  - by rewrite IH.
  - apply not_elem_of_cons in Hnot as [Hflag _].
    apply not_eq_sym, String.eqb_neq in Hflag. rewrite Hflag. by rewrite IH.
Qed.

Lemma uploads_pairs (thePairs : list (string * string)) :
  uploads (thePairs.*1) (thePairs.*2)
  = (λ aPair, if String.eqb aPair.1 "." then UploadFile aPair.2 true
              else UploadUrl aPair.1 aPair.2 true) <$> thePairs.
Proof.
  unfold uploads. apply list_eq. intros i.
  rewrite list_lookup_imap, !list_lookup_fmap.
  by destruct (thePairs !! i).
Qed.

(** X16. Written as [url -path path] for each file, the arguments
    start one upload per file, in their order, to the path that
    follows the flag: through the file dialog for the source [.], from
    the URL otherwise, and each one with the preloading. *)
Theorem jsupload_starts_each_pair
    (theEarliest : nat) (hasAllSettled : bool)
    (theSettlement : nat → Upload → Promise)
    (theArgs : string) (thePairs : list (string * string)) :
  split " " theArgs
  = flat_map (λ aPair, [aPair.1; "-path"; aPair.2]) thePairs →
  Forall (λ aPair, aPair.1 ≠ "") thePairs →
  (_commandJsupload theEarliest hasAllSettled theSettlement theArgs).1
  = (λ aPair, if String.eqb aPair.1 "." then UploadFile aPair.2 true
              else UploadUrl aPair.1 aPair.2 true) <$> thePairs.
Proof.
  intros Hsplit Hne. unfold _commandJsupload.
  rewrite Hsplit, (sources_pairs _ Hne).
  rewrite <-uploads_pairs.
  by destruct thePairs as [|aPair thePairs].
Qed.

(** X17. Without the flag [-path], every word of the arguments is a
    source, however many spaces separate the words, and each file
    goes to the path that its source gives: the empty path is handed
    to the upload. *)
Theorem jsupload_starts_each_word
    (theEarliest : nat) (hasAllSettled : bool)
    (theSettlement : nat → Upload → Promise)
    (theArgs : string) :
  "-path" ∉ split " " theArgs →
  (_commandJsupload theEarliest hasAllSettled theSettlement theArgs).1
  = (λ aFileUrl, if String.eqb aFileUrl "." then UploadFile "" true
                 else UploadUrl aFileUrl "" true)
    <$> List.filter (λ aParam, negb (String.eqb aParam "")) (split " " theArgs).
Proof.
  intros Hnot. unfold _commandJsupload. rewrite (sources_plain _ Hnot).
  set (aSrcList := List.filter _ _).
  assert ((if (Z.of_nat (List.length aSrcList) =? 0)%Z
           then ([], Rejected (errorToString "SyntaxError" "wrong number of arguments"))
           else (uploads aSrcList (replicate (List.length aSrcList) ""),
                 settled theEarliest hasAllSettled
                   (imap theSettlement
                      (uploads aSrcList (replicate (List.length aSrcList) ""))))).1
          = uploads aSrcList (replicate (List.length aSrcList) "")) as ->
    by (by destruct aSrcList).
  unfold uploads. apply list_eq. intros i.
  rewrite list_lookup_imap, list_lookup_fmap.
  destruct (aSrcList !! i) as [aUrl|] eqn:Hi; [|done]. simpl.
  apply lookup_lt_Some in Hi.
  by rewrite lookup_replicate_2.
Qed.

Lemma firstRejected_resolved (aPromises : list Promise) :
  firstRejected aPromises = Resolved ↔ Forall (λ p, p = Resolved) aPromises.
Proof.
  induction aPromises as [|[|theReason] aPromises IH]; simpl.
  - done.
  - rewrite IH. split; [by constructor|by inversion 1].
  - split; [done|by inversion 1].
Qed.

Lemma promiseAll_resolved (theEarliest : nat) (aPromises : list Promise) :
  promiseAll theEarliest aPromises = Resolved
  ↔ Forall (λ p, p = Resolved) aPromises.
Proof.
  rewrite <-firstRejected_resolved. unfold promiseAll.
  destruct (firstRejected aPromises) as [|theReason]; [done|].
  by destruct (aPromises !! theEarliest) as [[|theOther]|].
Qed.

Lemma nbFails_zero (aPromises : list Promise) :
  nbFails aPromises = 0%Z ↔ Forall (λ p, p = Resolved) aPromises.
Proof.
  unfold nbFails. induction aPromises as [|[|theReason] aPromises IH]; simpl.
  - done.
  - rewrite IH. split; [by constructor|by inversion 1].
  - split; [lia|by inversion 1].
Qed.

Lemma settled_resolved (theEarliest : nat) (hasAllSettled : bool)
    (aPromises : list Promise) :
  settled theEarliest hasAllSettled aPromises = Resolved
  ↔ Forall (λ p, p = Resolved) aPromises.
Proof.
  unfold settled.
  destruct aPromises as [|aPromise [|aSecond aPromises]].
  - destruct hasAllSettled; done.
  - split; [by repeat constructor|by inversion 1].
  - destruct hasAllSettled; [|apply promiseAll_resolved].
    rewrite <-nbFails_zero.
    destruct (Z.eqb_spec (nbFails (aPromise :: aSecond :: aPromises)) 0); [done|].
    split; [done|]. intros Hz. by rewrite Hz in *.
Qed.

(** X18. The promise of [_commandJsupload] is fulfilled exactly when
    the arguments name a source and every upload it started is
    fulfilled, with [Promise.allSettled] and without it. *)
Theorem jsupload_fulfilled_iff_all_uploads
    (theEarliest : nat) (hasAllSettled : bool)
    (theSettlement : nat → Upload → Promise)
    (theArgs : string) :
  let '(aStarted, aPromise) :=
    _commandJsupload theEarliest hasAllSettled theSettlement theArgs in
  aPromise = Resolved
  ↔ aStarted ≠ []
    ∧ ∀ i anUpload, aStarted !! i = Some anUpload →
                    theSettlement i anUpload = Resolved.
Proof.
  unfold _commandJsupload.
  pose proof (uploads_length (sources (split " " theArgs)).1
                (sources (split " " theArgs)).2) as Hlen.
  destruct (sources (split " " theArgs)) as [aSrcList aDstList].
  simpl in Hlen. destruct aSrcList as [|aFileUrl aSrcList].
  { simpl. split; [done|by intros [? _]]. }
  simpl (Z.of_nat _ =? 0)%Z. cbn iota.
  set (aStarted := uploads _ _) in *.
  rewrite settled_resolved, Forall_lookup. split.
  - intros Hall. split; [by destruct aStarted|].
    intros i anUpload Hi. apply (Hall i).
    by rewrite list_lookup_imap, Hi.
  - intros [_ Hall] i aPromise Hi.
    rewrite list_lookup_imap in Hi.
    destruct (aStarted !! i) as [anUpload|] eqn:Hu; [|done].
    injection Hi as <-. by apply Hall.
Qed.

(** X19. When two uploads fail and [Promise.allSettled] exists, the
    promise is rejected with one error whose message holds both
    reasons, in the order of the uploads, separated by CR LF, however
    many fulfilled uploads stand between them. *)
Theorem jsupload_reports_failures
    (theEarliest : nat) (aFirst aSecond : string) (aPromises : list Promise) :
  Forall (λ p, p = Resolved) aPromises →
  aFirst ≠ "" →
  settled theEarliest true (Rejected aFirst :: aPromises ++ [Rejected aSecond])
  = Rejected ("Error: " +:+ aFirst +:+ String CR (String LF "") +:+ aSecond).
Proof.
  intros Hall Hne. unfold settled.
  assert (∀ theText, theText ≠ "" →
            failList (aPromises ++ [Rejected aSecond]) theText
            = theText +:+ String CR (String LF "") +:+ aSecond) as Hfail.
  { intros theText Htext. induction Hall as [|p l -> _ IH]; simpl; [|exact IH].
    destruct theText; [done|]. simpl. by rewrite append_assoc. }
  assert (nbFails (Rejected aFirst :: aPromises ++ [Rejected aSecond]) ≠ 0%Z)
    as Hnb by (unfold nbFails; simpl; lia).
  apply Z.eqb_neq in Hnb.
  assert (∃ p l, aPromises ++ [Rejected aSecond] = p :: l) as (p & l & Happ)
    by (destruct aPromises; by eexists _, _).
  rewrite Happ in Hnb |- *. rewrite Hnb. rewrite <-Happ.
  simpl failList. rewrite Hfail by done.
  unfold errorToString. change ("" +:+ aFirst) with aFirst.
  destruct (String.eqb_spec (aFirst +:+ String CR (String LF "") +:+ aSecond) "")
    as [Hempty|_]; [by destruct aFirst|].
  done.
Qed.

(** ** uploadUrl *)

(** X20. [uploadUrl] fulfils its promise exactly when the URL was
    fetched with a status that is [ok], the body was received, the
    file was written, and, if asked for, preloaded. The file is
    written under the path given, or, for the empty path, under the
    last component of the URL, with the bytes of the body; nothing is
    asked from the file system unless these bytes were received; and
    the prompt is printed again exactly when the promise is
    fulfilled. *)
Theorem uploadUrl_outcome
    (fetch : string → Response + string)
    (FS_writeFile : string → list Byte.byte → option string)
    (FS_preloaded : string → list Byte.byte → bool)
    (FS_cwd theFileUrl theFilePath : string) (theToPreload : bool) :
  let aFilePath :=
    if decide (theFilePath = "") then lastItem (split "/" theFileUrl)
    else theFilePath in
  let aReceived (theData : list Byte.byte) :=
    ∃ theResponse,
      fetch theFileUrl = inl theResponse ∧ ok theResponse = true
      ∧ arrayBuffer theResponse = inl theData in
  let '(aPrinted, aCalls, aPromise) :=
    uploadUrl fetch FS_writeFile FS_preloaded FS_cwd
      theFileUrl theFilePath theToPreload in
  (aPromise = Resolved
   ↔ ∃ theData,
       aReceived theData
       ∧ FS_writeFile aFilePath theData = None
       ∧ (theToPreload = true → FS_preloaded aFilePath theData = true))
  ∧ (aCalls ≠ []
     ↔ ∃ theData,
         aReceived theData
         ∧ aCalls !! 0 = Some (WriteFile aFilePath theData))
  ∧ (CallTerminalPrintInputLine ∈ aPrinted ↔ aPromise = Resolved).
Proof.
  cbn zeta. unfold uploadUrl.
  assert ((if (Z.of_nat (List.length (split "/" theFileUrl)) >? 1)%Z
           then lastItem (split "/" theFileUrl) else theFileUrl)
          = lastItem (split "/" theFileUrl)) as ->.
  { rewrite split_length. destruct (split_last "/" theFileUrl) as [_ Hlast].
    destruct (decide (occurrences "/" theFileUrl = 0)) as [Hz|Hnz].
    - rewrite Hz. simpl. by rewrite Hlast.
    - by replace (Z.of_nat (S (occurrences "/" theFileUrl)) >? 1)%Z with true
        by (symmetry; apply Z.gtb_lt; lia). }
  assert ((if String.eqb theFilePath "" then lastItem (split "/" theFileUrl)
           else theFilePath)
          = (if decide (theFilePath = "") then lastItem (split "/" theFileUrl)
             else theFilePath)) as ->.
  { destruct (String.eqb_spec theFilePath ""), (decide (theFilePath = "")); done. }
  set (aFilePath := if decide _ then _ else _).
  destruct (fetch theFileUrl) as [theResponse|theErr] eqn:Hfetch.
  2: { split_and!; split; try done.
       - by intros (? & (? & ? & _) & _).
       - by intros (? & (? & ? & _) & _).
       - by intros ?%elem_of_nil. }
  destruct (ok theResponse) eqn:Hok; cbn [negb].
  2: { split_and!; split; try done.
       - intros (? & (? & [= <-] & ? & _) & _). congruence.
       - intros (? & (? & [= <-] & ? & _) & _). congruence.
       - by intros ?%elem_of_nil. }
  destruct (arrayBuffer theResponse) as [aDataArray|theErr] eqn:Hbody.
  2: { split_and!; split; try done.
       - intros (? & (? & [= <-] & _ & ?) & _). congruence.
       - intros (? & (? & [= <-] & _ & ?) & _). congruence.
       - by intros ?%elem_of_nil. }
  assert (∀ theData (P : Prop),
            (∃ theResponse0, @inl Response string theResponse = inl theResponse0
                             ∧ ok theResponse0 = true
                             ∧ arrayBuffer theResponse0 = @inl _ string theData)
            → (theData = aDataArray → P) → P) as Hinv.
  { intros theData P (? & [= <-] & _ & Hb) HP. apply HP. congruence. }
  destruct (FS_writeFile aFilePath aDataArray) as [theErr|] eqn:Hwrite.
  { split_and!; split; try done.
    - intros (theData & Hrec & Hw & _). apply (Hinv _ _ Hrec). intros ->.
      congruence.
    - intros _. exists aDataArray. split; [by exists theResponse|done].
    - intros Hin. apply list_elem_of_singleton in Hin. done. }
  destruct theToPreload.
  - destruct (FS_preloaded aFilePath aDataArray) eqn:Hpre.
    + split_and!; split; try done.
      * intros _. exists aDataArray. split; [by exists theResponse|done].
      * intros _. exists aDataArray. split; [by exists theResponse|done].
      * intros _. apply elem_of_cons. right. by apply list_elem_of_singleton.
    + split_and!; split; try done.
      * intros (theData & Hrec & _ & Hp). apply (Hinv _ _ Hrec). intros ->.
        specialize (Hp eq_refl). congruence.
      * intros _. exists aDataArray. split; [by exists theResponse|done].
      * intros Hin. apply list_elem_of_singleton in Hin. done.
  - split_and!; split; try done.
    + intros _. exists aDataArray. split; [by exists theResponse|done].
    + intros _. exists aDataArray. split; [by exists theResponse|done].
    + intros _. apply elem_of_cons. right. by apply list_elem_of_singleton.
Qed.

End CommandFacts.

(** * Properties of the drain and of the session *)

Section SessionFacts.
Context `{Host}.
Import JsString JsText DrawTerm Session.

#[local] Arguments DrawCommandQueue.add : simpl never.
#[local] Arguments DrawCommandQueue.pop : simpl never.

(** ** What printing and the collaborators leave alone *)

(** [still s s']: between [s] and [s'] the terminal only printed. *)
Local Abbreviation still s s' :=
  (quiet s s' ∧ _myIsWasmLoaded s' = _myIsWasmLoaded s
   ∧ asked s' = asked s ∧ wasm s' = wasm s ∧ awaited s' = awaited s).

Lemma still_refl (s : t) : still s s.
Proof. split; [apply quiet_refl|done]. Qed.

Lemma still_trans (s1 s2 s3 : t) : still s1 s2 → still s2 s3 → still s1 s3.
Proof.
  intros (Hq1 & ? & ? & ? & ?) (Hq2 & ? & ? & ? & ?).
  split; [by eapply quiet_trans|]. split_and!; congruence.
Qed.

Lemma still_terminalWrite theText (s : t) : still s (terminalWrite theText s).
Proof.
  split; [apply quiet_terminalWrite|].
  unfold terminalWrite. by destruct (_myTerm s).
Qed.

Lemma still_terminalWriteMultiline theText (s : t) :
  still s (terminalWriteMultiline theText s).
Proof.
  split; [apply quiet_terminalWriteMultiline|].
  unfold terminalWriteMultiline. by destruct (_myTerm s).
Qed.

Lemma still_terminalPrintInputLine theLine (s : t) :
  still s (terminalPrintInputLine theLine s).
Proof.
  split; [apply quiet_terminalPrintInputLine|].
  unfold terminalPrintInputLine, terminalWrite.
  destruct (_myTerm s) eqn:Hterm; simpl; rewrite ?Hterm; done.
Qed.

Lemma still_printMessage theText theGravity (s : t) :
  still s (printMessage theText theGravity s).
Proof.
  unfold printMessage, terminalWriteTrace, terminalWriteInfo,
    terminalWriteWarning, terminalWriteError.
  repeat case_match; try apply still_terminalWriteMultiline.
  eapply still_trans; [apply still_terminalWrite|apply still_terminalWriteMultiline].
Qed.

Lemma still_callback (s : t) c : still s (callback s c).
Proof.
  destruct c; simpl; unfold print, printErr, terminalWriteLine, terminalWriteError.
  - apply still_printMessage.
  - apply still_printMessage.
  - apply still_printMessage.
  - apply still_terminalWrite.
  - apply still_terminalWriteMultiline.
  - apply still_terminalPrintInputLine.
Qed.

Lemma still_callbacks cs (s : t) : still s (callbacks cs s).
Proof.
  revert s. induction cs as [|c cs IH]; intros s; [apply still_refl|].
  eapply still_trans; [apply still_callback|apply IH].
Qed.

Lemma still_set_wasm_but_asked w theCall (s : t) :
  quiet s (set_wasm w theCall s)
  ∧ _myIsWasmLoaded (set_wasm w theCall s) = _myIsWasmLoaded s
  ∧ asked (set_wasm w theCall s) = asked s ++ [theCall]
  ∧ awaited (set_wasm w theCall s) = awaited s.
Proof. split; [apply quiet_set_wasm|done]. Qed.

(** A call to a collaborator is recorded once, whatever the
    collaborator prints meanwhile. *)
Lemma call_eval_asked theCmd (s : t) :
  let s' := (call_eval theCmd s).2 in
  quiet s s' ∧ _myIsWasmLoaded s' = _myIsWasmLoaded s
  ∧ asked s' = asked s ++ [AskedEval theCmd]
  ∧ awaited s' = awaited s.
Proof.
  cbn zeta. unfold call_eval. destruct (eval theCmd (wasm s)) as [[cs aThrown] w].
  simpl. destruct (still_callbacks cs (set_wasm w (AskedEval theCmd) s))
    as (Hq & Hl & Ha & _ & Hw).
  split; [eapply quiet_trans; [apply quiet_set_wasm|exact Hq]|].
  by rewrite Hl, Ha, Hw.
Qed.

Lemma call_commandJsdownload_asked theArgs (s : t) :
  let s' := (call_commandJsdownload theArgs s).2 in
  quiet s s' ∧ _myIsWasmLoaded s' = _myIsWasmLoaded s
  ∧ asked s' = asked s ++ [AskedJsdownload theArgs]
  ∧ awaited s' = awaited s.
Proof.
  cbn zeta. unfold call_commandJsdownload.
  destruct (_commandJsdownload theArgs (wasm s)) as [[cs aRes] w].
  simpl. destruct (still_callbacks cs (set_wasm w (AskedJsdownload theArgs) s))
    as (Hq & Hl & Ha & _ & Hw).
  split; [eapply quiet_trans; [apply quiet_set_wasm|exact Hq]|].
  by rewrite Hl, Ha, Hw.
Qed.

Lemma call_commandJsupload_asked theArgs (s : t) :
  let s' := (call_commandJsupload theArgs s).2 in
  quiet s s' ∧ _myIsWasmLoaded s' = _myIsWasmLoaded s
  ∧ asked s' = asked s ++ [AskedJsupload theArgs]
  ∧ awaited s' = awaited s.
Proof.
  cbn zeta. unfold call_commandJsupload.
  destruct (_commandJsupload theArgs (wasm s)) as [[cs aRes] w].
  simpl. destruct (still_callbacks cs (set_wasm w (AskedJsupload theArgs) s))
    as (Hq & Hl & Ha & _ & Hw).
  split; [eapply quiet_trans; [apply quiet_set_wasm|exact Hq]|].
  by rewrite Hl, Ha, Hw.
Qed.

(** ** Which collaborator a command goes to *)

Lemma startsWith_inv (s thePrefix : string) :
  startsWith s thePrefix = true → ∃ aRest, s = thePrefix +:+ aRest.
Proof.
  unfold startsWith. revert s.
  induction thePrefix as [|c thePrefix IH]; intros s Hpre; [by exists s|].
  destruct s as [|c' s]; [done|]. simpl in Hpre.
  destruct (ascii_dec c c') as [->|]; [|done].
  destruct (IH s Hpre) as [aRest ->]. by exists aRest.
Qed.

Lemma substring_all (s : string) : String.substring 0 (String.length s) s = s.
Proof. induction s as [|c s IH]; [done|]. simpl. by rewrite IH. Qed.

Lemma substringFrom_append (thePrefix aRest : string) :
  substringFrom (thePrefix +:+ aRest) (JsString.length thePrefix) = aRest.
Proof.
  unfold substringFrom, substring, JsString.length.
  assert (String.length (thePrefix +:+ aRest)
          = String.length thePrefix + String.length aRest) as ->.
  { induction thePrefix as [|c p IH]; [done|]. simpl. by rewrite <-IH. }
  rewrite Nat2Z.inj_add.
  replace (Z.to_nat _) with (String.length thePrefix + 0) by lia.
  replace (Z.to_nat _) with (String.length aRest) by lia.
  assert (∀ n m, String.substring (String.length thePrefix + n) m (thePrefix +:+ aRest)
                 = String.substring n m aRest) as ->.
  { induction thePrefix as [|c p IH]; [done|]. exact IH. }
  apply substring_all.
Qed.

(** X21. The evaluation of a command that is not empty asks exactly
    one collaborator, once. The commands that start with
    [jsdownload ], [jsdown ] or [download ] go to the download command,
    those that start with [jsupload ] or [upload ] to the upload
    command, both with what follows the prefix, trimmed; every other
    command goes to the interpreter as it is. *)
Theorem command_goes_to_one_collaborator (theCmd : string) (s : t) :
  theCmd ≠ "" →
  ∃ aCall,
    asked (termEvaluateCommand theCmd s).2 = asked s ++ [aCall]
    ∧ match aCall with
      | AskedJsdownload theArgs =>
          ∃ aPrefix aRest,
            aPrefix ∈ ["jsdownload "; "jsdown "; "download "]
            ∧ theCmd = aPrefix +:+ aRest ∧ theArgs = trim aRest
      | AskedJsupload theArgs =>
          ∃ aPrefix aRest,
            aPrefix ∈ ["jsupload "; "upload "]
            ∧ theCmd = aPrefix +:+ aRest ∧ theArgs = trim aRest
      | AskedEval theText =>
          theText = theCmd
          ∧ Forall (λ aPrefix, startsWith theCmd aPrefix = false)
              ["jsdownload "; "jsdown "; "download "; "jsupload "; "upload "]
      | AskedExecCommand _ => False
      end.
Proof.
  intros Hne. unfold termEvaluateCommand.
  apply String.eqb_neq in Hne. rewrite Hne.
  set (s0 := set_myTermHistory _ _).
  change (asked s) with (asked s0).
  assert (∀ aPrefix n, startsWith theCmd aPrefix = true →
            JsString.length aPrefix = n →
            ∃ aRest, theCmd = aPrefix +:+ aRest
                     ∧ trim (substringFrom theCmd n) = trim aRest) as Hcut.
  { intros aPrefix n Hpre <-. destruct (startsWith_inv _ _ Hpre) as [aRest ->].
    exists aRest. by rewrite substringFrom_append. }
  destruct (startsWith theCmd "jsdownload ") eqn:H1.
  { destruct (Hcut _ 11%Z H1 eq_refl) as (aRest & Hcmd & ->).
    pose proof (call_commandJsdownload_asked (trim aRest) s0) as (_ & _ & Ha & _).
    destruct (call_commandJsdownload (trim aRest) s0) as [aRes s1].
    eexists. split; [exact Ha|]. exists "jsdownload ", aRest.
    split; [|done]. apply elem_of_cons. by left. }
  destruct (startsWith theCmd "jsdown ") eqn:H2.
  { destruct (Hcut _ 7%Z H2 eq_refl) as (aRest & Hcmd & ->).
    pose proof (call_commandJsdownload_asked (trim aRest) s0) as (_ & _ & Ha & _).
    destruct (call_commandJsdownload (trim aRest) s0) as [aRes s1].
    eexists. split; [exact Ha|]. exists "jsdown ", aRest.
    split; [|done]. apply elem_of_cons. right. apply elem_of_cons. by left. }
  destruct (startsWith theCmd "download ") eqn:H3.
  { destruct (Hcut _ 9%Z H3 eq_refl) as (aRest & Hcmd & ->).
    pose proof (call_commandJsdownload_asked (trim aRest) s0) as (_ & _ & Ha & _).
    destruct (call_commandJsdownload (trim aRest) s0) as [aRes s1].
    eexists. split; [exact Ha|]. exists "download ", aRest.
    split; [|done]. do 2 (apply elem_of_cons; right). apply elem_of_cons. by left. }
  destruct (startsWith theCmd "jsupload ") eqn:H4.
  { destruct (Hcut _ 9%Z H4 eq_refl) as (aRest & Hcmd & ->).
    pose proof (call_commandJsupload_asked (trim aRest) s0) as (_ & _ & Ha & _).
    destruct (call_commandJsupload (trim aRest) s0) as [anAnswer s1].
    eexists. split; [exact Ha|]. exists "jsupload ", aRest.
    split; [|done]. apply elem_of_cons. by left. }
  destruct (startsWith theCmd "upload ") eqn:H5.
  { destruct (Hcut _ 7%Z H5 eq_refl) as (aRest & Hcmd & ->).
    pose proof (call_commandJsupload_asked (trim aRest) s0) as (_ & _ & Ha & _).
    destruct (call_commandJsupload (trim aRest) s0) as [anAnswer s1].
    eexists. split; [exact Ha|]. exists "upload ", aRest.
    split; [|done]. apply elem_of_cons. right. apply elem_of_cons. by left. }
  pose proof (call_eval_asked theCmd s0) as (_ & _ & Ha & _).
  destruct (call_eval theCmd s0) as [aThrown s1].
  exists (AskedEval theCmd). split.
  - by destruct aThrown.
  - split; [done|]. by repeat constructor.
Qed.

(** ** The drain *)

Lemma termEvaluateCommand_loaded theCmd (s : t) :
  _myIsWasmLoaded (termEvaluateCommand theCmd s).2 = _myIsWasmLoaded s
  ∧ awaited (termEvaluateCommand theCmd s).2 = awaited s.
Proof.
  unfold termEvaluateCommand. set (s0 := set_myTermHistory _ _).
  change (_myIsWasmLoaded s) with (_myIsWasmLoaded s0).
  change (awaited s) with (awaited s0).
  repeat case_match; simpl; try done;
    match goal with
    | Heq : call_eval ?c ?x = _ |- _ =>
        pose proof (call_eval_asked c x) as (_ & Hk & _ & Hw);
        by rewrite Heq in Hk, Hw
    | Heq : call_commandJsdownload ?c ?x = _ |- _ =>
        pose proof (call_commandJsdownload_asked c x) as (_ & Hk & _ & Hw);
        by rewrite Heq in Hk, Hw
    | Heq : call_commandJsupload ?c ?x = _ |- _ =>
        pose proof (call_commandJsupload_asked c x) as (_ & Hk & _ & Hw);
        by rewrite Heq in Hk, Hw
    end.
Qed.

Lemma termPopCommandFromQueue_empty (s : t) :
  valid s →
  DrawCommandQueue.pending (queue s) = [] →
  _termPopCommandFromQueue s = s.
Proof.
  intros [l Hwf] Hpend. unfold queue in *. simpl in Hwf.
  rewrite (wf_pending _ _ _ Hwf) in Hpend.
  assert (l = []) as ->.
  { pose proof (items_length (objects s) l
      (chain_bound _ _ _ (DrawCommandQueue.wf_chain _ _ _ Hwf))) as Hlen.
    rewrite Hpend in Hlen. by destruct l. }
  unfold _termPopCommandFromQueue, queue. rewrite (wf_pop_empty _ _ Hwf).
  by destruct s.
Qed.

(** X22. A drain step on an empty queue does nothing at all: nothing
    is evaluated, nothing is printed, no timeout is set, and the queue
    is still empty. *)
Theorem drain_on_empty_queue (s : t) :
  valid s →
  DrawCommandQueue.isEmpty (_myCmdQueue s) = true →
  _termPopCommandFromQueue s = s.
Proof.
  intros Hvalid Hempty. apply termPopCommandFromQueue_empty; [done|].
  destruct Hvalid as [l Hwf]. unfold queue in *. simpl in Hwf.
  rewrite (wf_pending _ _ _ Hwf).
  by rewrite (proj1 (wf_isEmpty _ _ _ Hwf) Hempty).
Qed.

(** The terminal once the head was popped and echoed: the state that
    the evaluation of the head starts from. *)
Local Abbreviation popped s theCmd theToEcho :=
  (let s0 := set_queue (DrawCommandQueue.pop (queue s)).2 s in
   if (theToEcho : bool) then terminalWrite theCmd s0 else s0).

(** One drain step on a queue that is not empty, for what it leaves
    behind. *)
Lemma drain_step_after (s : t) theCmd theToEcho rest :
  valid s →
  DrawCommandQueue.pending (queue s) = (theCmd, theToEcho) :: rest →
  let anAnswer := (termEvaluateCommand theCmd (popped s theCmd theToEcho)).1 in
  let s' := _termPopCommandFromQueue s in
  DrawCommandQueue.pending (queue s') = rest
  ∧ valid s'
  ∧ DrawCommandQueue.isEmpty (_myCmdQueue s') = bool_decide (rest = [])
  ∧ timeouts s'
    = timeouts s
      ++ match anAnswer with
         | Settled _ =>
             if bool_decide (rest = []) then []
             else [mkTimeout Run_termPopCommandFromQueue (_myCmdTimeout s)]
         | _ => []
         end
  ∧ awaited s'
    = awaited s + match anAnswer with Pending => 1 | _ => 0 end
  ∧ _myTermHistory s'
    = _myTermHistory s ++ (if bool_decide (theCmd = "") then [] else [theCmd])
  ∧ _myTermLine s' = _myTermLine s
  ∧ _myIsWasmLoaded s' = _myIsWasmLoaded s.
Proof.
  intros Hvalid Hpend.
  destruct (termPopCommandFromQueue_step s _ _ _ Hvalid Hpend)
    as (Hstep & Hpend0 & Hvalid0 & Hempty0).
  cbn zeta in Hstep, Hpend0, Hvalid0, Hempty0.
  set (s0 := set_queue (DrawCommandQueue.pop (queue s)).2 s) in *.
  cbn zeta. fold s0.
  set (s0' := if theToEcho then terminalWrite theCmd s0 else s0).
  assert (still s0 s0') as ((Hline0 & Hhist0 & _ & _ & _ & Hqueue0 & Htime0)
                            & Hload0 & _ & _ & Hwait0).
  { subst s0'. destruct theToEcho; [apply still_terminalWrite | apply still_refl]. }
  pose proof (termEvaluateCommand_frame theCmd s0') as Hframe.
  pose proof (termEvaluateCommand_loaded theCmd s0') as Hloaded.
  assert (_myTermHistory (termEvaluateCommand theCmd s0').2
          = _myTermHistory s ++ (if bool_decide (theCmd = "") then [] else [theCmd]))
    as Hhist1.
  { destruct (decide (theCmd = "")) as [Hcmd|Hcmd];
      [rewrite bool_decide_eq_true_2 by done
      |rewrite bool_decide_eq_false_2 by done].
    - rewrite Hcmd at 1. unfold termEvaluateCommand. simpl.
      rewrite app_nil_r. by rewrite Hhist0.
    - pose proof (termEvaluateCommand_records theCmd s0' Hcmd) as Hrec.
      cbn zeta in Hrec. destruct Hrec as (-> & _). by rewrite Hhist0. }
  destruct (termEvaluateCommand theCmd s0') as [anAnswer s1] eqn:Heval.
  cbn zeta in Hframe. simpl in Hframe, Hloaded, Hhist1. simpl fst.
  destruct Hframe as (Hline1 & Htmo1 & Hqueue1 & Htime1).
  destruct Hloaded as (Hload1 & Hwait1).
  assert (∀ s2, queue s2 = queue s1 → timeouts s2 = timeouts s1 →
            _myTermHistory s2 = _myTermHistory s1 →
            _myTermLine s2 = _myTermLine s1 →
            _myIsWasmLoaded s2 = _myIsWasmLoaded s1 →
            DrawCommandQueue.pending (queue s2) = rest
            ∧ valid s2
            ∧ DrawCommandQueue.isEmpty (_myCmdQueue s2) = bool_decide (rest = [])
            ∧ timeouts s2 = timeouts s ++ []
            ∧ _myTermHistory s2
              = _myTermHistory s
                ++ (if bool_decide (theCmd = "") then [] else [theCmd])
            ∧ _myTermLine s2 = _myTermLine s
            ∧ _myIsWasmLoaded s2 = _myIsWasmLoaded s) as Hsame.
  { intros s2 Hq2 Ht2 Hh2 Hl2 Hw2.
    assert (queue s2 = queue s0) as Hq by congruence.
    split_and!.
    - by rewrite Hq.
    - unfold valid. by rewrite Hq.
    - unfold queue in Hq. injection Hq as _ Hq. rewrite Hq. exact Hempty0.
    - rewrite app_nil_r. rewrite Ht2, Htime1, Htime0. done.
    - by rewrite Hh2.
    - rewrite Hl2, Hline1, Hline0. done.
    - rewrite Hw2, Hload1, Hload0. done. }
  destruct anAnswer as [aPromise| |theErr].
  - destruct (drain_step s s1 _ _ _ _ Hvalid Hpend Heval) as (Hs' & _).
    set (s2 := match aPromise with
               | Resolved => s1
               | Rejected theErr => terminalWriteError theErr s1
               end) in *.
    assert (still s1 (terminalPrintInputLine "" s2))
      as ((Hline3 & Hhist3 & _ & _ & _ & Hqueue3 & Htime3) & Hload3 & _ & _ & Hwait3).
    { eapply still_trans; [|apply still_terminalPrintInputLine].
      subst s2. destruct aPromise;
        [apply still_refl | apply still_terminalWriteMultiline]. }
    set (s3 := terminalPrintInputLine "" s2) in *.
    destruct (Hsame s3 Hqueue3 Htime3 Hhist3 Hline3 Hload3)
      as (Hp & Hv & He & Ht & Hh & Hl & Hw).
    rewrite app_nil_r in Ht. rewrite Hs'.
    destruct (bool_decide (rest = [])); simpl.
    + rewrite app_nil_r. split_and!; try done. rewrite Hwait3, Hwait1, Hwait0. simpl. lia.
    + split_and!; try done; [by rewrite Ht|].
      change (awaited (setTimeout _ _ s3)) with (awaited s3).
      rewrite Hwait3, Hwait1, Hwait0. simpl. lia.
  - rewrite Hstep. unfold dispatch. simpl command. simpl toEcho. fold s0'.
    rewrite Heval.
    destruct (Hsame (set_awaited (S (awaited s1)) s1)) as (?&?&?&?&?&?&?);
      try done.
    split_and!; try done. simpl. rewrite Hwait1, Hwait0. simpl. lia.
  - rewrite Hstep. unfold dispatch. simpl command. simpl toEcho. fold s0'.
    rewrite Heval.
    destruct (Hsame s1) as (?&?&?&?&?&?&?); try done.
    split_and!; try done. rewrite Hwait1, Hwait0. simpl. lia.
Qed.

(** X23. A drain step on a queue that is not empty: the head, and only
    the head, leaves the queue; it enters the history unless it is
    empty; the line being edited is as it was. What follows depends on
    what the evaluation answers. On a promise that is settled,
    fulfilled or rejected, the next drain step is scheduled exactly
    when a command is left. On a pending promise (an upload that was
    started) nothing is scheduled yet: the handlers wait for the
    settlement. When the evaluation throws (an exception of the
    interpreter on an engine without [InternalError]) nothing is
    scheduled and nothing waits: the drain stops there. *)
Theorem drain_consumes_the_head (s : t) theCmd theToEcho rest :
  valid s →
  DrawCommandQueue.pending (queue s) = (theCmd, theToEcho) :: rest →
  let anAnswer := (termEvaluateCommand theCmd (popped s theCmd theToEcho)).1 in
  let s' := _termPopCommandFromQueue s in
  DrawCommandQueue.pending (queue s') = rest
  ∧ _myTermHistory s'
    = _myTermHistory s ++ (if bool_decide (theCmd = "") then [] else [theCmd])
  ∧ _myTermLine s' = _myTermLine s
  ∧ valid s'
  ∧ timeouts s'
    = timeouts s
      ++ match anAnswer with
         | Settled _ =>
             if bool_decide (rest = []) then []
             else [mkTimeout Run_termPopCommandFromQueue (_myCmdTimeout s)]
         | Pending | Threw _ => []
         end
  ∧ awaited s'
    = awaited s + match anAnswer with Pending => 1 | _ => 0 end.
Proof.
  intros Hvalid Hpend.
  destruct (drain_step_after s _ _ _ Hvalid Hpend) as (?&?&?&?&?&?&?&?).
  by split_and!.
Qed.

(** ** Any sequence of events *)

Lemma filter_delete (f : Timeout → bool) (l : list Timeout) i x :
  l !! i = Some x →
  List.length (List.filter f l)
  = List.length (List.filter f (delete i l)) + (if f x then 1 else 0).
Proof.
  revert i. induction l as [|y l IH]; intros [|i] Hi; try done.
  - injection Hi as ->. simpl. destruct (f x); simpl; lia.
  - simpl in Hi. specialize (IH i Hi). simpl. destruct (f y); simpl; lia.
Qed.

(** On an engine that defines [InternalError] the evaluation never
    throws: what the interpreter or a command throws is answered as a
    rejected promise. *)
Lemma termEvaluateCommand_answers theCmd (s : t) :
  InternalError = true →
  ∀ theErr, (termEvaluateCommand theCmd s).1 ≠ Threw theErr.
Proof.
  intros Hengine theErr. unfold termEvaluateCommand, uploaded, caught.
  rewrite Hengine. repeat case_match; simpl; try done; by simplify_eq/=.
Qed.

(** What the handler of a settlement changes. *)
Lemma settle_effect (thePromise : Promise) (s : t) :
  let s' := settle thePromise s in
  queue s' = queue s
  ∧ _myTermHistory s' = _myTermHistory s
  ∧ _myIsWasmLoaded s' = _myIsWasmLoaded s
  ∧ awaited s' = awaited s
  ∧ timeouts s'
    = timeouts s
      ++ (if DrawCommandQueue.isEmpty (_myCmdQueue s) then []
          else [mkTimeout Run_termPopCommandFromQueue (_myCmdTimeout s)]).
Proof.
  cbn zeta. unfold settle, _termPopCommandFromQueue_then,
    _termPopCommandFromQueue_catch.
  set (s2 := match thePromise with
             | Resolved => s
             | Rejected theErr => terminalWriteError theErr s
             end).
  assert (still s (terminalPrintInputLine "" s2))
    as ((_ & Hhist & _ & _ & Htmo & Hqueue & Htime) & Hload & _ & _ & Hwait).
  { eapply still_trans; [|apply still_terminalPrintInputLine].
    subst s2. destruct thePromise;
      [apply still_refl | apply still_terminalWriteMultiline]. }
  assert (_myCmdQueue (terminalPrintInputLine "" s2) = _myCmdQueue s) as Hq
    by (unfold queue in Hqueue; by injection Hqueue).
  assert (match thePromise with
          | Resolved => scheduleNext (terminalPrintInputLine "" s)
          | Rejected theErr =>
              scheduleNext (terminalPrintInputLine "" (terminalWriteError theErr s))
          end = scheduleNext (terminalPrintInputLine "" s2)) as ->
    by (by destruct thePromise).
  unfold scheduleNext. rewrite Hq, Htmo.
  destruct (DrawCommandQueue.isEmpty (_myCmdQueue s)); simpl.
  - rewrite app_nil_r. by split_and!.
  - split_and!; try done. by rewrite Htime.
Qed.

(** What an upload that goes on changes. *)
Lemma uploading_effect cs w thePromise (s : t) :
  let s' := uploading cs w thePromise s in
  queue s' = queue s
  ∧ _myTermHistory s' = _myTermHistory s
  ∧ _myIsWasmLoaded s' = _myIsWasmLoaded s
  ∧ ((s' = s ∧ awaited s = 0)
     ∨ (∃ aRest, awaited s = S aRest
        ∧ awaited s' = match thePromise with
                       | Some _ => aRest
                       | None => S aRest
                       end
        ∧ timeouts s'
          = timeouts s
            ++ match thePromise with
               | Some _ =>
                   if DrawCommandQueue.isEmpty (_myCmdQueue s) then []
                   else [mkTimeout Run_termPopCommandFromQueue (_myCmdTimeout s)]
               | None => []
               end)).
Proof.
  cbn zeta. unfold uploading.
  destruct (awaited s) as [|aRest] eqn:Hwait; [split_and!; try done; by left|].
  destruct (still_callbacks cs (set_wasm_state w s))
    as ((_ & Hhist & _ & _ & Htmo & Hqueue & Htime) & Hload & _ & _ & Hwait1).
  set (s1 := callbacks cs (set_wasm_state w s)) in *.
  change (queue (set_wasm_state w s)) with (queue s) in Hqueue.
  simpl in Hhist, Htmo, Htime, Hload, Hwait1.
  destruct thePromise as [aPromise|].
  - destruct (settle_effect aPromise (set_awaited aRest s1))
      as (Hq2 & Hh2 & Hl2 & Hw2 & Ht2).
    cbn zeta in *.
    change (queue (set_awaited aRest s1)) with (queue s1) in Hq2.
    change (_myTermHistory (set_awaited aRest s1)) with (_myTermHistory s1) in Hh2.
    change (_myIsWasmLoaded (set_awaited aRest s1)) with (_myIsWasmLoaded s1) in Hl2.
    change (awaited (set_awaited aRest s1)) with aRest in Hw2.
    change (timeouts (set_awaited aRest s1)) with (timeouts s1) in Ht2.
    change (_myCmdQueue (set_awaited aRest s1)) with (_myCmdQueue s1) in Ht2.
    change (_myCmdTimeout (set_awaited aRest s1)) with (_myCmdTimeout s1) in Ht2.
    split; [congruence|]. split; [congruence|]. split; [congruence|].
    right. exists aRest. split; [done|]. split; [done|].
    rewrite Ht2, Htime, Htmo.
    unfold queue in Hqueue. injection Hqueue as _ Hq. by rewrite Hq.
  - split; [done|]. split; [done|]. split; [done|].
    right. exists aRest. split; [done|].
    split; [congruence|]. by rewrite app_nil_r.
Qed.

(** [steady s]: the queue is well formed, one progress mark at most is
    pending, and while a command waits in the queue a drain step is
    pending or the promise of an evaluation is awaited. *)
Local Abbreviation steady s :=
  (valid s
   ∧ marks s ≤ 1
   ∧ (DrawCommandQueue.isEmpty (_myCmdQueue s) = false →
      1 ≤ drains s + awaited s)).

Lemma steady_same (s s' : t) :
  queue s' = queue s → timeouts s' = timeouts s → awaited s' = awaited s →
  steady s → steady s'.
Proof.
  intros Hq Ht Hw (Hvalid & Hmarks & Hlive).
  split; [by eapply valid_same_queue|].
  unfold drains, marks in *. rewrite Ht, Hw.
  unfold queue in Hq. injection Hq as _ Hq. by rewrite Hq.
Qed.

(** What queueing a command changes. *)
Lemma termQueueCommand_effect theCmd theToEcho (s : t) :
  valid s →
  let s' := _termQueueCommand theCmd theToEcho s in
  valid s'
  ∧ DrawCommandQueue.pending (queue s')
    = DrawCommandQueue.pending (queue s) ++ [(theCmd, theToEcho)]
  ∧ DrawCommandQueue.isEmpty (_myCmdQueue s') = false
  ∧ timeouts s'
    = timeouts s ++ (if DrawCommandQueue.isEmpty (_myCmdQueue s)
                     then [mkTimeout Run_termPopCommandFromQueue (_myCmdTimeout s)]
                     else [])
  ∧ _myTermHistory s' = _myTermHistory s
  ∧ _myIsWasmLoaded s' = _myIsWasmLoaded s
  ∧ awaited s' = awaited s.
Proof.
  intros [l Hwf].
  destruct (termQueueCommand_spec theCmd theToEcho s l Hwf)
    as (Hwf' & Hpend & Htime & _).
  destruct (termQueueCommand_frame theCmd theToEcho s) as (_ & _ & Hhist & _).
  cbn zeta. split_and!; try done.
  - by eexists.
  - pose proof (wf_isEmpty _ _ _ Hwf') as Hiff.
    destruct (DrawCommandQueue.isEmpty
                (_myCmdQueue (_termQueueCommand theCmd theToEcho s))); [|done].
    destruct Hiff as [Hnil _]. specialize (Hnil eq_refl). by destruct l.
  - unfold _termQueueCommand, new_DrawCommand. cbn zeta.
    by destruct (DrawCommandQueue.extent _ =? 1)%Z.
  - unfold _termQueueCommand, new_DrawCommand. cbn zeta.
    by destruct (DrawCommandQueue.extent _ =? 1)%Z.
Qed.

Lemma steady_termQueueCommand theCmd theToEcho (s : t) :
  steady s → steady (_termQueueCommand theCmd theToEcho s).
Proof.
  intros (Hvalid & Hmarks & Hlive).
  destruct (termQueueCommand_effect theCmd theToEcho s Hvalid)
    as (Hvalid' & _ & Hempty & Htime & _ & _ & Hwait).
  split; [done|]. unfold drains, marks in *. rewrite Htime, Hwait.
  rewrite !List.filter_app, !length_app.
  destruct (DrawCommandQueue.isEmpty (_myCmdQueue s)); simpl.
  - split; [lia|]. intros _. lia.
  - split; [lia|]. intros _. specialize (Hlive eq_refl). lia.
Qed.

(** What one character of input changes, for the queue, the timeouts
    and the history: nothing, or what queueing one command changes. *)
Lemma onTermDataInput_char_effect (aNbNewLines : Z) (s : t) (c : ascii) :
  let s' := (_onTermDataInput_char (aNbNewLines, s) c).2 in
  (queue s' = queue s ∧ timeouts s' = timeouts s
   ∧ _myTermHistory s' = _myTermHistory s
   ∧ _myIsWasmLoaded s' = _myIsWasmLoaded s
   ∧ awaited s' = awaited s)
  ∨ ∃ theCmd theToEcho (s1 : t),
      s' = _termQueueCommand theCmd theToEcho s1
      ∧ queue s1 = queue s ∧ timeouts s1 = timeouts s
      ∧ _myTermHistory s1 = _myTermHistory s
      ∧ _myIsWasmLoaded s1 = _myIsWasmLoaded s
      ∧ awaited s1 = awaited s.
Proof.
  cbn zeta. unfold _onTermDataInput_char.
  repeat case_match; simpl;
    try (left; unfold terminalWrite; simpl; destruct (_myTerm s); by split_and!).
  right. by eexists _, _, (set_myTermLine "" s).
Qed.

Lemma steady_onTermDataInput theEvent (s : t) :
  steady s → steady (_onTermDataInput theEvent s).
Proof.
  unfold _onTermDataInput. generalize 0%Z as n. revert s.
  induction (list_ascii_of_string theEvent) as [|c cs IH]; intros s n Hsteady;
    [done|].
  cbn [foldl].
  pose proof (onTermDataInput_char_effect n s c) as Heffect. cbn zeta in Heffect.
  destruct (_onTermDataInput_char (n, s) c) as [n' s'].
  apply IH. simpl in Heffect.
  destruct Heffect as [(Hq & Ht & _ & _ & Hw)
                      |(theCmd & theToEcho & s1 & -> & Hq & Ht & _ & _ & Hw)].
  - by apply (steady_same s).
  - apply steady_termQueueCommand. by apply (steady_same s).
Qed.

Lemma steady_fire i (s : t) :
  InternalError = true → steady s → steady (fire i s).
Proof.
  intros Hengine (Hvalid & Hmarks & Hlive). unfold fire.
  destruct (timeouts s !! i) as [aTimeout|] eqn:Hi; [|done].
  set (s0 := set_timeouts (delete i (timeouts s)) s).
  assert (valid s0) as Hvalid0 by (by apply valid_set_timeouts).
  pose proof (filter_delete isDrain _ _ _ Hi) as Hd.
  pose proof (filter_delete (λ aTimeout, negb (isDrain aTimeout)) _ _ _ Hi) as Hm.
  fold (drains s) in Hd. fold (marks s) in Hm.
  change (List.length (List.filter isDrain (delete i (timeouts s))))
    with (drains s0) in Hd.
  change (List.length (List.filter _ (delete i (timeouts s))))
    with (marks s0) in Hm.
  unfold isDrain in Hd, Hm.
  destruct (handler aTimeout); simpl in Hd, Hm.
  - destruct (DrawCommandQueue.pending (queue s0)) as [|[theCmd theToEcho] rest]
      eqn:Hpend.
    { rewrite (termPopCommandFromQueue_empty s0 Hvalid0 Hpend).
      split; [done|]. split; [lia|].
      intros Hempty. exfalso.
      destruct Hvalid0 as [l Hwf]. unfold queue in Hpend. simpl in Hpend, Hwf.
      rewrite (wf_pending _ _ _ Hwf) in Hpend.
      pose proof (items_length (objects s) l
        (chain_bound _ _ _ (DrawCommandQueue.wf_chain _ _ _ Hwf))) as Hlen.
      rewrite Hpend in Hlen. destruct l; [|done].
      change (_myCmdQueue s0) with (_myCmdQueue s) in Hempty.
      rewrite (proj2 (wf_isEmpty _ _ _ Hwf) eq_refl) in Hempty. done. }
    destruct (drain_step_after s0 _ _ _ Hvalid0 Hpend)
      as (_ & Hvalid' & Hempty' & Htime' & Hwait' & _).
    cbn zeta in Hvalid', Hempty', Htime', Hwait'.
    pose proof (termEvaluateCommand_answers theCmd
                  (if theToEcho
                   then terminalWrite theCmd
                          (set_queue (DrawCommandQueue.pop (queue s0)).2 s0)
                   else set_queue (DrawCommandQueue.pop (queue s0)).2 s0)
                  Hengine) as Hanswer.
    split; [done|]. unfold drains, marks in *. rewrite Htime', Hempty', Hwait'.
    rewrite !List.filter_app, !length_app.
    change (timeouts s0) with (delete i (timeouts s)) in *.
    destruct (termEvaluateCommand theCmd _).1 as [aPromise| |theErr].
    + destruct (bool_decide (rest = [])); simpl; split; try lia; done.
    + simpl. split; [lia|]. intros _. lia.
    + by destruct (Hanswer theErr).
  - unfold _termWasmLoadProgress.
    change (_myCmdQueue s0) with (_myCmdQueue s) in *.
    destruct (_myIsWasmLoaded s0).
    + split; [done|]. unfold drains, marks in *. split; [lia|].
      intros Hempty. specialize (Hlive Hempty).
      change (awaited s0) with (awaited s). lia.
    + destruct (still_terminalWrite "." s0)
        as ((_&_&_&_&_&Hq&Ht)&_&_&_&Hw).
      set (s1 := terminalWrite "." s0) in *.
      split; [by apply (valid_same_queue s0)|].
      unfold drains, marks in *. simpl timeouts. simpl awaited.
      rewrite !List.filter_app, !length_app, Ht, Hw. simpl.
      unfold queue in Hq. injection Hq as _ Hq.
      change (_myCmdQueue (setTimeout Run_termWasmLoadProgress 1000 s1))
        with (_myCmdQueue s1). rewrite Hq.
      change (_myCmdQueue s0) with (_myCmdQueue s).
      change (awaited s0) with (awaited s).
      change (timeouts s0) with (delete i (timeouts s)) in *.
      split; [lia|]. intros Hempty. specialize (Hlive Hempty). lia.
Qed.

Lemma steady_uploading cs w thePromise (s : t) :
  steady s → steady (uploading cs w thePromise s).
Proof.
  intros (Hvalid & Hmarks & Hlive).
  destruct (uploading_effect cs w thePromise s)
    as (Hq & _ & _ & [[-> _]|(aRest & Hwait & Hwait' & Htime)]); [done|].
  cbn zeta in *. split; [by apply (valid_same_queue s)|].
  unfold drains, marks in *. rewrite Htime, Hwait'.
  rewrite !List.filter_app, !length_app.
  unfold queue in Hq. injection Hq as _ Hq. rewrite Hq.
  destruct thePromise as [aPromise|]; simpl.
  - destruct (DrawCommandQueue.isEmpty (_myCmdQueue s)); simpl.
    + split; [lia|done].
    + split; [lia|]. intros _. lia.
  - split; [lia|]. intros _. lia.
Qed.

Lemma onWasmCreated_effect (s : t) :
  quiet s (_onWasmCreated s) ∧ _myIsWasmLoaded (_onWasmCreated s) = true
  ∧ awaited (_onWasmCreated s) = awaited s.
Proof.
  unfold _onWasmCreated.
  set (s0 := set_myIsWasmLoaded true s).
  assert (quiet s s0 ∧ _myIsWasmLoaded s0 = true ∧ awaited s0 = awaited s)
    as (Hq0 & Hl0 & Hw0) by done.
  destruct (still_terminalWrite LFCR s0) as (Hq1 & Hl1 & _ & _ & Hw1).
  set (s1 := terminalWrite LFCR s0) in *.
  pose proof (call_eval_asked HELP_JSDOWNLOAD s1) as (Hq2 & Hl2 & _ & Hw2).
  destruct (call_eval HELP_JSDOWNLOAD s1) as [aThrown s2].
  simpl in Hq2, Hl2, Hw2.
  assert (quiet s s2 ∧ _myIsWasmLoaded s2 = true ∧ awaited s2 = awaited s)
    as (Hq & Hl & Hw).
  { split; [|split; congruence]. eapply quiet_trans; [|exact Hq2].
    by eapply quiet_trans. }
  destruct aThrown; [done|].
  pose proof (call_eval_asked HELP_JSUPLOAD s2) as (Hq3 & Hl3 & _ & Hw3).
  destruct (call_eval HELP_JSUPLOAD s2) as [aThrown s3].
  simpl in Hq3, Hl3, Hw3.
  assert (quiet s s3 ∧ _myIsWasmLoaded s3 = true ∧ awaited s3 = awaited s)
    as (Hq' & Hl' & Hw').
  { split; [|split; congruence]. by eapply quiet_trans. }
  destruct aThrown; [done|].
  destruct (still_terminalPrintInputLine "" s3) as (Hq4 & Hl4 & _ & _ & Hw4).
  split; [by eapply quiet_trans|split; congruence].
Qed.

Lemma steady_handle (s : t) (e : Event) :
  InternalError = true → steady s → steady (handle s e).
Proof.
  intros Hengine Hsteady. destruct e as [theEvent|theEvent|i| |cs w thePromise]; simpl.
  - by apply steady_onTermDataInput.
  - destruct (onTermKeyEvent_frame theEvent s) as (Hq & Ht & _ & _ & _ & _ & Hw & _).
    by apply (steady_same s).
  - by apply steady_fire.
  - destruct (onWasmCreated_effect s) as ((_&_&_&_&_&Hq&Ht) & _ & Hw).
    by apply (steady_same s).
  - by apply steady_uploading.
Qed.

(** X24. On an engine that defines [InternalError], whatever the
    terminal receives after its construction (data, keys, timeouts
    that expire in any order, the creation of the module, uploads
    that go on and settle at any time), its queue stays well formed,
    at most one progress mark is pending, and the drain never stalls:
    while a command waits in the queue, a drain step is pending or the
    promise of an evaluation is still awaited, whose handler will
    schedule one. *)
Theorem drain_never_stalls
    (isWasmSupported : bool) (theWasm : Wasm) (theEvents : list Event) :
  InternalError = true →
  let s := run theEvents (new isWasmSupported theWasm) in
  valid s
  ∧ marks s ≤ 1
  ∧ (DrawCommandQueue.isEmpty (_myCmdQueue s) = false →
     1 ≤ drains s + awaited s).
Proof.
  intros Hengine. cbn zeta. unfold run.
  assert (steady (new isWasmSupported theWasm)) as Hnew.
  { split; [apply valid_new|].
    destruct isWasmSupported; (split; [vm_compute; lia | intros Hempty; done]). }
  revert Hnew. generalize (new isWasmSupported theWasm).
  induction theEvents as [|e es IH]; intros s Hsteady; [done|].
  simpl. apply IH. by apply steady_handle.
Qed.

(** [onward s s']: from [s] to [s'] the queue stayed well formed, the
    commands evaluated and to come were only added to, at their end,
    and a module that was loaded still is, with no progress mark
    added. *)
Local Abbreviation onward s s' :=
  (valid s'
   ∧ (∃ more, agenda s' = agenda s ++ more)
   ∧ (_myIsWasmLoaded s = true →
      _myIsWasmLoaded s' = true ∧ marks s' ≤ marks s)).

Lemma onward_trans (s1 s2 s3 : t) : onward s1 s2 → onward s2 s3 → onward s1 s3.
Proof.
  intros (_ & (more1 & Ha1) & Hl1) (Hvalid & (more2 & Ha2) & Hl2).
  split; [done|]. split.
  - exists (more1 ++ more2). by rewrite Ha2, Ha1, app_assoc.
  - intros Hl. destruct (Hl1 Hl) as [Hl' Hm1]. destruct (Hl2 Hl') as [? Hm2].
    split; [done|lia].
Qed.

Lemma onward_same (s s' : t) :
  valid s → queue s' = queue s → timeouts s' = timeouts s →
  _myTermHistory s' = _myTermHistory s →
  (_myIsWasmLoaded s = true → _myIsWasmLoaded s' = true) →
  onward s s'.
Proof.
  intros Hvalid Hq Ht Hh Hl. split; [by eapply valid_same_queue|]. split.
  - exists []. unfold agenda. by rewrite Hq, Hh, app_nil_r.
  - intros Hloaded. split; [by apply Hl|]. unfold marks. by rewrite Ht.
Qed.

Lemma onward_termQueueCommand theCmd theToEcho (s : t) :
  valid s → onward s (_termQueueCommand theCmd theToEcho s).
Proof.
  intros Hvalid.
  destruct (termQueueCommand_effect theCmd theToEcho s Hvalid)
    as (Hvalid' & Hpend & _ & Htime & Hhist & Hload & _).
  cbn zeta in *. split; [done|]. split.
  - eexists. unfold agenda. rewrite Hpend, Hhist, fmap_app, List.filter_app.
    by rewrite app_assoc.
  - intros Hloaded. split; [congruence|]. unfold marks. rewrite Htime.
    rewrite List.filter_app, length_app.
    destruct (DrawCommandQueue.isEmpty (_myCmdQueue s)); simpl; lia.
Qed.

Lemma onward_onTermDataInput theEvent (s : t) :
  valid s → onward s (_onTermDataInput theEvent s).
Proof.
  unfold _onTermDataInput. generalize 0%Z as n. revert s.
  induction (list_ascii_of_string theEvent) as [|c cs IH]; intros s n Hvalid.
  { by apply onward_same. }
  cbn [foldl].
  pose proof (onTermDataInput_char_effect n s c) as Heffect. cbn zeta in Heffect.
  destruct (_onTermDataInput_char (n, s) c) as [n' s']. simpl in Heffect.
  assert (onward s s') as Hstep.
  { destruct Heffect as [(Hq & Ht & Hh & Hl & _)
                        |(theCmd & theToEcho & s1 & -> & Hq & Ht & Hh & Hl & _)].
    - apply onward_same; try done. congruence.
    - apply (onward_trans s s1).
      + apply onward_same; try done. congruence.
      + apply onward_termQueueCommand. by apply (valid_same_queue s). }
  apply (onward_trans s s'); [done|]. apply IH. by destruct Hstep.
Qed.

Lemma onward_fire i (s : t) : valid s → onward s (fire i s).
Proof.
  intros Hvalid. unfold fire.
  destruct (timeouts s !! i) as [aTimeout|] eqn:Hi; [|by apply onward_same].
  set (s0 := set_timeouts (delete i (timeouts s)) s).
  assert (valid s0) as Hvalid0 by (by apply valid_set_timeouts).
  pose proof (filter_delete (λ aTimeout, negb (isDrain aTimeout)) _ _ _ Hi) as Hm.
  fold (marks s) in Hm.
  change (List.length (List.filter _ (delete i (timeouts s))))
    with (marks s0) in Hm.
  assert (negb (isDrain aTimeout)
          = match handler aTimeout with
            | Run_termPopCommandFromQueue => false
            | Run_termWasmLoadProgress => true
            end) as Hkind by (unfold isDrain; by destruct (handler aTimeout)).
  cbv beta in Hm. rewrite Hkind in Hm. clear Hkind.
  destruct (handler aTimeout).
  - destruct (DrawCommandQueue.pending (queue s0)) as [|[theCmd theToEcho] rest]
      eqn:Hpend.
    { rewrite (termPopCommandFromQueue_empty s0 Hvalid0 Hpend).
      split; [done|]. split; [by exists []; rewrite app_nil_r|].
      intros Hl. split; [done|lia]. }
    destruct (drain_step_after s0 _ _ _ Hvalid0 Hpend)
      as (Hpend' & Hvalid' & _ & Htime' & _ & Hhist' & _ & Hload').
    cbn zeta in *. split; [done|]. split.
    + exists []. rewrite app_nil_r. unfold agenda. rewrite Hpend', Hhist'.
      change (queue s) with (queue s0). rewrite Hpend.
      change (_myTermHistory s0) with (_myTermHistory s).
      simpl fmap. simpl List.filter.
      destruct (String.eqb_spec theCmd "") as [->|Hne]; simpl.
      * by rewrite app_nil_r.
      * rewrite bool_decide_eq_false_2 by done. by rewrite <-app_assoc.
    + intros Hl. split; [by rewrite Hload'|].
      unfold marks at 1. rewrite Htime', List.filter_app, length_app.
      fold (marks s0).
      destruct (termEvaluateCommand theCmd _).1 as [aPromise| |theErr];
        [destruct (bool_decide (rest = []))| |]; simpl; lia.
  - unfold _termWasmLoadProgress.
    destruct (_myIsWasmLoaded s0) eqn:Hl0.
    + split; [done|]. split; [by exists []; rewrite app_nil_r|].
      intros _. split; [done|lia].
    + destruct (still_terminalWrite "." s0) as ((_&Hh&_&_&_&Hq&Ht)&_).
      set (s1 := terminalWrite "." s0) in *.
      split; [by apply (valid_same_queue s0)|]. split.
      * exists []. rewrite app_nil_r.
        change (agenda (setTimeout Run_termWasmLoadProgress 1000 s1))
          with (agenda s1).
        unfold agenda. by rewrite Hq, Hh.
      * intros Hl. change (_myIsWasmLoaded s0) with (_myIsWasmLoaded s) in Hl0.
        congruence.
Qed.

Lemma onward_uploading cs w thePromise (s : t) :
  valid s → onward s (uploading cs w thePromise s).
Proof.
  intros Hvalid.
  destruct (uploading_effect cs w thePromise s)
    as (Hq & Hh & Hl & [[-> _]|(aRest & _ & _ & Htime)]).
  { by apply onward_same. }
  cbn zeta in *. split; [by apply (valid_same_queue s)|]. split.
  - exists []. unfold agenda. by rewrite Hq, Hh, app_nil_r.
  - intros Hloaded. split; [congruence|]. unfold marks. rewrite Htime.
    rewrite List.filter_app, length_app.
    destruct thePromise as [aPromise|];
      [destruct (DrawCommandQueue.isEmpty (_myCmdQueue s))|]; simpl; lia.
Qed.

Lemma onward_handle (s : t) (e : Event) : valid s → onward s (handle s e).
Proof.
  intros Hvalid. destruct e as [theEvent|theEvent|i| |cs w thePromise]; simpl.
  - by apply onward_onTermDataInput.
  - destruct (onTermKeyEvent_frame theEvent s) as (Hq & Ht & Hh & _ & _ & Hl & _).
    apply onward_same; try done. congruence.
  - by apply onward_fire.
  - destruct (onWasmCreated_effect s) as ((_&Hh&_&_&_&Hq&Ht) & Hl & _).
    by apply onward_same.
  - by apply onward_uploading.
Qed.

Lemma onward_run (theEvents : list Event) (s : t) :
  valid s → onward s (run theEvents s).
Proof.
  unfold run. revert s.
  induction theEvents as [|e es IH]; intros s Hvalid; [by apply onward_same|].
  simpl. pose proof (onward_handle s e Hvalid) as Hstep.
  apply (onward_trans s (handle s e)); [done|]. apply IH. by destruct Hstep.
Qed.

(** X25. Whatever the terminal receives, the commands are evaluated in
    the order they were accepted in: the history followed by the
    commands that wait in the queue (the empty ones apart, which the
    history never records) only grows at its end. No command is
    dropped, none is evaluated twice, none overtakes another. *)
Theorem commands_keep_their_order (theEvents : list Event) (s : t) :
  valid s →
  agenda s `prefix_of` agenda (run theEvents s).
Proof.
  intros Hvalid. destruct (onward_run theEvents s Hvalid) as (_ & Hmore & _).
  exact Hmore.
Qed.

(** X26. Once the module is loaded it stays loaded, and the progress
    marks stop: whatever the terminal receives afterwards, no progress
    mark is scheduled any more, so that the one that may be pending
    expires without a successor. *)
Theorem progress_stops_once_loaded (theEvents : list Event) (s : t) :
  valid s →
  _myIsWasmLoaded s = true →
  _myIsWasmLoaded (run theEvents s) = true
  ∧ marks (run theEvents s) ≤ marks s
  ∧ ∀ i aDelay,
      timeouts (run theEvents s) !! i
      = Some (mkTimeout Run_termWasmLoadProgress aDelay) →
      marks (fire i (run theEvents s)) < marks (run theEvents s).
Proof.
  intros Hvalid Hloaded.
  destruct (onward_run theEvents s Hvalid) as (_ & _ & Hl).
  destruct (Hl Hloaded) as [Hloaded' Hmarks]. split; [done|]. split; [done|].
  intros i aDelay Hi. unfold fire. rewrite Hi. simpl handler. cbn iota.
  unfold _termWasmLoadProgress. simpl _myIsWasmLoaded. rewrite Hloaded'.
  pose proof (filter_delete (λ aTimeout, negb (isDrain aTimeout)) _ _ _ Hi) as Hm.
  unfold marks. simpl timeouts. simpl in Hm. lia.
Qed.

End SessionFacts.

(** * Further properties of the queue *)

Section RequeueFacts.
Import DrawCommandQueue.

#[local] Arguments add : simpl never.
#[local] Arguments pop : simpl never.

Local Abbreviation items h l :=
  (omap (λ a, item <$> (h : Heap) !! a) (l : list ref)).

(** [add] of an object of the store that is not in the queue and ends
    on [null]. *)
Lemma wf_add_object h q l x c :
  wf h q l → x ∉ l → h !! x = Some c → _myNext c = None →
  let st := add x (h, q) in
  wf st.1 st.2 (l ++ [x])
  ∧ items st.1 (l ++ [x]) = items h l ++ [item c].
Proof.
  intros [Hc Hnd Hlast Hlen] Hfresh Hx Hnext.
  unfold add. destruct (_myLast q) as [aLast|] eqn:HL.
  - symmetry in Hlast. apply last_Some in Hlast as [l' ->].
    simpl. split.
    + constructor; simpl.
      * rewrite <-app_assoc. simpl. by eapply chain_link.
      * apply NoDup_app. split; [done|]. split; [|apply NoDup_singleton].
        intros y Hy Hy'. apply list_elem_of_singleton in Hy'. by subst.
      * by rewrite last_snoc.
      * rewrite !length_app in *. simpl in *. lia.
    + rewrite omap_app, items_alter. f_equal.
      simpl. rewrite list_lookup_alter_ne, Hx; [done|].
      intros ->. apply Hfresh. apply elem_of_app. right.
      by apply list_elem_of_singleton.
  - symmetry in Hlast. apply last_None in Hlast as ->.
    simpl in *. split.
    + constructor; simpl.
      * split; [done|]. exists c. by split.
      * apply NoDup_singleton.
      * done.
      * done.
    + by rewrite Hx.
Qed.

(** X27. [pop] hands its object back unlinked, so that it can be
    queued again: adding the object that was just popped moves the
    head of the queue to its end, and leaves a queue the class can
    produce, with the other commands in their order. *)
Theorem popped_object_can_be_requeued
    (st : Heap * t) (aHead : string * bool) (aRest : list (string * bool)) :
  valid st →
  pending st = aHead :: aRest →
  ∃ anItem,
    (pop st).1 = Some anItem
    ∧ pending (add anItem (pop st).2) = aRest ++ [aHead]
    ∧ valid (add anItem (pop st).2)
    ∧ extent (add anItem (pop st).2).2 = extent st.2.
Proof.
  destruct st as [h q]. intros [l Hwf] Hpend. simpl in Hwf.
  rewrite (wf_pending _ _ _ Hwf) in Hpend.
  destruct l as [|x l]; [done|].
  destruct (wf_pop _ _ _ _ Hwf) as (h' & q' & c & Hpop & Hwf' & Hitems & Hx & Hx').
  csimpl in Hpend. rewrite Hx in Hpend. simpl in Hpend.
  injection Hpend as <- <-.
  pose proof (wf_nodup _ _ _ Hwf) as Hnd. apply NoDup_cons in Hnd as [Hfresh _].
  destruct (wf_add_object h' q' l x (set_myNext None c) Hwf' Hfresh Hx' eq_refl)
    as [Hwf'' Hitems''].
  exists x. rewrite Hpop. simpl fst. simpl snd.
  cbn zeta in Hwf'', Hitems''.
  destruct (add x (h', q')) as [h'' q''] eqn:Hadd. simpl in Hwf'', Hitems''.
  split_and!.
  - done.
  - rewrite (wf_pending _ _ _ Hwf''), Hitems'', Hitems. done.
  - by exists (l ++ [x]).
  - unfold extent. simpl.
    rewrite (wf_length _ _ _ Hwf''), (wf_length _ _ _ Hwf).
    rewrite length_app. simpl. f_equal. lia.
Qed.

End RequeueFacts.

(** * The further properties on the scripted host *)

Section MoreRuns.
Import JsString JsText DrawTerm Commands Session.
#[local] Existing Instance Scripted.host.

(** C3, as the specification words it, fails on the revision of
    src/js/drawxterm.js, one of the two places it is read from: there
    the line [vinit \], which ends with a backslash and which the
    interpreter finds complete, is completed by the carriage return
    and queued, its backslash included. *)
Lemma backslash_completes_line_in_sync_copy :
  endsWith ("vinit " +:+ char BACKSLASH) (char BACKSLASH) = true
  ∧ DrawCommandQueue.pending
      (queue
         (DrawTermSync._onTermDataInput_char
            (0%Z, set_myTermLine ("vinit " +:+ char BACKSLASH) Scripted.fresh)
            CR).2)
    = [("vinit " +:+ char BACKSLASH, false)]
  ∧ DrawCommandQueue.pending (queue Scripted.fresh) = []
  ∧ _myTermLine
      (DrawTermSync._onTermDataInput_char
         (0%Z, set_myTermLine ("vinit " +:+ char BACKSLASH) Scripted.fresh)
         CR).2
    ≠ "vinit ".
Proof. vm_compute. by split_and!. Qed.

(** C4 at its failing input. On an engine that does not define
    [InternalError], with the commands [bad] and [pwd] queued and the
    interpreter throwing on [bad]: the evaluation of [bad] throws a
    [ReferenceError] instead of answering a promise; the drain step
    writes nothing but what the interpreter printed (no error in the
    error style, no prompt), schedules no drain step and awaits
    nothing; [pwd] stays in the queue. And it stays there: a command
    typed afterwards joins it without scheduling a drain step, and
    when the timeouts left have expired [pwd] is still not evaluated. *)
Lemma failed_command_stops_drain :
  DrawCommandQueue.pending (queue Scripted.two_queued)
  = [("bad", false); ("pwd", true)]
  ∧ (termEvaluateCommand "bad"
       (set_queue (DrawCommandQueue.pop (queue Scripted.two_queued)).2
          Scripted.two_queued)).1
    = Threw "ReferenceError: InternalError is not defined"
  ∧ _myTerm (_termPopCommandFromQueue Scripted.two_queued)
    = (λ aWritten, aWritten ++ [LFCR; "invalid command name"])
      <$> _myTerm Scripted.two_queued
  ∧ _myTermInCounter (_termPopCommandFromQueue Scripted.two_queued) = 0%Z
  ∧ timeouts (_termPopCommandFromQueue Scripted.two_queued)
    = [mkTimeout Run_termWasmLoadProgress 1000]
  ∧ awaited (_termPopCommandFromQueue Scripted.two_queued) = 0
  ∧ DrawCommandQueue.pending
      (queue (_termPopCommandFromQueue Scripted.two_queued))
    = [("pwd", true)]
  ∧ DrawCommandQueue.pending
      (queue (run [Data ("ls" +:+ char CR); Expired 0; Expired 0]
                (_termPopCommandFromQueue Scripted.two_queued)))
    = [("pwd", true); ("ls", false)]
  ∧ _myTermHistory
      (run [Data ("ls" +:+ char CR); Expired 0; Expired 0]
         (_termPopCommandFromQueue Scripted.two_queued))
    = ["bad"].
Proof. vm_compute. by split_and!. Qed.

Lemma typed_text_is_appended_witness :
  _myTermLine (_onTermDataInput "pwd" Scripted.fresh) = "pwd".
Proof.
  rewrite (typed_text_is_appended Scripted.fresh "pwd"); [reflexivity|].
  repeat constructor; discriminate.
Defined.

Lemma typed_then_deleted_witness :
  _myTermLine
    (_onTermDataInput ("pwd" +:+ string_of_list_ascii [DEL; DEL; DEL])
       Scripted.fresh) = "".
Proof.
  assert (Forall (λ c, c ≠ DEL ∧ c ≠ CR) (list_ascii_of_string "pwd")) as Htext
    by (repeat constructor; discriminate).
  exact (f_equal _myTermLine (typed_then_deleted Scripted.fresh "pwd" Htext)).
Defined.

Lemma incomplete_line_continues_witness :
  _myTermLine
    (_onTermDataInput_char (0%Z, set_myTermLine "proc f {} {" Scripted.fresh) CR).2
  = "proc f {} {" +:+ LFCR
  ∧ queue
      (_onTermDataInput_char (0%Z, set_myTermLine "proc f {} {" Scripted.fresh) CR).2
    = queue Scripted.fresh.
Proof.
  destruct (incomplete_line_continues 0
              (set_myTermLine "proc f {} {" Scripted.fresh) eq_refl eq_refl)
    as (_ & Hline & Hqueue & _).
  split; [exact Hline | exact Hqueue].
Defined.

Lemma lines_are_queued_in_order_witness :
  DrawCommandQueue.pending
    (queue (_onTermDataInput
              ("pwd" +:+ char CR +:+ "ls" +:+ char CR +:+ "cd" +:+ char CR)
              Scripted.fresh))
  = [("pwd", false); ("ls", true); ("cd", true)].
Proof.
  assert (Forall (λ theLine,
            Forall (λ c, c ≠ DEL ∧ c ≠ CR) (list_ascii_of_string theLine)
            ∧ endsWith theLine (char BACKSLASH) = false
            ∧ isComplete theLine (wasm Scripted.fresh) = true)
            ["pwd"; "ls"; "cd"]) as Hlines.
  { repeat constructor; discriminate. }
  destruct (lines_are_queued_in_order Scripted.fresh ["pwd"; "ls"; "cd"]
              (valid_new _ _) eq_refl Hlines) as (_ & _ & Hpend & _).
  exact Hpend.
Defined.

Lemma no_echo_after_first_line_witness :
  _myTerm (_onTermDataInput_char (1%Z, Scripted.fresh) "x"%char).2
  = _myTerm Scripted.fresh.
Proof. apply (no_echo_after_first_line 1 Scripted.fresh "x"%char). discriminate. Defined.

Lemma arrow_recalls_entry_witness :
  _myTermLine
    (_onTermKeyEvent Scripted.ArrowUp
       (set_myTermHistory ["a"; "b"] Scripted.fresh)).2 = "b".
Proof.
  destruct (arrow_recalls_entry Scripted.ArrowUp
              (set_myTermHistory ["a"; "b"] Scripted.fresh))
    as (_ & Hpos & _ & Hline & _);
    [by left | reflexivity | discriminate |].
  apply (inj Some). rewrite <-Hline, Hpos. reflexivity.
Defined.

Lemma arrow_on_empty_history_witness :
  _myTermLine
    (_onTermKeyEvent Scripted.ArrowUp (set_myTermLine "pwd" Scripted.fresh)).2
  = ""
  ∧ _myTermHistoryPos
      (_onTermKeyEvent Scripted.ArrowUp (set_myTermLine "pwd" Scripted.fresh)).2
    = (-1)%Z.
Proof.
  destruct (arrow_on_empty_history Scripted.ArrowUp
              (set_myTermLine "pwd" Scripted.fresh))
    as (_ & Hline & Hpos & _);
    [by left | reflexivity | reflexivity |].
  split; [exact Hline | exact Hpos].
Defined.

Lemma evaluated_command_is_recalled_witness :
  _myTermLine
    (_onTermKeyEvent Scripted.ArrowDown
       (termEvaluateCommand "bad" Scripted.fresh).2).2 = "bad".
Proof.
  apply (evaluated_command_is_recalled "bad" Scripted.ArrowDown Scripted.fresh);
    [discriminate | by right | reflexivity].
Defined.

Lemma jsdownload_offers_what_it_read_witness :
  (_commandJsdownload ScriptedFiles.readFile "/tmp/Shot.PNG shot.png").1.2 = true
  ∧ (_commandJsdownload ScriptedFiles.readFile "/tmp/none.png").1.2 = false.
Proof.
  pose proof (jsdownload_offers_what_it_read ScriptedFiles.readFile
                "/tmp/Shot.PNG shot.png") as Hread.
  pose proof (jsdownload_offers_what_it_read ScriptedFiles.readFile
                "/tmp/none.png") as Hnone.
  split.
  - refine (proj1 (Hread _ _)); [discriminate | simpl; lia].
  - refine (proj1 (Hnone _ _)); [discriminate | simpl; lia].
Defined.

Lemma jsdownload_default_name_witness :
  ∃ aFileName aType,
    (_commandJsdownload ScriptedFiles.readFile "/tmp/Shot.PNG").2
    = [mkDownload [Byte.x89; Byte.x50; Byte.x4e; Byte.x47] aFileName aType]
    ∧ occurrences "/" aFileName = 0
    ∧ ("/tmp/Shot.PNG" = aFileName
       ∨ ∃ aDir, "/tmp/Shot.PNG" = aDir +:+ "/" +:+ aFileName).
Proof.
  apply (jsdownload_default_name ScriptedFiles.readFile "/tmp/Shot.PNG");
    [discriminate | reflexivity | reflexivity].
Defined.

Lemma jsdownload_type_by_extension_witness :
  downloadType
  <$> (_commandJsdownload ScriptedFiles.readFile "/tmp/Shot.PNG shot.bin").2
  = ["image/png"].
Proof.
  apply (jsdownload_type_by_extension ScriptedFiles.readFile
           "/tmp/Shot.PNG shot.bin" "/tmp/Shot" ".PNG" ["shot.bin"]
           [Byte.x89; Byte.x50; Byte.x4e; Byte.x47]);
    [reflexivity | simpl; lia | reflexivity | apply elem_of_cons; by left].
Defined.

Lemma jsupload_starts_each_pair_witness :
  (_commandJsupload 0 true ScriptedFiles.settlement
     "models/box.brep -path /tmp/box.brep . -path /tmp/pick.brep").1
  = [UploadUrl "models/box.brep" "/tmp/box.brep" true;
     UploadFile "/tmp/pick.brep" true].
Proof.
  apply (jsupload_starts_each_pair 0 true ScriptedFiles.settlement
           "models/box.brep -path /tmp/box.brep . -path /tmp/pick.brep"
           [("models/box.brep", "/tmp/box.brep"); (".", "/tmp/pick.brep")]);
    [reflexivity | repeat constructor; discriminate].
Defined.

Lemma jsupload_starts_each_word_witness :
  (_commandJsupload 0 true ScriptedFiles.settlement "models/box.brep   .").1
  = [UploadUrl "models/box.brep" "" true; UploadFile "" true].
Proof.
  apply (jsupload_starts_each_word 0 true ScriptedFiles.settlement
           "models/box.brep   .").
  intros Hin. vm_compute in Hin.
  repeat (apply elem_of_cons in Hin as [Hin|Hin]; [discriminate Hin|]).
  by apply elem_of_nil in Hin.
Defined.

Lemma jsupload_reports_failures_witness :
  settled 0 true [Rejected "Error: HTTP 404"; Resolved;
                Rejected "Error: no file chosen"]
  = Rejected ("Error: Error: HTTP 404" +:+ String CR (String LF "")
              +:+ "Error: no file chosen").
Proof.
  apply (jsupload_reports_failures 0 "Error: HTTP 404" "Error: no file chosen"
           [Resolved]);
    [repeat constructor | discriminate].
Defined.

Lemma command_goes_to_one_collaborator_witness :
  ∃ aCall,
    asked (termEvaluateCommand "download  /tmp/Shot.PNG " Scripted.fresh).2
    = asked Scripted.fresh ++ [aCall].
Proof.
  destruct (command_goes_to_one_collaborator "download  /tmp/Shot.PNG "
              Scripted.fresh) as (aCall & Hasked & _); [discriminate|].
  exists aCall. exact Hasked.
Defined.

Lemma drain_on_empty_queue_witness :
  _termPopCommandFromQueue Scripted.fresh = Scripted.fresh.
Proof.
  apply (drain_on_empty_queue Scripted.fresh); [apply valid_new | reflexivity].
Defined.

Lemma drain_consumes_the_head_witness :
  DrawCommandQueue.pending (queue (_termPopCommandFromQueue Scripted.two_queued))
  = [("pwd", true)]
  ∧ _myTermHistory (_termPopCommandFromQueue Scripted.two_queued) = ["bad"]
  ∧ timeouts (_termPopCommandFromQueue Scripted.two_queued)
    = [mkTimeout Run_termWasmLoadProgress 1000]
  ∧ timeouts (_termPopCommandFromQueue Scripted.two_queued_download)
    = [mkTimeout Run_termWasmLoadProgress 1000;
       mkTimeout Run_termPopCommandFromQueue 10].
Proof.
  assert (valid Scripted.two_queued) as Hvalid.
  { apply valid_set_timeouts, valid_onTermDataInput, valid_new. }
  assert (DrawCommandQueue.pending (queue Scripted.two_queued)
          = [("bad", false); ("pwd", true)]) as Hpend
    by (vm_compute; reflexivity).
  assert (valid Scripted.two_queued_download) as Hvalid2.
  { apply valid_set_timeouts, valid_onTermDataInput, valid_new. }
  assert (DrawCommandQueue.pending (queue Scripted.two_queued_download)
          = [("download ", false); ("pwd", true)]) as Hpend2
    by (vm_compute; reflexivity).
  destruct (drain_consumes_the_head Scripted.two_queued _ _ _ Hvalid Hpend)
    as (Hpend' & Hhist & _ & _ & Htime & _).
  destruct (drain_consumes_the_head Scripted.two_queued_download _ _ _
              Hvalid2 Hpend2) as (_ & _ & _ & _ & Htime2 & _).
  split; [exact Hpend'|].
  split; [rewrite Hhist; vm_compute; reflexivity|].
  split; [rewrite Htime; vm_compute; reflexivity
         |rewrite Htime2; vm_compute; reflexivity].
Defined.

Lemma drain_never_stalls_witness :
  1 ≤ @drains Scripted.firefox
        (@run Scripted.firefox
           [Data ("bad" +:+ char CR +:+ "pwd" +:+ char CR); Expired 1]
           (@DrawTerm.new Scripted.firefox true 0%nat))
      + @awaited Scripted.firefox
          (@run Scripted.firefox
             [Data ("bad" +:+ char CR +:+ "pwd" +:+ char CR); Expired 1]
             (@DrawTerm.new Scripted.firefox true 0%nat)).
Proof.
  pose proof (@drain_never_stalls Scripted.firefox true 0%nat
                [Data ("bad" +:+ char CR +:+ "pwd" +:+ char CR); Expired 1]
                eq_refl) as Hsteady.
  cbv zeta in Hsteady. destruct Hsteady as (_ & _ & Hlive).
  apply Hlive. vm_compute. reflexivity.
Defined.

Lemma commands_keep_their_order_witness :
  agenda Scripted.received
  `prefix_of` agenda (run [Expired 1; Expired 1] Scripted.received).
Proof.
  apply (commands_keep_their_order [Expired 1; Expired 1] Scripted.received).
  apply valid_onTermDataInput, valid_new.
Defined.

Lemma progress_stops_once_loaded_witness :
  _myIsWasmLoaded (run [Expired 0] (handle Scripted.fresh WasmCreated)) = true
  ∧ marks (run [Expired 0] (handle Scripted.fresh WasmCreated))
    ≤ marks (handle Scripted.fresh WasmCreated).
Proof.
  assert (valid (handle Scripted.fresh WasmCreated)) as Hvalid.
  { apply (valid_quiet Scripted.fresh); [|apply valid_new].
    apply onWasmCreated_effect. }
  destruct (progress_stops_once_loaded [Expired 0]
              (handle Scripted.fresh WasmCreated) Hvalid)
    as (Hloaded & Hmarks & _); [by vm_compute|].
  split; [exact Hloaded | exact Hmarks].
Defined.

Lemma popped_object_can_be_requeued_witness :
  ∃ anItem,
    (DrawCommandQueue.pop (queue Scripted.two_queued)).1 = Some anItem
    ∧ DrawCommandQueue.pending
        (DrawCommandQueue.add anItem
           (DrawCommandQueue.pop (queue Scripted.two_queued)).2)
      = [("pwd", true); ("bad", false)].
Proof.
  assert (valid Scripted.two_queued) as Hvalid.
  { apply valid_set_timeouts, valid_onTermDataInput, valid_new. }
  assert (DrawCommandQueue.pending (queue Scripted.two_queued)
          = [("bad", false); ("pwd", true)]) as Hpend
    by (vm_compute; reflexivity).
  destruct (popped_object_can_be_requeued (queue Scripted.two_queued) _ _
              Hvalid Hpend) as (anItem & Hpop & Hpend' & _).
  exists anItem. split; [exact Hpop | exact Hpend'].
Defined.

Lemma sync_backslash_line_is_queued_witness :
  DrawCommandQueue.pending
    (queue
       (DrawTermSync._onTermDataInput_char
          (0%Z, set_myTermLine ("vinit " +:+ char BACKSLASH) Scripted.fresh)
          CR).2)
  = [("vinit " +:+ char BACKSLASH, false)].
Proof.
  destruct (sync_backslash_line_is_queued 0
              (set_myTermLine ("vinit " +:+ char BACKSLASH) Scripted.fresh))
    as (_ & _ & Hpend); [reflexivity | apply valid_new |].
  exact Hpend.
Defined.

Lemma sync_failed_command_does_not_stop_drain_witness :
  timeouts (DrawTermSync._termPopCommandFromQueue Scripted.two_queued).2
  = [mkTimeout Run_termWasmLoadProgress 1000;
     mkTimeout Run_termPopCommandFromQueue 10]
  ∧ DrawCommandQueue.pending
      (queue (DrawTermSync._termPopCommandFromQueue Scripted.two_queued).2)
    = [("pwd", true)].
Proof.
  assert (valid Scripted.two_queued) as Hvalid.
  { apply valid_set_timeouts, valid_onTermDataInput, valid_new. }
  assert (DrawCommandQueue.pending (queue Scripted.two_queued)
          = [("bad", false); ("pwd", true)]) as Hpend
    by (vm_compute; reflexivity).
  assert (DrawTermSync.termEvaluateCommand "bad"
            (let s0 := set_queue
                         (DrawCommandQueue.pop (queue Scripted.two_queued)).2
                         Scripted.two_queued in
             if false then terminalWrite "bad" s0 else s0)
          = (Some "boom",
             (DrawTermSync.termEvaluateCommand "bad"
                (set_queue
                   (DrawCommandQueue.pop (queue Scripted.two_queued)).2
                   Scripted.two_queued)).2)) as Heval
    by (vm_compute; reflexivity).
  destruct (sync_failed_command_does_not_stop_drain _ _ _ _ _ _ _ _
              Hvalid Hpend Heval) as (_ & _ & Htime & Hpend').
  split; [exact Htime | exact Hpend'].
Defined.

End MoreRuns.
